(** * QDR table extractor: layout reconstruction and parser selection

    A shallow embedding of the PDF parsing core
    ([utils/parsing_utils.py], [pdf_parser/textual_parser.py],
    [pdf_parser/visual_parser.py], [pdf_parser/unified_parser.py]) and the
    properties its specification states about it.

    Conventions of the embedding.
    - A Python [str] is the list of its code points.
    - Word coordinates delivered by the word extractor are Python floats;
      every finite float is a rational, so they are values of [Q].  They
      are compared exactly; their difference is the float subtraction
      [fsub], the exact difference rounded to the nearest double.
    - [cell_to_tuple] rounds every coordinate to an [int]; from there on
      (data frame columns [x], [y], the bins and the indices) coordinates
      are values of [Z].
    - A pandas column that may hold [NaN] (the row index once an offset has
      been added) is a list of [index] values, [NaN] being a constructor.
    - An exception raised by a collaborator is [None]; the [try/except]
      blocks of the source are the matches on it. *)

From Stdlib Require Import List ZArith NArith QArith Qround Qabs Qpower.
From Stdlib Require Import Qreduction Bool Lia Lqa.
From Stdlib Require Import Ascii String Permutation Sorted.
Import ListNotations.

Local Open Scope Z_scope.

(* ================================================================== *)
(** * Python built-ins used by the sources *)
(* ================================================================== *)

Module Py.

(** A code point, and a [str]. *)
Definition char := N.
Definition str := list char.

(** A literal of the Latin-1 range. *)
Definition lit (s : string) : str := map N_of_ascii (list_ascii_of_string s).

Definition LF : char := 10%N.
Definition TAB : char := 9%N.
Definition CR : char := 13%N.
Definition SPACE : char := 32%N.

Definition char_eqb (a b : char) : bool := N.eqb a b.

(** [c in s] for a character. *)
Definition char_in (c : char) (s : list char) : bool := existsb (char_eqb c) s.

Definition in_range (lo hi c : N) : bool := (N.leb lo c && N.leb c hi)%bool.

(** [str.isspace] on one character: the code points [str.strip] removes. *)
Definition isspace (c : char) : bool :=
  (in_range 9 13 c || in_range 28 32 c || N.eqb c 133 || N.eqb c 160
   || N.eqb c 5760 || in_range 8192 8202 c || N.eqb c 8232 || N.eqb c 8233
   || N.eqb c 8239 || N.eqb c 8287 || N.eqb c 12288)%bool.

(** [s.lstrip()], [s.rstrip()], [s.strip()]. *)
Fixpoint lstrip (s : str) : str :=
  match s with
  | [] => []
  | c :: s' => if isspace c then lstrip s' else s
  end.

Definition rstrip (s : str) : str := rev (lstrip (rev s)).

Definition strip (s : str) : str := rstrip (lstrip s).

(** [sep.join(parts)]. *)
Fixpoint join (sep : str) (parts : list str) : str :=
  match parts with
  | [] => []
  | s :: rest =>
      match rest with
      | [] => s
      | _ :: _ => s ++ sep ++ join sep rest
      end
  end.

(** [sorted(l, key=...)]: the sort is stable and compares with [<] only.
    [ltb a b] is the comparison of the keys of [a] and [b].  Insertion in
    front of the first element that is not smaller keeps equal elements in
    their input order, which determines the result of any stable sort. *)
Section Sorted.
Context {A : Type} (ltb : A -> A -> bool).

Fixpoint insert (x : A) (l : list A) : list A :=
  match l with
  | [] => [x]
  | y :: l' => if ltb y x then y :: insert x l' else x :: y :: l'
  end.

Fixpoint sorted (l : list A) : list A :=
  match l with
  | [] => []
  | x :: l' => insert x (sorted l')
  end.
End Sorted.

(** [pandas.Series.unique]: first occurrences, in order of appearance. *)
Section Unique.
Context {A : Type} (eqb : A -> A -> bool).

Fixpoint unique_from (seen : list A) (l : list A) : list A :=
  match l with
  | [] => []
  | x :: l' =>
      if existsb (eqb x) seen then unique_from seen l'
      else x :: unique_from (x :: seen) l'
  end.

Definition unique (l : list A) : list A := unique_from [] l.
End Unique.

(** Position of the first occurrence, as [enumerate] numbers it. *)
Fixpoint index_of (z : Z) (l : list Z) : option Z :=
  match l with
  | [] => None
  | y :: l' =>
      if Z.eqb z y then Some 0
      else match index_of z l' with
           | Some i => Some (i + 1)
           | None => None
           end
  end.

(** [not l] for a list. *)
Definition is_empty {A : Type} (l : list A) : bool :=
  match l with
  | [] => true
  | _ :: _ => false
  end.

Definition Qltb (a b : Q) : bool := negb (Qle_bool b a).

(** [int(round(q))] for a float [q]: round half to even. *)
Definition round (q : Q) : Z :=
  let f := Qfloor q in
  let r := (q - inject_Z f)%Q in
  if Qltb r (1 # 2) then f
  else if Qltb (1 # 2) r then f + 1
  else if Z.even f then f else f + 1.

(** [min(...)] and [max(...)] over a non-empty sequence, first element
    given apart: the running best is replaced on a strict improvement. *)
Definition min_of (x : Q) (l : list Q) : Q :=
  fold_left (fun best v => if Qltb v best then v else best) l x.

Definition max_of (x : Q) (l : list Q) : Q :=
  fold_left (fun best v => if Qltb best v then v else best) l x.

(** ** Float subtraction

    [a - b] on two floats is the exact difference rounded to the nearest
    double, ties to the even significand (53 bits, exponents from -1074
    on; coordinates stay far below the overflow threshold). *)
Definition pow2 (k : Z) : Q := Qpower 2 k.

(** The exponent [E] of a positive value: [2^E <= x < 2^(E+1)]. *)
Definition binary_exponent (x : Q) : Z :=
  let k := Z.log2 (Qnum x) - Z.log2 (Zpos (Qden x)) in
  if Qle_bool (pow2 k) x then k else k - 1.

(** The nearest multiple of [2^e]. *)
Definition round_at (e : Z) (x : Q) : Q :=
  (inject_Z (round (x / pow2 e)) * pow2 e)%Q.

(** The nearest double of a positive value: the unit in the last place
    is [2^(E-52)], and [2^-1074] for the subnormal numbers. *)
Definition nearest_double (x : Q) : Q :=
  round_at (Z.max (binary_exponent x - 52) (-1074)) x.

Definition to_double (q : Q) : Q :=
  let x := Qred q in
  match Qnum x with
  | Z0 => 0%Q
  | Zpos _ => nearest_double x
  | Zneg _ => (- nearest_double (- x))%Q
  end.

Definition fsub (a b : Q) : Q := to_double (a - b).

End Py.

(* ================================================================== *)
(** * [utils/parsing_utils.py] *)
(* ================================================================== *)

Module ParsingUtils.
Import Py.

(** A word as the word extractor returns it (the keys the code reads). *)
Record Word := mkWord {
  text : str;
  x0 : Q;
  x1 : Q;
  top : Q;
  bottom : Q
}.

(** A cell tuple [(text, x0, x1, top, bottom)] with integer coordinates. *)
Record Cell := mkCell {
  c_text : str;
  c_x0 : Z;
  c_x1 : Z;
  c_top : Z;
  c_bottom : Z
}.

(** [count_tokens_in_pdf]: [page_texts] is what [page.extract_text()]
    returns per page ([None] included), [encode] the tokenizer. *)
Definition count_tokens_in_pdf (encode : str -> list N)
    (page_texts : list (option str)) : Z :=
  fold_left
    (fun total_tokens page =>
       let text := match page with Some t => t | None => [] end in
       total_tokens + Z.of_nat (List.length (encode text)))
    page_texts 0.

(** The loop shared, statement for statement, by [group_words_into_lines]
    (key ['top']) and [group_line_words_into_cells] (key ['x0']). *)
Section Grouping.
Variable key : Word -> Q.
Variable threshold : Q.

Record GroupState := mkGroupState {
  groups : list (list Word);
  current : list Word;
  current_ref : option Q
}.

(** [abs(word[key] - current) <= threshold]: the difference is a float. *)
Definition within (ref : Q) (w : Word) : bool :=
  Qle_bool (Qabs (fsub (key w) ref)) threshold.

Definition group_step (st : GroupState) (word : Word) : GroupState :=
  match current_ref st with
  | None =>
      mkGroupState (groups st) (current st ++ [word]) (Some (key word))
  | Some ref =>
      if within ref word
      then mkGroupState (groups st) (current st ++ [word]) (Some ref)
      else mkGroupState (groups st ++ [current st]) [word] (Some (key word))
  end.

Definition group_finish (st : GroupState) : list (list Word) :=
  match current st with
  | [] => groups st
  | _ :: _ => groups st ++ [current st]
  end.

Definition group_sorted (words_sorted : list Word) : list (list Word) :=
  group_finish (fold_left group_step words_sorted (mkGroupState [] [] None)).
End Grouping.

Definition by_key (key : Word -> Q) (a b : Word) : bool := Qltb (key a) (key b).

Definition group_words_into_lines (words : list Word) (vertical_threshold : Q)
    : list (list Word) :=
  let words_sorted := sorted (by_key top) words in
  group_sorted top vertical_threshold words_sorted.

Definition group_line_words_into_cells (line_words : list Word)
    (horizontal_threshold : Q) : list (list Word) :=
  let line_words_sorted := sorted (by_key x0) line_words in
  group_sorted x0 horizontal_threshold line_words_sorted.

(** [cell_to_tuple]; [min]/[max] of an empty cell raise [ValueError]. *)
Definition cell_to_tuple (cell_words : list Word) : option Cell :=
  let cell_sorted := sorted (by_key x0) cell_words in
  let combined_text := join [SPACE] (map text cell_sorted) in
  match cell_sorted with
  | [] => None
  | w :: ws =>
      let min_x0 := min_of (x0 w) (map x0 ws) in
      let max_x1 := max_of (x1 w) (map x1 ws) in
      let min_top := min_of (top w) (map top ws) in
      let max_bottom := max_of (bottom w) (map bottom ws) in
      Some (mkCell combined_text (round min_x0) (round max_x1)
                   (round min_top) (round max_bottom))
  end.

(** All results, or the first exception. *)
Fixpoint all_some {A : Type} (l : list (option A)) : option (list A) :=
  match l with
  | [] => Some []
  | None :: _ => None
  | Some a :: l' =>
      match all_some l' with
      | Some r => Some (a :: r)
      | None => None
      end
  end.

(** [extract_rows_from_page], from the words of the page on:
    [(table, raw_cells)]. *)
Definition extract_rows_from_page (words : list Word)
    (vertical_threshold horizontal_threshold : Q)
    : option (list (list Cell) * list (list (list Word))) :=
  let lines := group_words_into_lines words vertical_threshold in
  let raw_cells :=
    map (fun line => group_line_words_into_cells line horizontal_threshold) lines in
  match all_some (map (fun cells => all_some (map cell_to_tuple cells)) raw_cells) with
  | Some table => Some (table, raw_cells)
  | None => None
  end.

End ParsingUtils.

(* ================================================================== *)
(** * [pdf_parser/textual_parser.py] *)
(* ================================================================== *)

Module Textual.
Import Py ParsingUtils.

(** ** Attributes set by [TextualParser.__init__] *)
Definition word_spacing : Z := 4.
Definition inaccuracy_threshold : Z := 5.
Definition format__column_spacing : nat := 6.
Definition format__min_gap : nat := 2.
Definition format__line_length : nat := 200.
Definition page_delimiter : str := [LF] ++ repeat 45%N 12 ++ [LF].
Definition max_pages_ingestion : nat := 10.

(** ** Values of a pandas numeric column *)
Inductive index :=
| Idx (i : Z)
| NaN.

(** [a + b]. *)
Definition index_add (a b : index) : index :=
  match a, b with
  | Idx i, Idx j => Idx (i + j)
  | _, _ => NaN
  end.

(** [a < b]: every comparison with [NaN] is false. *)
Definition index_ltb (a b : index) : bool :=
  match a, b with
  | Idx i, Idx j => Z.ltb i j
  | _, _ => false
  end.

(** Equality of two values met as dictionary keys: the [NaN]s that
    [iterrows] hands out are distinct objects and equal to nothing. *)
Definition key_eqb (a b : index) : bool :=
  match a, b with
  | Idx i, Idx j => Z.eqb i j
  | _, _ => false
  end.

(** Equality as [Series.unique] sees it: one [NaN] is kept. *)
Definition unique_eqb (a b : index) : bool :=
  match a, b with
  | Idx i, Idx j => Z.eqb i j
  | NaN, NaN => true
  | _, _ => false
  end.

(** [Series.max()]: [NaN]s are skipped; [NaN] when nothing is left. *)
Definition max_step (best v : index) : index :=
  match best, v with
  | _, NaN => best
  | NaN, Idx _ => v
  | Idx b, Idx i => if Z.ltb b i then v else best
  end.

Definition series_max (col : list index) : index := fold_left max_step col NaN.

(** ** [combine_close_words] *)
Definition combine_step (merged_words : list Cell) (current_word : Cell)
    : list Cell :=
  let last_word := last merged_words current_word in
  let gap := Z.abs (c_x1 last_word - c_x0 current_word) in
  if gap <=? word_spacing then
    let combined_text := c_text last_word ++ [SPACE] ++ c_text current_word in
    let new_x_right := c_x1 current_word in
    removelast merged_words
      ++ [mkCell combined_text (c_x0 last_word) new_x_right
                 (c_top last_word) (c_bottom last_word)]
  else merged_words ++ [current_word].

Definition combine_row (row : list Cell) : list Cell :=
  match row with
  | [] => []
  | first :: rest => fold_left combine_step rest [first]
  end.

Definition combine_close_words (rows : list (list Cell)) : list (list Cell) :=
  map combine_row rows.

(** ** [create_coords_dataframe]: one row per merged word *)
Record CoordRow := mkCoordRow {
  x : Z;
  y : Z;
  text : str
}.

Definition create_coords_dataframe (word_rows : list (list Cell))
    : list CoordRow :=
  let combined_word_rows := combine_close_words word_rows in
  flat_map
    (fun row => map (fun word_inf =>
                       mkCoordRow (c_x0 word_inf) (c_top word_inf) (c_text word_inf))
                    row)
    combined_word_rows.

(** ** [group_coords] *)

(** [int(np.mean(g))]: the integers are summed and divided in double
    precision and the quotient is truncated toward zero; below [2^53] that
    is the truncated integer quotient. *)
Definition int_mean (g : list Z) : Z :=
  Z.quot (fold_right Z.add 0 g) (Z.of_nat (List.length g)).

(** One turn of the loop: [groups[-1][-1]] is the value appended last. *)
Definition coords_step (groups : list (list Z)) (val : Z) : list (list Z) :=
  if (is_empty groups
      || (Z.abs (val - last (last groups []) 0) >? inaccuracy_threshold))%bool
  then groups ++ [[val]]
  else removelast groups ++ [last groups [] ++ [val]].

Definition coords_groups (values : list Z) : list (list Z) :=
  let sorted_vals := sorted Z.ltb values in
  fold_left coords_step sorted_vals [].

Definition group_coords (values : list Z) : list Z :=
  map int_mean (coords_groups values).

(** ** [map_to_bin] *)
Fixpoint map_to_bin (val : Z) (y_bins : list Z) : Z :=
  match y_bins with
  | [] => val
  | bin_y :: rest =>
      if Z.abs (val - bin_y) <=? 5 then bin_y else map_to_bin val rest
  end.

(** ** [get_binned_coords_dataframe] and [add_bin_index] *)
Record BinnedRow := mkBinnedRow {
  coords : CoordRow;
  y_bin : Z;
  x_bin : Z;
  y_index : index;
  x_index : index
}.

(** [column.map(bin_to_index)]: a value missing from the dictionary
    maps to [NaN]. *)
Definition bin_index (sorted_bins : list Z) (bin : Z) : index :=
  match index_of bin sorted_bins with
  | Some i => Idx i
  | None => NaN
  end.

Definition get_binned_coords_dataframe (word_rows : list (list Cell))
    : list BinnedRow :=
  let df := create_coords_dataframe word_rows in
  let y_bins := group_coords (map y df) in
  let x_bins := group_coords (map x df) in
  let binned := map (fun r => (r, map_to_bin (y r) y_bins, map_to_bin (x r) x_bins)) df in
  (* add_bin_index *)
  let sorted_y_bins := sorted Z.ltb (unique Z.eqb (map (fun b => snd (fst b)) binned)) in
  let sorted_x_bins := sorted Z.ltb (unique Z.eqb (map snd binned)) in
  map (fun b =>
         let '(r, yb, xb) := b in
         mkBinnedRow r yb xb (bin_index sorted_y_bins yb) (bin_index sorted_x_bins xb))
      binned.

(** ** [format_text_by_grid_position] *)

(** [lines_by_y[key].append(v)] on an insertion-ordered dictionary. *)
Fixpoint dict_append {V : Type} (key : index) (v : V)
    (d : list (index * list V)) : list (index * list V) :=
  match d with
  | [] => [(key, [v])]
  | (k, vs) :: d' =>
      if key_eqb k key then (k, vs ++ [v]) :: d'
      else (k, vs) :: dict_append key v d'
  end.

(** [d.get(key, default)]. *)
Fixpoint dict_get (d : list (index * nat)) (key : index) (default : nat) : nat :=
  match d with
  | [] => default
  | (k, v) :: d' => if key_eqb k key then v else dict_get d' key default
  end.

Definition lines_by_y (df : list BinnedRow) : list (index * list (index * str)) :=
  fold_left
    (fun d row => dict_append (y_index row) (x_index row, text (coords row)) d)
    df [].

(** The base column of every x index: [0], [6], [12], ... over the
    sorted distinct indices. *)
Fixpoint assign_columns (x_indices : list index) (current_pos : nat)
    : list (index * nat) :=
  match x_indices with
  | [] => []
  | xi :: rest => (xi, current_pos) :: assign_columns rest (current_pos + format__column_spacing)
  end.

Definition x_index_to_col (df : list BinnedRow) : list (index * nat) :=
  let x_indices := sorted index_ltb (unique unique_eqb (map x_index df)) in
  assign_columns x_indices 0.

(** [l[k] = c] for [0 <= k < len(l)]. *)
Fixpoint assign {A : Type} (l : list A) (k : nat) (c : A) : list A :=
  match l, k with
  | [], _ => []
  | _ :: l', O => c :: l'
  | a :: l', S k' => a :: assign l' k' c
  end.

(** [enumerate(text)] from [i]. *)
Fixpoint enumerate_from {A : Type} (i : nat) (l : list A) : list (nat * A) :=
  match l with
  | [] => []
  | a :: l' => (i, a) :: enumerate_from (S i) l'
  end.

(** The inner loop over the characters of one word. *)
Definition char_step (actual_pos : nat) (ln : list char) (ic : nat * char)
    : list char :=
  let '(i, ch) := ic in
  if (actual_pos + i <? format__line_length)%nat
  then assign ln (actual_pos + i) ch
  else ln.

Definition place_text (line : list char) (actual_pos : nat) (text : str)
    : list char :=
  fold_left (char_step actual_pos) (enumerate_from 0 text) line.

(** One word of a line: the state is [(line, cursor_pos)]. *)
Definition line_step (cols : list (index * nat)) (st : list char * nat)
    (item : index * str) : list char * nat :=
  let '(line, cursor_pos) := st in
  let '(xi, text) := item in
  let target_pos := dict_get cols xi cursor_pos in
  let actual_pos := Nat.max (cursor_pos + format__min_gap) target_pos in
  (place_text line actual_pos text, (actual_pos + List.length text)%nat).

Definition by_x_index (a b : index * str) : bool := index_ltb (fst a) (fst b).

(** The line of one row index before [rstrip()]. *)
Definition build_line (cols : list (index * nat)) (items : list (index * str))
    : list char :=
  fst (fold_left (line_step cols) (sorted by_x_index items)
                 (repeat SPACE format__line_length, 0%nat)).

Definition by_line_key {V : Type} (a b : index * V) : bool :=
  index_ltb (fst a) (fst b).

Definition formatted_lines (df : list BinnedRow) : list str :=
  let cols := x_index_to_col df in
  map (fun entry => rstrip (build_line cols (snd entry)))
      (sorted by_line_key (lines_by_y df)).

Definition format_text_by_grid_position (df : list BinnedRow) : str :=
  join [LF] (formatted_lines df).

(** ** [parse_pdf_and_format] *)
Record ParseState := mkParseState {
  all_dfs : list (list BinnedRow);
  y_offset : index;
  pages_text : list str
}.

Definition add_offset (off : index) (df : list BinnedRow) : list BinnedRow :=
  map (fun r => mkBinnedRow (coords r) (y_bin r) (x_bin r)
                            (index_add (y_index r) off) (x_index r))
      df.

(** One page; [None] is a page whose word extraction raises.  Whatever is
    raised inside the [try] leaves the state as it was. *)
Definition parse_page (st : ParseState) (page : option (list Word)) : ParseState :=
  match page with
  | None => st
  | Some words =>
      match extract_rows_from_page words 5 10 with
      | None => st
      | Some (word_rows, _) =>
          let df := get_binned_coords_dataframe word_rows in
          let df := add_offset (y_offset st) df in
          let y_offset' := index_add (series_max (map y_index df)) (Idx 1) in
          let page_text := format_text_by_grid_position df in
          mkParseState (all_dfs st ++ [df]) y_offset' (pages_text st ++ [page_text])
      end
  end.

Definition parse_pages (pages : list (option (list Word))) : ParseState :=
  fold_left parse_page (firstn max_pages_ingestion pages) (mkParseState [] (Idx 0) []).

(** Returns [(full_text, self.pages_text)]. *)
Definition parse_pdf_and_format (pages : list (option (list Word)))
    : str * list str :=
  let st := parse_pages pages in
  (join page_delimiter (pages_text st), pages_text st).

End Textual.

(* ================================================================== *)
(** * [pdf_parser/visual_parser.py] *)
(* ================================================================== *)

Module Visual.
Import Py.

(** ** Attributes set by [VisualParser.__init__] *)
Definition page_delimiter : str := [LF] ++ repeat 45%N 12 ++ [LF].
Definition max_pages_ingestion : nat := 10.
Definition format__line_tol : Z := 10.

(** A row of the word-box table of the OCR engine (the columns the code
    reads); a null text is [None]. *)
Record OcrRow := mkOcrRow {
  text : option str;
  left : Z;
  top : Z;
  conf : Q
}.

(** The dtype pandas gave the [text] column when it read the table: a
    column of strings ([object]), or another dtype (a column whose cells
    all read as numbers is a numeric one), on which the [.str] accessor
    raises [AttributeError]. *)
Inductive TextDtype := StringColumn | OtherColumn.

(** The word-box table [image_to_data] returns; the [text] of a row is
    the cell as the engine printed it. *)
Record OcrFrame := mkOcrFrame {
  text_dtype : TextDtype;
  rows : list OcrRow
}.

(** What the OCR engine answers on one preprocessed page image:
    [image_to_data] and [image_to_string], [None] when the call raises. *)
Record OcrPage := mkOcrPage {
  image_to_data : option OcrFrame;
  image_to_string : option str
}.

(** [data[data.conf != -1].dropna(subset=["text"])]: the rows kept, with
    the columns [text], [left] and [top]. *)
Definition usable_rows (data : list OcrRow) : list (str * Z * Z) :=
  flat_map
    (fun row =>
       if Qeq_bool (conf row) (-1) then []
       else match text row with
            | Some t => [(t, left row, top row)]
            | None => []
            end)
    data.

(** [lines[line_key].append(v)], [line_key] being the first key within
    the tolerance of [y], or [y] itself. *)
Fixpoint line_append (y : Z) (v : Z * str) (lines : list (Z * list (Z * str)))
    : list (Z * list (Z * str)) :=
  match lines with
  | [] => [(y, [v])]
  | (line_y, vs) :: rest =>
      if Z.abs (line_y - y) <=? format__line_tol
      then (line_y, vs ++ [v]) :: rest
      else (line_y, vs) :: line_append y v rest
  end.

Definition by_fst {V : Type} (a b : Z * V) : bool := Z.ltb (fst a) (fst b).

Definition reconstruct_text_from_df (data : list (str * Z * Z)) : str :=
  let stripped := map (fun r => let '(t, l, tp) := r in (strip t, l, tp)) data in
  let data := filter (fun r => let '(t, _, _) := r in negb (is_empty t)) stripped in
  let lines :=
    fold_left (fun lines r => let '(t, l, tp) := r in line_append tp (l, t) lines)
              data [] in
  let reconstructed :=
    map (fun entry =>
           let words := sorted by_fst (snd entry) in
           join [SPACE] (map snd words))
        (sorted by_fst lines) in
  join [LF] reconstructed.

(** [data["text"].str.strip()], the first statement of
    [reconstruct_text_from_df]: the accessor raises on a column that is
    not one of strings, and the rest of the function runs on strings. *)
Definition reconstruct_text (frame : OcrFrame) (data : list (str * Z * Z))
    : option str :=
  match text_dtype frame with
  | StringColumn => Some (reconstruct_text_from_df data)
  | OtherColumn => None
  end.

(** The body of the [try] for one page: the text of the page, or [None]
    when a statement raises (the [except] then skips the page). *)
Definition image_text (lower : str -> str) (image : OcrPage) : option str :=
  match image_to_data image with
  | None => None
  | Some frame =>
      let data := usable_rows (rows frame) in
      if (List.length data <? 10)%nat then
        match image_to_string image with
        | Some s => Some (lower (strip s))
        | None => None
        end
      else reconstruct_text frame data
  end.

Record ReadState := mkReadState {
  text_acc : str;
  pages_added : nat;
  page_texts : list str
}.

(** The loop of [read_text_from_images]; [break] ends the recursion. *)
Fixpoint read_loop (lower : str -> str) (images : list OcrPage) (st : ReadState)
    : ReadState :=
  match images with
  | [] => st
  | image :: rest =>
      match image_text lower image with
      | None => read_loop lower rest st
      | Some img_text =>
          let st' := mkReadState (text_acc st ++ img_text ++ page_delimiter)
                                 (S (pages_added st))
                                 (page_texts st ++ [img_text]) in
          if (pages_added st' =? max_pages_ingestion)%nat then st'
          else read_loop lower rest st'
      end
  end.

(** Returns [(text, self.pages_text)]. *)
Definition read_text_from_images (lower : str -> str) (images : list OcrPage)
    : str * list str :=
  let st := read_loop lower images (mkReadState [] 0 []) in
  (text_acc st, page_texts st).

(** [read_images_from_file]: at most [max_pages_ingestion + 5] pages are
    rendered; a failing conversion gives no image. *)
Definition read_images_from_file (converted : option (list OcrPage))
    : list OcrPage :=
  match converted with
  | Some images => firstn (max_pages_ingestion + 5) images
  | None => []
  end.

End Visual.

(* ================================================================== *)
(** * [pdf_parser/unified_parser.py] *)
(* ================================================================== *)

Module Unified.
Import Py.

(** A loaded PDF, as its three readers see it: the embedded text of each
    page (the token count), the words of each page ([None] for the whole
    when the document cannot be opened by the word extractor, [None] for a
    page whose extraction raises), and the OCR answers on the rendered page
    images ([None] when rendering raises). *)
Record PdfFile := mkPdfFile {
  text_layer : list (option str);
  word_pages : option (list (option (list ParsingUtils.Word)));
  page_images : option (list Visual.OcrPage)
}.

(** [parser.__method__]. *)
Inductive Method :=
| TEXT_PDF
| IMAGE_PDF.

(** The attributes [PdfParser] reads from the parser it selected. *)
Record Parser := mkParser {
  method : Method;
  raw_text : str;
  pages_text : list str
}.

(** [TextualParser(file=...)]; [None] when the constructor raises. *)
Definition TextualParser (file : PdfFile) : option Parser :=
  match word_pages file with
  | None => None
  | Some pages =>
      let '(full_text, pages_text) := Textual.parse_pdf_and_format pages in
      Some (mkParser TEXT_PDF full_text pages_text)
  end.

(** [VisualParser(file=...)]: the constructor catches whatever is raised. *)
Definition VisualParser (lower : str -> str) (file : PdfFile) : Parser :=
  let images := Visual.read_images_from_file (page_images file) in
  let '(text, pages_text) := Visual.read_text_from_images lower images in
  mkParser IMAGE_PDF text pages_text.

(** ** What the selector does besides returning: the parsers it
    constructs and the warnings it logs, in order. *)
Inductive Event :=
| ConstructTextualParser
| ConstructVisualParser
| WarnHexEscape
| WarnControlCharacters
| WarnTextualParserFailed.

Definition Logged (A : Type) : Type := A * list Event.

Definition ret {A : Type} (a : A) : Logged A := (a, []).

Definition bind {A B : Type} (m : Logged A) (k : A -> Logged B) : Logged B :=
  let '(a, log1) := m in
  let '(b, log2) := k a in
  (b, log1 ++ log2).

Definition emit (e : Event) : Logged unit := (tt, [e]).

Notation "x <- m ;; k" := (bind m (fun x => k))
  (at level 61, m at next level, right associativity).
Notation "m ;;; k" := (bind m (fun _ => k))
  (at level 61, right associativity).

(** ** [_has_binary_encoding] *)

(** [[0-9A-Fa-f]]. *)
Definition hex_digit (c : char) : bool :=
  (in_range 48 57 c || in_range 65 70 c || in_range 97 102 c)%bool.

(** [\\x[0-9A-Fa-f]{2}] matched at the head of [t]. *)
Definition hex_match_here (t : str) : bool :=
  match t with
  | b :: x :: h1 :: h2 :: _ =>
      (N.eqb b 92 && N.eqb x 120 && hex_digit h1 && hex_digit h2)%bool
  | _ => false
  end.

(** [hex_pattern.search(t)]: a match at some position. *)
Fixpoint hex_search (t : str) : bool :=
  match t with
  | [] => false
  | _ :: t' => (hex_match_here t || hex_search t')%bool
  end.

(** [[\x00-\x08\x0B\x0C\x0E-\x1F\x7F-\x9F]]. *)
Definition ctrl_class (c : char) : bool :=
  (in_range 0 8 c || N.eqb c 11 || N.eqb c 12 || in_range 14 31 c
   || in_range 127 159 c)%bool.

Definition ctrl_search (t : str) : bool := existsb ctrl_class t.

Definition allowed : list char := [LF; TAB; CR].

Definition _has_binary_encoding (text : str) : Logged bool :=
  let cleaned := filter (fun c => negb (char_in c allowed)) text in
  if hex_search text then
    emit WarnHexEscape ;;; ret true
  else if ctrl_search cleaned then
    emit WarnControlCharacters ;;; ret true
  else ret false.

(** ** [_select_parser] *)
Definition token_threshold : Z := 10.

Definition _select_parser (lower : str -> str) (file : PdfFile) (n_tokens : Z)
    : Logged Parser :=
  let ocr := emit ConstructVisualParser ;;; ret (VisualParser lower file) in
  if n_tokens >? token_threshold then
    emit ConstructTextualParser ;;;
    match TextualParser file with
    | Some text_parser =>
        binary <- _has_binary_encoding (raw_text text_parser) ;;
        if negb binary then ret text_parser else ocr
    | None => emit WarnTextualParserFailed ;;; ocr
    end
  else ocr.

(** [PdfParser.__init__], up to the selection of the parser. *)
Definition n_tokens (encode : str -> list N) (file : PdfFile) : Z :=
  ParsingUtils.count_tokens_in_pdf encode (text_layer file).

Definition select (encode : str -> list N) (lower : str -> str) (file : PdfFile)
    : Logged Parser :=
  _select_parser lower file (n_tokens encode file).

End Unified.

(* ================================================================== *)
(** * [pdf_parser/table_extractor.py] *)
(* ================================================================== *)

Module TableExtractor.
Import Py.

(** A data frame as the extractor looks at it: its column names and its
    number of rows, [len(table)]. *)
Record Table := mkTable {
  columns : list str;
  n_rows : nat
}.

(** [extract_from_pages]; [extract_from_page] is the call to the language
    model (it returns no table when the call fails), [row_threshold] the
    attribute of the same name. *)
Section Pages.
Variable extract_from_page : str -> list str -> list Table.
Variable row_threshold : nat.

Record PagesState := mkPagesState {
  all_tables : list Table;
  previous_column_names : list str
}.

Definition page_step (st : PagesState) (page_text : str) : PagesState :=
  let page_tables := extract_from_page page_text (previous_column_names st) in
  let filtered_tables :=
    filter (fun table => (row_threshold <=? n_rows table)%nat) page_tables in
  mkPagesState
    (all_tables st ++ filtered_tables)
    (match rev filtered_tables with
     | [] => previous_column_names st
     | table :: _ => columns table
     end).

Definition run_pages (pages_text : list str) : PagesState :=
  fold_left page_step pages_text (mkPagesState [] []).

Definition extract_from_pages (pages_text : list str) : list Table :=
  all_tables (run_pages pages_text).
End Pages.

End TableExtractor.

(* ================================================================== *)
(** * [PdfParser.__init__] and its caller [main.py] *)
(* ================================================================== *)

Module Pipeline.
Import Py Unified.

Definition NBSP : char := 160%N.

(** [s.replace(old, new)] for two one-character strings. *)
Definition replace_char (old new : char) (s : str) : str :=
  map (fun c => if char_eqb c old then new else c) s.

(** The attributes [PdfParser.__init__] sets. *)
Record PdfParser := mkPdfParser {
  file_path : str;
  n_tokens : Z;
  parse_method : Method;
  pages_text : list str;
  raw_text : str;
  preview : str
}.

(** [f"*File name*: {self.file_path}\n"]. *)
Definition file_header (file_path : str) : str :=
  lit "*File name*: " ++ file_path ++ [LF].

(** [PdfParser.__init__] on a file that has the [.pdf] extension and has
    been loaded; neither parser has a [preview] attribute, so the default
    [cleaned[:1500]] is taken. *)
Definition init (encode : str -> list N) (lower : str -> str)
    (file_path : str) (file : PdfFile) : PdfParser :=
  let n := Unified.n_tokens encode file in
  let parser := fst (_select_parser lower file n) in
  let cleaned := replace_char NBSP SPACE (Unified.raw_text parser) in
  mkPdfParser file_path n (method parser) (Unified.pages_text parser)
              (file_header file_path ++ cleaned) (firstn 1500 cleaned).

(** [s.startswith(prefix)]. *)
Fixpoint starts_with (prefix s : str) : bool :=
  match prefix, s with
  | [], _ => true
  | _ :: _, [] => false
  | p :: prefix', c :: s' => (char_eqb p c && starts_with prefix' s')%bool
  end.

(** [s.split(sep)] for a non-empty [sep]: the text is cut at the leftmost
    occurrences of [sep] that do not overlap.  [skip] counts the characters
    of an occurrence still to pass, [cur] is the piece being read. *)
Fixpoint split_from (sep : str) (skip : nat) (cur : str) (s : str) : list str :=
  match s with
  | [] => [cur]
  | c :: s' =>
      match skip with
      | S k => split_from sep k cur s'
      | O =>
          if starts_with sep s
          then cur :: split_from sep (List.length sep - 1) [] s'
          else split_from sep 0 (cur ++ [c]) s'
      end
  end.

(** [s.split(sep)]; an empty separator raises [ValueError]. *)
Definition split (sep s : str) : option (list str) :=
  match sep with
  | [] => None
  | _ :: _ => Some (split_from sep 0 [] s)
  end.

(** [pdf.raw_text.split("\n------------\n")], the page list [main.py]
    hands to [extract_from_pages]. *)
Definition raw_page_texts (pdf : PdfParser) : option (list str) :=
  split Textual.page_delimiter (raw_text pdf).

End Pipeline.

(* ================================================================== *)
(** * Notions of the specification *)
(* ================================================================== *)

Module Spec.
Import Py.

(** A hexadecimal digit. *)
Definition is_hex_digit (c : char) : Prop :=
  (48 <= c <= 57 \/ 65 <= c <= 70 \/ 97 <= c <= 102)%N.

(** The text holds a backslash, an [x] and two hexadecimal digits in a row. *)
Definition contains_hex_escape (t : str) : Prop :=
  exists pre h1 h2 post,
    t = pre ++ [92%N; 120%N; h1; h2] ++ post /\ is_hex_digit h1 /\ is_hex_digit h2.

(** A control character (general category Cc): C0, DEL and C1. *)
Definition is_control (c : char) : Prop :=
  (c <= 31 \/ 127 <= c <= 159)%N.

(** The text holds a control character other than the three allowed. *)
Definition contains_disallowed_control (t : str) : Prop :=
  exists c, In c t /\ is_control c /\ c <> LF /\ c <> TAB /\ c <> CR.

(** The reference binning of section 4.1, word for word: sort, open a new
    bin when the gap to the running mean of the last bin exceeds [t], emit
    the mean of every bin. *)
Definition mean (g : list Z) : Q :=
  Qdiv (inject_Z (fold_right Z.add 0 g)) (inject_Z (Z.of_nat (List.length g))).

Definition running_mean_step (t : Z) (bins : list (list Z)) (val : Z)
    : list (list Z) :=
  match rev bins with
  | [] => [[val]]
  | g :: earlier =>
      if Qltb (inject_Z t) (Qabs (Qminus (inject_Z val) (mean g)))
      then bins ++ [[val]]
      else rev earlier ++ [g ++ [val]]
  end.

Definition running_mean_bins (t : Z) (values : list Z) : list Q :=
  map mean (fold_left (running_mean_step t) (sorted Z.ltb values) []).

(** The binning the code performs, told the same way: sort, open a new bin
    when the gap to the value added last exceeds [t], emit the mean of
    every bin truncated toward zero. *)
Fixpoint chain_bins (t : Z) (bin : list Z) (prev : Z) (vals : list Z)
    : list (list Z) :=
  match vals with
  | [] => [bin]
  | v :: vals' =>
      if Z.abs (v - prev) >? t
      then bin :: chain_bins t [v] v vals'
      else chain_bins t (bin ++ [v]) v vals'
  end.

Definition last_member_bins (t : Z) (values : list Z) : list Z :=
  match sorted Z.ltb values with
  | [] => []
  | v :: vals => map (fun g => Z.quot (fold_right Z.add 0 g) (Z.of_nat (List.length g)))
                     (chain_bins t [v] v vals)
  end.

(** The start offset and the text of every word of a line, in the order
    the renderer places them: the values [actual_pos] takes. *)
Fixpoint word_positions (cols : list (Textual.index * nat))
    (items : list (Textual.index * str)) (cursor_pos : nat) : list (nat * str) :=
  match items with
  | [] => []
  | (xi, text) :: rest =>
      let target_pos := Textual.dict_get cols xi cursor_pos in
      let actual_pos := Nat.max (cursor_pos + Textual.format__min_gap) target_pos in
      (actual_pos, text)
        :: word_positions cols rest (actual_pos + List.length text)%nat
  end.

(** Writing words at given offsets onto a line. *)
Definition write_words (placed : list (nat * str)) (line : list char) : list char :=
  fold_left (fun ln p => Textual.place_text ln (fst p) (snd p)) placed line.

(** The earlier word ends at least [min_gap] characters before the later
    one starts. *)
Definition ends_before (a b : nat * str) : Prop :=
  (fst a + List.length (snd a) + Textual.format__min_gap <= fst b)%nat.

(** The longest prefix that satisfies [p], and what follows it. *)
Fixpoint take_while {A : Type} (p : A -> bool) (l : list A) : list A :=
  match l with
  | [] => []
  | a :: l' => if p a then a :: take_while p l' else []
  end.

Fixpoint drop_while {A : Type} (p : A -> bool) (l : list A) : list A :=
  match l with
  | [] => []
  | a :: l' => if p a then drop_while p l' else l
  end.

(** Order by [key]. *)
Definition key_le {A : Type} (key : A -> Q) (a b : A) : Prop :=
  (key a <= key b)%Q.

(** Order by [key], then by [key2] among equal keys. *)
Definition lex_le {A : Type} (key key2 : A -> Q) (a b : A) : Prop :=
  (key a < key b)%Q \/ ((key a == key b)%Q /\ (key2 a <= key2 b)%Q).

(** Words that agree on both sort keys are the same word. *)
Definition ties_are_equal (words : list ParsingUtils.Word) : Prop :=
  forall a b, In a words -> In b words ->
    (ParsingUtils.top a == ParsingUtils.top b)%Q ->
    (ParsingUtils.x0 a == ParsingUtils.x0 b)%Q -> a = b.

(** The second value is more than [t] above the first. *)
Definition apart (t : Z) (a b : Z) : Prop := a + t < b.

(** A row index that is a number, at least [lo] and below [hi]. *)
Definition index_in (lo hi : Z) (v : Textual.index) : Prop :=
  exists i, v = Textual.Idx i /\ lo <= i < hi.

(** Every row index of the first frame is below every one of the second. *)
Definition rows_below (df1 df2 : list Textual.BinnedRow) : Prop :=
  forall r1 r2, In r1 df1 -> In r2 df2 ->
    Textual.index_ltb (Textual.y_index r1) (Textual.y_index r2) = true.

(** The invariant of the page loop: the offset is a number above every row
    index handed out so far, and the pages are in increasing index order. *)
Definition offsets_ok (st : Textual.ParseState) : Prop :=
  exists o, Textual.y_offset st = Textual.Idx o /\ 0 <= o
            /\ Forall (Forall (fun r => index_in 0 o (Textual.y_index r))) (Textual.all_dfs st)
            /\ StronglySorted rows_below (Textual.all_dfs st).

End Spec.

(* ================================================================== *)
(** * Concrete inputs *)
(* ================================================================== *)

Module Examples.
Import Py.

Definition word (s : string) (x0 x1 top bottom : Z) : ParsingUtils.Word :=
  ParsingUtils.mkWord (lit s) (inject_Z x0) (inject_Z x1)
                      (inject_Z top) (inject_Z bottom).

(** Every character is a token of its own. *)
Definition char_tokens (s : str) : list N := s.

(** A lower-casing of the ASCII letters. *)
Definition ascii_lower (s : str) : str :=
  map (fun c => if in_range 65 90 c then (c + 32)%N else c) s.

(** The one-page document of the specification. *)
Definition name_age_page : list ParsingUtils.Word :=
  [word "Name" 0 10 0 10; word "Age" 50 60 0 10;
   word "Alice" 0 10 15 25; word "30" 50 55 15 25].

Definition name_age_file : Unified.PdfFile :=
  Unified.mkPdfFile [Some (lit "Name Age Alice 30")] (Some [Some name_age_page])
                    (Some []).

(** A page with one word that spells a hexadecimal escape. *)
Definition hex_file : Unified.PdfFile :=
  Unified.mkPdfFile [Some (lit "\xAB and more")] (Some [Some [word "\xAB" 0 10 0 10]])
                    (Some []).

Definition hex_parser : Unified.Parser :=
  Unified.mkParser Unified.TEXT_PDF (lit "  \xAB") [lit "  \xAB"].

(** A scanned page: no text layer, two OCR rows, a plain transcription. *)
Definition scan_page : Visual.OcrPage :=
  Visual.mkOcrPage
    (Some (Visual.mkOcrFrame Visual.StringColumn
             [Visual.mkOcrRow None 0 0 (-1);
              Visual.mkOcrRow (Some (lit "Total")) 10 20 (96 # 1)]))
    (Some (lit " Total 30 ")).

Definition scan_file : Unified.PdfFile :=
  Unified.mkPdfFile [None] (Some [Some []]) (Some [scan_page]).

(** Twelve OCR rows on two lines. *)
Definition dense_page : Visual.OcrPage :=
  Visual.mkOcrPage
    (Some (Visual.mkOcrFrame Visual.StringColumn
             (map (fun i => Visual.mkOcrRow (Some (lit "ab")) (10 * i) (if i <? 6 then 0 else 30) (90 # 1))
                  [0; 1; 2; 3; 4; 5; 6; 7; 8; 9; 10; 11])))
    (Some (lit "ab")).

(** A page of twelve amounts: every cell of the text column reads as a
    number, so the column is a numeric one. *)
Definition amounts_page : Visual.OcrPage :=
  Visual.mkOcrPage
    (Some (Visual.mkOcrFrame Visual.OtherColumn
             (map (fun i => Visual.mkOcrRow (Some (lit "125")) (10 * i) (if i <? 6 then 0 else 30) (90 # 1))
                  [0; 1; 2; 3; 4; 5; 6; 7; 8; 9; 10; 11])))
    (Some (lit "125 125 125")).

(** The double nearest to a decimal literal. *)
Definition float_word (s : string) (top : Q) : ParsingUtils.Word :=
  ParsingUtils.mkWord (lit s) 0 10 (to_double top) (to_double top + 10).

End Examples.

(* ================================================================== *)
(** * Notions used by the further properties *)
(* ================================================================== *)

Module Props.
Import Py.

(** A run of the grouping loop: its first word, and words whose key, less
    the key of the first as floats subtract, is within the threshold. *)
Definition anchored (key : ParsingUtils.Word -> Q) (threshold : Q)
    (g : list ParsingUtils.Word) : Prop :=
  match g with
  | [] => False
  | w :: rest => Forall (fun u => (Qabs (fsub (key u) (key w)) <= threshold)%Q) rest
  end.

(** Each run starts with a word that is not within the threshold of the
    first word of the run before it. *)
Fixpoint runs_break (key : ParsingUtils.Word -> Q) (threshold : Q)
    (gs : list (list ParsingUtils.Word)) : Prop :=
  match gs with
  | g1 :: (g2 :: _) as rest =>
      match g1, g2 with
      | w1 :: _, w2 :: _ => ~ (Qabs (fsub (key w2) (key w1)) <= threshold)%Q
      | _, _ => False
      end
      /\ runs_break key threshold rest
  | _ => True
  end.

(** The box of a cell tuple holds the rounded box of a word. *)
Definition box_holds (c : ParsingUtils.Cell) (w : ParsingUtils.Word) : Prop :=
  ParsingUtils.c_x0 c <= round (ParsingUtils.x0 w)
  /\ round (ParsingUtils.x1 w) <= ParsingUtils.c_x1 c
  /\ ParsingUtils.c_top c <= round (ParsingUtils.top w)
  /\ round (ParsingUtils.bottom w) <= ParsingUtils.c_bottom c.

(** The horizontal gap the merge of close words looks at. *)
Definition gap_exceeds (a b : ParsingUtils.Cell) : Prop :=
  Textual.word_spacing < Z.abs (ParsingUtils.c_x1 a - ParsingUtils.c_x0 b).

(** [sep] occurs in [s]. *)
Definition occurs (sep s : str) : Prop :=
  exists a b, s = a ++ sep ++ b.

(** No occurrence of [sep] starts inside the piece, not even one that
    would run on into a separator placed after it. *)
Definition splits_cleanly (sep piece : str) : Prop :=
  ~ occurs sep (piece ++ removelast sep).

(** The dictionary of lines [reconstruct_text_from_df] builds from the rows
    it keeps. *)
Definition ocr_kept (data : list (str * Z * Z)) : list (str * Z * Z) :=
  filter (fun r => let '(t, _, _) := r in negb (is_empty t))
         (map (fun r => let '(t, l, tp) := r in (strip t, l, tp)) data).

Definition ocr_lines (data : list (str * Z * Z)) : list (Z * list (Z * str)) :=
  fold_left (fun lines r => let '(t, l, tp) := r in Visual.line_append tp (l, t) lines)
            (ocr_kept data) [].

(** The page is processed without an exception: [image_text] returns a
    text. *)
Definition ocr_succeeds (lower : str -> str) (image : Visual.OcrPage) : bool :=
  match Visual.image_text lower image with
  | Some _ => true
  | None => false
  end.

(** The words of the page are extracted without an exception. *)
Definition extracted (page : option (list ParsingUtils.Word)) : bool :=
  match page with
  | Some _ => true
  | None => false
  end.

(** The texts of the pages processed without an exception, in page
    order. *)
Definition ocr_texts (lower : str -> str) (images : list Visual.OcrPage) : list str :=
  flat_map (fun image => match Visual.image_text lower image with
                         | Some img_text => [img_text]
                         | None => []
                         end)
           images.

(** The pieces with [header] put in front of the first one. *)
Definition prefix_first (header : str) (pieces : list str) : list str :=
  match pieces with
  | [] => [header]
  | piece :: rest => (header ++ piece) :: rest
  end.

(** The gap between two line keys exceeds the line tolerance. *)
Definition keys_apart (k1 k2 : Z) : Prop :=
  Visual.format__line_tol < Z.abs (k1 - k2).

(** A search for [sep] in [s], position by position. *)
Fixpoint occurs_b (sep s : str) : bool :=
  match s with
  | [] => Pipeline.starts_with sep []
  | _ :: s' => (Pipeline.starts_with sep s || occurs_b sep s')%bool
  end.

(** The offset is one above the largest row index of the frame appended
    last: that frame holds a row with the index before the offset and no
    row with a larger one.  Without a frame the offset is 0. *)
Definition offset_is_next (st : Textual.ParseState) : Prop :=
  match rev (Textual.all_dfs st) with
  | [] => Textual.y_offset st = Textual.Idx 0
  | df :: _ =>
      exists m,
        Textual.y_offset st = Textual.Idx (m + 1)
        /\ Exists (fun r => Textual.y_index r = Textual.Idx m) df
        /\ Forall (fun r => exists i, Textual.y_index r = Textual.Idx i /\ i <= m) df
  end.

(** The column names of the table kept last, or no name. *)
Definition last_columns (tables : list TableExtractor.Table) : list str :=
  match rev tables with
  | [] => []
  | table :: _ => TableExtractor.columns table
  end.

End Props.

(* ================================================================== *)
(** * The parser selector *)
(* ================================================================== *)

Module SelectorProofs.
Import Py Unified Spec.

Lemma in_range_iff (lo hi c : N) :
  in_range lo hi c = true <-> (lo <= c <= hi)%N.
Proof.
  unfold in_range. rewrite andb_true_iff, !N.leb_le. tauto.
Qed.

Lemma hex_digit_iff (c : char) : hex_digit c = true <-> is_hex_digit c.
Proof.
  unfold hex_digit, is_hex_digit.
  rewrite !orb_true_iff, !in_range_iff. tauto.
Qed.

Lemma hex_match_here_iff (t : str) :
  hex_match_here t = true <->
  exists h1 h2 post,
    t = [92%N; 120%N; h1; h2] ++ post /\ is_hex_digit h1 /\ is_hex_digit h2.
Proof.
  split.
  - destruct t as [|b [|x [|h1 [|h2 post]]]]; simpl; try discriminate.
    rewrite !andb_true_iff, !N.eqb_eq, !hex_digit_iff.
    intros [[[-> ->] H1] H2]. now exists h1, h2, post.
  - intros (h1 & h2 & post & -> & H1 & H2). simpl.
    apply hex_digit_iff in H1, H2. now rewrite H1, H2.
Qed.

(** The search finds exactly the texts that hold the pattern. *)
Lemma hex_search_iff (t : str) :
  hex_search t = true <-> contains_hex_escape t.
Proof.
  induction t as [|c t IH].
  - split; [discriminate|].
    intros (pre & h1 & h2 & post & E & _). now destruct pre.
  - cbn [hex_search]. rewrite orb_true_iff, hex_match_here_iff, IH. split.
    + intros [(h1 & h2 & post & E & H1 & H2) | (pre & h1 & h2 & post & E & H1 & H2)].
      * exists [], h1, h2, post. auto.
      * exists (c :: pre), h1, h2, post. rewrite E. auto.
    + intros ([|c' pre] & h1 & h2 & post & E & H1 & H2).
      * left. exists h1, h2, post. auto.
      * right. injection E as -> ->. exists pre, h1, h2, post. auto.
Qed.

Lemma ctrl_class_iff (c : char) :
  ctrl_class c = true /\ char_in c allowed = false <->
  is_control c /\ c <> LF /\ c <> TAB /\ c <> CR.
Proof.
  unfold ctrl_class, char_in, allowed, char_eqb, is_control, LF, TAB, CR.
  cbn [existsb].
  rewrite !orb_true_iff, !orb_false_iff, !in_range_iff, !N.eqb_eq, !N.eqb_neq.
  lia.
Qed.

Lemma ctrl_class_not_allowed (c : char) :
  ctrl_class c = true -> char_in c allowed = false.
Proof.
  unfold ctrl_class, char_in, allowed, char_eqb, LF, TAB, CR. cbn [existsb].
  rewrite !orb_true_iff, !orb_false_iff, !in_range_iff, !N.eqb_eq, !N.eqb_neq.
  lia.
Qed.

(** The class search over the cleaned text finds exactly the texts that
    hold a control character outside the allow-list. *)
Lemma ctrl_search_iff (t : str) :
  ctrl_search (filter (fun c => negb (char_in c allowed)) t) = true <->
  contains_disallowed_control t.
Proof.
  unfold ctrl_search, contains_disallowed_control.
  rewrite existsb_exists. split.
  - intros (c & Hin & Hc). apply filter_In in Hin as [Hin Hal].
    exists c. split; [assumption|].
    apply ctrl_class_iff. split; [assumption|].
    now apply negb_true_iff.
  - intros (c & Hin & Hc). apply ctrl_class_iff in Hc as [Hc Hal].
    exists c. split; [|assumption].
    apply filter_In. split; [assumption|]. now rewrite Hal.
Qed.

Lemma has_binary_encoding_iff (t : str) :
  fst (_has_binary_encoding t) = true <->
  contains_hex_escape t \/ contains_disallowed_control t.
Proof.
  rewrite <- hex_search_iff, <- ctrl_search_iff. unfold _has_binary_encoding.
  destruct (hex_search t); [simpl; tauto|].
  destruct (ctrl_search _); simpl; intuition discriminate.
Qed.

Lemma select_parser_native (lower : str -> str) (file : PdfFile) (n : Z)
    (text_parser : Parser) :
  n > token_threshold ->
  TextualParser file = Some text_parser ->
  fst (_select_parser lower file n) =
    if fst (_has_binary_encoding (raw_text text_parser))
    then VisualParser lower file else text_parser.
Proof.
  intros Hn Htp. unfold _select_parser.
  replace (n >? token_threshold) with true by (symmetry; apply Z.gtb_lt; lia).
  rewrite Htp. unfold bind, emit, ret.
  destruct (_has_binary_encoding (raw_text text_parser)) as [[|] log]; reflexivity.
Qed.

(** C1. Once the native reconstruction has been attempted and has returned
    a text without raising, the selector returns the OCR parser whenever
    that text holds a hexadecimal escape or a control character outside
    the allow-list, and returns the native parser when it holds neither. *)
Theorem native_text_rejected_iff_binary
    (lower : str -> str) (file : PdfFile) (n : Z) (text_parser : Parser) :
  n > token_threshold ->
  TextualParser file = Some text_parser ->
  (contains_hex_escape (raw_text text_parser)
     \/ contains_disallowed_control (raw_text text_parser) ->
   fst (_select_parser lower file n) = VisualParser lower file)
  /\
  (~ contains_hex_escape (raw_text text_parser) ->
   ~ contains_disallowed_control (raw_text text_parser) ->
   fst (_select_parser lower file n) = text_parser).
Proof.
  intros Hn Htp. rewrite (select_parser_native lower file n text_parser Hn Htp).
  pose proof (has_binary_encoding_iff (raw_text text_parser)) as Hb.
  destruct (fst (_has_binary_encoding (raw_text text_parser))).
  - split; [reflexivity|]. intros H1 H2.
    destruct (proj1 Hb eq_refl); contradiction.
  - split; [|reflexivity]. intros H. apply Hb in H. discriminate.
Qed.

(** C8. Below the threshold of ten tokens the selector constructs the OCR
    parser only and returns it; the native parser is constructed only
    when the token count exceeds the threshold. *)
Theorem sparse_text_layer_goes_to_ocr
    (encode : str -> list N) (lower : str -> str) (file : PdfFile) :
  token_threshold = 10 /\
  (n_tokens encode file < token_threshold ->
   select encode lower file = (VisualParser lower file, [ConstructVisualParser]))
  /\
  (In ConstructTextualParser (snd (select encode lower file)) ->
   n_tokens encode file > token_threshold).
Proof.
  split; [reflexivity|]. unfold select, _select_parser.
  destruct (n_tokens encode file >? token_threshold) eqn:E.
  - apply Z.gtb_lt in E. split; [lia|]. intros _. lia.
  - split; [reflexivity|]. cbn. intros [H|[]]. discriminate.
Qed.

Lemma native_text_rejected_iff_binary_witness :
  fst (_select_parser Examples.ascii_lower Examples.hex_file 11)
    = VisualParser Examples.ascii_lower Examples.hex_file
  /\ (exists p, TextualParser Examples.name_age_file = Some p
                /\ fst (_select_parser Examples.ascii_lower Examples.name_age_file 17) = p).
Proof.
  split.
  - refine (proj1 (native_text_rejected_iff_binary Examples.ascii_lower
                     Examples.hex_file 11 Examples.hex_parser _ _) _).
    + reflexivity.
    + vm_compute. reflexivity.
    + left. exists [32%N; 32%N], 65%N, 66%N, []. unfold is_hex_digit.
      split; [reflexivity|]. split; right; left; split; discriminate.
  - eexists. split; [vm_compute; reflexivity|].
    refine (proj2 (native_text_rejected_iff_binary Examples.ascii_lower
                     Examples.name_age_file 17 _ _ _) _ _).
    + reflexivity.
    + vm_compute. reflexivity.
    + intros H. apply hex_search_iff in H. vm_compute in H. discriminate.
    + intros H. apply ctrl_search_iff in H. vm_compute in H. discriminate.
Defined.

Lemma sparse_text_layer_goes_to_ocr_witness :
  select Examples.char_tokens Examples.ascii_lower Examples.scan_file
    = (VisualParser Examples.ascii_lower Examples.scan_file, [ConstructVisualParser])
  /\ n_tokens Examples.char_tokens Examples.name_age_file > token_threshold.
Proof.
  split.
  - apply (sparse_text_layer_goes_to_ocr Examples.char_tokens Examples.ascii_lower
             Examples.scan_file).
    reflexivity.
  - apply (sparse_text_layer_goes_to_ocr Examples.char_tokens Examples.ascii_lower
             Examples.name_age_file).
    vm_compute. left. reflexivity.
Defined.

End SelectorProofs.

(* ================================================================== *)
(** * The OCR path *)
(* ================================================================== *)

Module VisualProofs.
Import Py Visual.

Lemma join_cons (sep s : str) (rest : list str) :
  rest <> [] -> join sep (s :: rest) = s ++ sep ++ join sep rest.
Proof. destruct rest; [congruence | reflexivity]. Qed.

(** The loop appends the delimiter after every page it adds. *)
Lemma read_loop_text (lower : str -> str) (images : list OcrPage) (st : ReadState) :
  text_acc st = flat_map (fun p => p ++ page_delimiter) (page_texts st) ->
  let st' := read_loop lower images st in
  text_acc st' = flat_map (fun p => p ++ page_delimiter) (page_texts st').
Proof.
  revert st. induction images as [|image rest IH]; intros st Hst; [exact Hst|].
  cbn [read_loop]. destruct (image_text lower image) as [img_text|].
  - assert (Hst' : text_acc st ++ img_text ++ page_delimiter
                   = flat_map (fun p => p ++ page_delimiter)
                              (page_texts st ++ [img_text])).
    { rewrite flat_map_app, Hst. cbn [flat_map]. now rewrite app_nil_r. }
    match goal with |- context [if ?c then _ else _] => destruct c end.
    + exact Hst'.
    + apply IH. exact Hst'.
  - now apply IH.
Qed.

Lemma flat_map_delimited (parts : list str) :
  parts <> [] ->
  flat_map (fun p => p ++ page_delimiter) parts
    = join page_delimiter parts ++ page_delimiter.
Proof.
  induction parts as [|p parts IH]; [congruence|]. intros _.
  destruct parts as [|q parts].
  - cbn. now rewrite app_nil_r.
  - rewrite join_cons by discriminate.
    change (flat_map (fun p0 => p0 ++ page_delimiter) (p :: q :: parts))
      with ((p ++ page_delimiter)
              ++ flat_map (fun p0 => p0 ++ page_delimiter) (q :: parts)).
    rewrite IH by discriminate. now rewrite <- !app_assoc.
Qed.

(** On the OCR path the delimiter follows every page, the last included. *)
Lemma read_text_from_images_trailing (lower : str -> str) (images : list OcrPage) :
  snd (read_text_from_images lower images) <> [] ->
  fst (read_text_from_images lower images)
    = join page_delimiter (snd (read_text_from_images lower images))
        ++ page_delimiter.
Proof.
  unfold read_text_from_images. cbn [fst snd]. intros Hne.
  rewrite <- flat_map_delimited by exact Hne.
  now apply (read_loop_text lower images (mkReadState [] 0 [])).
Qed.

(** On the native path the text is the join of the page texts. *)
Lemma parse_pdf_and_format_joined (pages : list (option (list ParsingUtils.Word))) :
  fst (Textual.parse_pdf_and_format pages)
    = join Textual.page_delimiter (snd (Textual.parse_pdf_and_format pages)).
Proof. reflexivity. Qed.

(** C2. On the OCR path the text of a one-page scan is the page text
    followed by the delimiter: it is not the page texts joined by the
    delimiter, which would be the page text alone. *)
Theorem ocr_raw_text_ends_with_delimiter :
  let parser := Unified.VisualParser Examples.ascii_lower Examples.scan_file in
  Unified.pages_text parser = [lit "total 30"]
  /\ Unified.raw_text parser = lit "total 30" ++ page_delimiter
  /\ join page_delimiter (Unified.pages_text parser) = lit "total 30"
  /\ Unified.raw_text parser <> join page_delimiter (Unified.pages_text parser).
Proof.
  cbv zeta. repeat split; try (vm_compute; reflexivity).
  vm_compute. discriminate.
Qed.

Lemma usable_rows_length (data : list OcrRow) :
  List.length (usable_rows data)
    = List.length
        (filter (fun row => negb (Qeq_bool (conf row) (-1))
                            && match text row with Some _ => true | None => false end)
                data).
Proof.
  unfold usable_rows. induction data as [|row data IH]; [reflexivity|].
  cbn [flat_map filter]. rewrite length_app, IH.
  destruct (Qeq_bool (conf row) (-1)); [reflexivity|].
  destruct (text row); reflexivity.
Qed.

(** The text of a page by the number of rows its word-box table keeps
    (confidence other than -1, text not null): below ten the plain
    transcription, stripped and lower-cased; from ten on the line
    reconstruction of the rows kept, when the text column is one of
    strings. *)
Lemma page_text_by_row_count
    (lower : str -> str) (image : OcrPage) (frame : OcrFrame) :
  image_to_data image = Some frame ->
  let usable :=
    filter (fun row => negb (Qeq_bool (conf row) (-1))
                       && match text row with Some _ => true | None => false end)
           (rows frame) in
  ((List.length usable < 10)%nat ->
   image_text lower image
     = option_map (fun s => lower (strip s)) (image_to_string image))
  /\
  ((10 <= List.length usable)%nat ->
   text_dtype frame = StringColumn ->
   image_text lower image
     = Some (reconstruct_text_from_df (usable_rows (rows frame)))).
Proof.
  intros Hdata usable. unfold image_text. rewrite Hdata.
  subst usable. rewrite <- usable_rows_length.
  destruct (List.length (usable_rows (rows frame)) <? 10)%nat eqn:E.
  - apply Nat.ltb_lt in E. split; [|lia]. intros _.
    destruct (image_to_string image); reflexivity.
  - apply Nat.ltb_ge in E. split; [lia|]. intros _ Hs.
    unfold reconstruct_text. now rewrite Hs.
Qed.

Lemma page_text_by_row_count_examples :
  image_text Examples.ascii_lower Examples.scan_page = Some (lit "total 30")
  /\ image_text Examples.ascii_lower Examples.dense_page
       = Some (lit "ab ab ab ab ab ab" ++ [LF] ++ lit "ab ab ab ab ab ab").
Proof.
  split.
  - refine (eq_trans
              (proj1 (page_text_by_row_count Examples.ascii_lower
                        Examples.scan_page _ eq_refl) _) _).
    + vm_compute. lia.
    + vm_compute. reflexivity.
  - refine (eq_trans
              (proj2 (page_text_by_row_count Examples.ascii_lower
                        Examples.dense_page _ eq_refl) _ _) _).
    + vm_compute. lia.
    + reflexivity.
    + vm_compute. reflexivity.
Qed.

(** C7. The code does not use the line reconstruction on every page that
    keeps ten rows or more: when the text column of the word-box table is
    not one of strings (every cell reads as a number), [.str.strip()]
    raises, the page yields no text at all, and the loop goes on to the
    next page with its state as it was. *)
Theorem numeric_page_is_skipped
    (lower : str -> str) (image : OcrPage) (frame : OcrFrame) :
  image_to_data image = Some frame ->
  text_dtype frame = OtherColumn ->
  (10 <= List.length
           (filter (fun row => negb (Qeq_bool (conf row) (-1))
                               && match text row with Some _ => true | None => false end)
                   (rows frame)))%nat ->
  image_text lower image = None
  /\ forall (rest : list OcrPage) (st : ReadState),
       read_loop lower (image :: rest) st = read_loop lower rest st.
Proof.
  intros Hdata Hd Hn.
  assert (E : image_text lower image = None).
  { unfold image_text. rewrite Hdata. rewrite <- usable_rows_length in Hn.
    apply Nat.ltb_ge in Hn. rewrite Hn. unfold reconstruct_text. now rewrite Hd. }
  split; [exact E|]. intros rest st. cbn [read_loop]. now rewrite E.
Qed.

Lemma numeric_page_is_skipped_witness :
  image_text Examples.ascii_lower Examples.amounts_page = None
  /\ read_text_from_images Examples.ascii_lower
       [Examples.amounts_page; Examples.scan_page]
     = (lit "total 30" ++ page_delimiter, [lit "total 30"]).
Proof.
  destruct (numeric_page_is_skipped Examples.ascii_lower Examples.amounts_page
              _ eq_refl eq_refl) as [H1 H2].
  - vm_compute. lia.
  - split; [exact H1|]. unfold read_text_from_images.
    rewrite H2. vm_compute. reflexivity.
Defined.

End VisualProofs.

(* ================================================================== *)
(** * The grid renderer *)
(* ================================================================== *)

Module RendererProofs.
Import Py Textual Spec.

Lemma assign_length {A : Type} (l : list A) (k : nat) (c : A) :
  List.length (assign l k c) = List.length l.
Proof.
  revert k. induction l as [|a l IH]; intros [|k]; cbn; auto.
Qed.

Lemma place_text_fold (line : list char) (actual_pos : nat) (text : str) :
  place_text line actual_pos text
    = fold_left (char_step actual_pos) (enumerate_from 0 text) line.
Proof. reflexivity. Qed.

Lemma chars_fold_length (actual_pos i : nat) (text : str) (line : list char) :
  List.length (fold_left (char_step actual_pos) (enumerate_from i text) line)
    = List.length line.
Proof.
  revert i line. induction text as [|ch text IH]; intros i line; [reflexivity|].
  cbn [enumerate_from fold_left]. rewrite IH. unfold char_step.
  destruct (actual_pos + i <? format__line_length)%nat; [apply assign_length | reflexivity].
Qed.

(** Placing a word never changes the length of the line. *)
Lemma place_text_length (line : list char) (actual_pos : nat) (text : str) :
  List.length (place_text line actual_pos text) = List.length line.
Proof. rewrite place_text_fold. apply chars_fold_length. Qed.

Lemma chars_fold_beyond (actual_pos i : nat) (text : str) (line : list char) :
  (format__line_length <= actual_pos + i)%nat ->
  fold_left (char_step actual_pos) (enumerate_from i text) line = line.
Proof.
  revert i line. induction text as [|ch text IH]; intros i line Hi; [reflexivity|].
  cbn [enumerate_from fold_left]. unfold char_step at 2.
  replace (actual_pos + i <? format__line_length)%nat with false
    by (symmetry; apply Nat.ltb_ge; exact Hi).
  apply IH. lia.
Qed.

Lemma chars_fold_firstn (actual_pos i : nat) (text : str) (line : list char) :
  fold_left (char_step actual_pos) (enumerate_from i text) line
    = fold_left (char_step actual_pos)
        (enumerate_from i (firstn (format__line_length - actual_pos - i) text)) line.
Proof.
  revert i line. induction text as [|ch text IH]; intros i line.
  - now rewrite firstn_nil.
  - destruct (Nat.ltb_spec (actual_pos + i) format__line_length) as [Hlt|Hge].
    + replace (format__line_length - actual_pos - i)%nat
        with (S (format__line_length - actual_pos - S i)) by lia.
      cbn [firstn enumerate_from fold_left]. apply IH.
    + replace (format__line_length - actual_pos - i)%nat with 0%nat by lia.
      rewrite (chars_fold_beyond actual_pos i (ch :: text) line Hge).
      reflexivity.
Qed.

(** The characters of a word past the end of the line leave no trace. *)
Lemma place_text_truncates (line : list char) (actual_pos : nat) (text : str) :
  place_text line actual_pos text
    = place_text line actual_pos (firstn (format__line_length - actual_pos) text).
Proof.
  rewrite !place_text_fold, (chars_fold_firstn actual_pos 0 text line).
  now rewrite Nat.sub_0_r.
Qed.

(** The loop over the words of a line writes them at [word_positions]. *)
Lemma line_fold_positions (cols : list (index * nat)) (items : list (index * str))
    (line : list char) (cursor_pos : nat) :
  fst (fold_left (line_step cols) items (line, cursor_pos))
    = write_words (word_positions cols items cursor_pos) line.
Proof.
  revert line cursor_pos.
  induction items as [|[xi text] items IH]; intros line cursor_pos; [reflexivity|].
  cbn [fold_left word_positions]. unfold line_step at 2. cbv zeta.
  rewrite IH. reflexivity.
Qed.

Lemma word_positions_texts (cols : list (index * nat)) (items : list (index * str))
    (cursor_pos : nat) :
  map snd (word_positions cols items cursor_pos) = map snd items.
Proof.
  revert cursor_pos.
  induction items as [|[xi text] items IH]; intros cursor_pos; [reflexivity|].
  cbn [word_positions map snd]. now rewrite IH.
Qed.

Lemma word_positions_separated (cols : list (index * nat))
    (items : list (index * str)) (cursor_pos : nat) :
  StronglySorted ends_before (word_positions cols items cursor_pos)
  /\ Forall (fun p => (cursor_pos + format__min_gap <= fst p)%nat)
            (word_positions cols items cursor_pos).
Proof.
  revert cursor_pos.
  induction items as [|[xi text] items IH]; intros cursor_pos.
  - split; constructor.
  - cbn [word_positions]. cbv zeta.
    set (actual_pos := Nat.max (cursor_pos + format__min_gap)
                               (dict_get cols xi cursor_pos)).
    destruct (IH (actual_pos + List.length text)%nat) as [Hs Hf].
    split.
    + constructor; [exact Hs|]. exact Hf.
    + constructor; [cbn; lia|].
      eapply Forall_impl; [|exact Hf]. cbn. intros p Hp.
      unfold format__min_gap in *. lia.
Qed.

Lemma write_words_length (placed : list (nat * str)) (line : list char) :
  List.length (write_words placed line) = List.length line.
Proof.
  unfold write_words. revert line.
  induction placed as [|p placed IH]; intros line; [reflexivity|].
  cbn [fold_left]. rewrite IH. apply place_text_length.
Qed.

Lemma build_line_length (cols : list (index * nat)) (items : list (index * str)) :
  List.length (build_line cols items) = format__line_length.
Proof.
  unfold build_line. rewrite line_fold_positions, write_words_length.
  apply repeat_length.
Qed.

Lemma lstrip_length (s : str) : (List.length (lstrip s) <= List.length s)%nat.
Proof.
  induction s as [|c s IH]; [reflexivity|].
  cbn [lstrip]. destruct (isspace c); cbn [List.length]; lia.
Qed.

Lemma rstrip_length (s : str) : (List.length (rstrip s) <= List.length s)%nat.
Proof.
  unfold rstrip. rewrite length_rev.
  etransitivity; [apply lstrip_length|]. now rewrite length_rev.
Qed.

(** C4. On every line the renderer produces, the words are written at the
    offsets [max(cursor_pos + min_gap, target_pos)] of the loop, in the
    order of their column index, and of any two of them the earlier ends
    at least [min_gap = 2] characters before the later starts. *)
Theorem grid_words_never_overlap (df : list BinnedRow) :
  format__min_gap = 2%nat
  /\ Forall
       (fun entry =>
          let items := sorted by_x_index (snd entry) in
          let placed := word_positions (x_index_to_col df) items 0 in
          build_line (x_index_to_col df) (snd entry)
            = write_words placed (repeat SPACE format__line_length)
          /\ map snd placed = map snd items
          /\ StronglySorted ends_before placed)
       (lines_by_y df).
Proof.
  split; [reflexivity|]. apply Forall_forall. intros entry _. cbv zeta.
  split; [apply line_fold_positions|].
  split; [apply word_positions_texts|].
  apply word_positions_separated.
Qed.

(** C10. Every line the renderer produces is at most [line_length = 200]
    characters long once trimmed; placing a word keeps the length of the
    line, and the characters of the word whose offset is 200 or more are
    dropped: the line is the one the word cut at offset 200 gives. *)
Theorem grid_lines_fit_line_length (df : list BinnedRow) :
  format__line_length = 200%nat
  /\ Forall (fun line => (List.length line <= format__line_length)%nat)
            (formatted_lines df)
  /\ (forall (line : list char) (actual_pos : nat) (text : str),
        List.length (place_text line actual_pos text) = List.length line
        /\ place_text line actual_pos text
             = place_text line actual_pos
                 (firstn (format__line_length - actual_pos) text)).
Proof.
  split; [reflexivity|]. split.
  - unfold formatted_lines. apply Forall_forall. intros line Hin.
    apply in_map_iff in Hin as (entry & <- & _).
    etransitivity; [apply rstrip_length|]. now rewrite build_line_length.
  - intros line actual_pos text. split.
    + apply place_text_length.
    + apply place_text_truncates.
Qed.

End RendererProofs.

(* ================================================================== *)
(** * Sorting *)
(* ================================================================== *)

Module SortProofs.
Import Py.

Section Insertion.
Context {A : Type} (ltb : A -> A -> bool) (R : A -> A -> Prop).
Hypothesis ltb_true : forall a b, ltb a b = true -> R a b.
Hypothesis ltb_false : forall a b, ltb a b = false -> R b a.
Hypothesis R_trans : forall a b c, R a b -> R b c -> R a c.

Lemma insert_perm (x : A) (l : list A) : Permutation (insert ltb x l) (x :: l).
Proof.
  induction l as [|y l IH]; cbn [insert]; [reflexivity|].
  destruct (ltb y x); [|reflexivity].
  rewrite IH. apply perm_swap.
Qed.

Lemma sorted_perm (l : list A) : Permutation (sorted ltb l) l.
Proof.
  induction l as [|x l IH]; cbn [sorted]; [reflexivity|].
  rewrite insert_perm. now constructor.
Qed.

Lemma insert_sorted (x : A) (l : list A) :
  StronglySorted R l -> StronglySorted R (insert ltb x l).
Proof.
  induction 1 as [|y l Hs IH Hy]; cbn [insert].
  - repeat constructor.
  - destruct (ltb y x) eqn:E.
    + constructor; [exact IH|].
      eapply Permutation_Forall; [symmetry; apply insert_perm|].
      constructor; [now apply ltb_true | exact Hy].
    + apply ltb_false in E.
      constructor; [now constructor|].
      constructor; [exact E|].
      eapply Forall_impl; [|exact Hy]. intros z Hz. now apply R_trans with y.
Qed.

Lemma sorted_sorted (l : list A) : StronglySorted R (sorted ltb l).
Proof.
  induction l as [|x l IH]; cbn [sorted]; [constructor|].
  now apply insert_sorted.
Qed.
End Insertion.

(** [sorted(values)] on integers is ascending. *)
Lemma sorted_Z_ascending (l : list Z) : StronglySorted Z.le (sorted Z.ltb l).
Proof.
  apply sorted_sorted.
  - intros a b H. apply Z.ltb_lt in H. lia.
  - intros a b H. apply Z.ltb_ge in H. exact H.
  - intros a b c. apply Z.le_trans.
Qed.

End SortProofs.

(* ================================================================== *)
(** * The coordinate binner *)
(* ================================================================== *)

Module BinnerProofs.
Import Py Textual Spec.

(** The loop of [group_coords], started on a last group [bin], builds the
    bins of [chain_bins]. *)
Lemma coords_fold_chain (vals : list Z) (gs : list (list Z)) (bin : list Z) :
  fold_left coords_step vals (gs ++ [bin])
    = gs ++ chain_bins inaccuracy_threshold bin (last bin 0) vals.
Proof.
  revert gs bin. induction vals as [|v vals IH]; intros gs bin; [reflexivity|].
  cbn [fold_left chain_bins]. unfold coords_step at 2.
  replace (is_empty (gs ++ [bin])) with false by (now destruct gs).
  rewrite last_last, removelast_last. cbn [orb].
  destruct (Z.abs (v - last bin 0) >? inaccuracy_threshold).
  - rewrite IH. cbn [last]. now rewrite <- app_assoc.
  - rewrite IH, last_last. reflexivity.
Qed.

Lemma group_coords_chain (values : list Z) :
  group_coords values = last_member_bins inaccuracy_threshold values.
Proof.
  unfold group_coords, coords_groups, last_member_bins.
  destruct (sorted Z.ltb values) as [|v vals]; [reflexivity|].
  cbn [fold_left]. change (coords_step [] v) with ([] ++ [[v]]).
  rewrite coords_fold_chain. reflexivity.
Qed.

(** The claim as stated fails: on [0, 5, 10] the code keeps one bin (each
    value is within 5 of the value before it), the running mean gives two. *)
Lemma group_coords_is_not_running_mean :
  group_coords [0; 5; 10] = [5]
  /\ running_mean_bins inaccuracy_threshold [0; 5; 10] = [5 # 2; 10 # 1]%Q
  /\ map inject_Z (group_coords [0; 5; 10])
       <> running_mean_bins inaccuracy_threshold [0; 5; 10].
Proof.
  split; [reflexivity|]. split; [reflexivity|]. vm_compute. discriminate.
Qed.

(** C6, amended. [group_coords] is the greedy pass over the sorted values
    that opens a new bin exactly when the gap from the incoming value to
    the value added last to the last bin exceeds the tolerance, every bin
    center being the mean of its members truncated toward zero. *)
Theorem group_coords_is_last_member_greedy (values : list Z) :
  inaccuracy_threshold = 5
  /\ group_coords values = last_member_bins inaccuracy_threshold values.
Proof.
  split; [reflexivity | apply group_coords_chain].
Qed.

(** ** Bounds on the truncated mean *)

Lemma sum_lower (lo : Z) (g : list Z) :
  Forall (Z.le lo) g -> Z.of_nat (List.length g) * lo <= fold_right Z.add 0 g.
Proof.
  induction 1 as [|a g Ha _ IH]; [reflexivity|].
  cbn [List.length fold_right]. lia.
Qed.

Lemma sum_upper (hi : Z) (g : list Z) :
  Forall (fun a => a <= hi) g -> fold_right Z.add 0 g <= Z.of_nat (List.length g) * hi.
Proof.
  induction 1 as [|a g Ha _ IH]; [reflexivity|].
  cbn [List.length fold_right]. lia.
Qed.

Lemma quot_lower (s n lo : Z) : 0 < n -> n * lo <= s -> lo <= Z.quot s n.
Proof.
  intros Hn Hs.
  pose proof (Z.quot_rem' s n) as E.
  pose proof (Z.rem_bound_abs s n ltac:(lia)) as Hr.
  nia.
Qed.

Lemma quot_upper (s n hi : Z) : 0 < n -> s <= n * hi -> Z.quot s n <= hi.
Proof.
  intros Hn Hs.
  pose proof (Z.quot_rem' s n) as E.
  pose proof (Z.rem_bound_abs s n ltac:(lia)) as Hr.
  nia.
Qed.

Lemma length_pos {A : Type} (g : list A) : g <> [] -> 0 < Z.of_nat (List.length g).
Proof. destruct g; [congruence | cbn [List.length]; lia]. Qed.

Lemma int_mean_lower (lo : Z) (g : list Z) :
  g <> [] -> Forall (Z.le lo) g -> lo <= int_mean g.
Proof.
  intros Hne Hlo. apply quot_lower; [now apply length_pos | now apply sum_lower].
Qed.

Lemma int_mean_upper (hi : Z) (g : list Z) :
  g <> [] -> Forall (fun a => a <= hi) g -> int_mean g <= hi.
Proof.
  intros Hne Hhi. apply quot_upper; [now apply length_pos | now apply sum_upper].
Qed.

(** ** Distinct bin centers are more than the tolerance apart *)

Lemma chain_bins_lower (t lo : Z) (vals bin : list Z) (prev : Z) :
  bin <> [] -> Forall (Z.le lo) bin -> Forall (Z.le lo) vals ->
  Forall (Z.le lo) (map int_mean (chain_bins t bin prev vals)).
Proof.
  revert bin prev. induction vals as [|v vals IH]; intros bin prev Hne Hbin Hvals.
  - cbn. constructor; [now apply int_mean_lower | constructor].
  - inversion Hvals as [|? ? Hv Hvals']; subst.
    cbn [chain_bins]. destruct (Z.abs (v - prev) >? t).
    + cbn [map]. constructor; [now apply int_mean_lower|].
      apply IH; [discriminate | now constructor | exact Hvals'].
    + apply IH; [now destruct bin | | exact Hvals'].
      apply Forall_app. split; [exact Hbin | now constructor].
Qed.

Lemma chain_bins_apart (t : Z) (vals bin : list Z) (prev : Z) :
  bin <> [] -> Forall (fun a => a <= prev) bin ->
  StronglySorted Z.le (prev :: vals) ->
  StronglySorted (apart t) (map int_mean (chain_bins t bin prev vals)).
Proof.
  revert bin prev. induction vals as [|v vals IH]; intros bin prev Hne Hbin Hs.
  - cbn. repeat constructor.
  - apply StronglySorted_inv in Hs as [Hs Hprev].
    pose proof (StronglySorted_inv Hs) as [Hs' Hv].
    inversion Hprev as [|? ? Hpv Hprev']; subst.
    cbn [chain_bins]. destruct (Z.abs (v - prev) >? t) eqn:E.
    + apply Z.gtb_lt in E. cbn [map]. constructor.
      * apply IH; [discriminate | repeat constructor; lia | exact Hs].
      * pose proof (int_mean_upper prev bin Hne Hbin) as Hm.
        assert (Hlow : Forall (Z.le v) (map int_mean (chain_bins t [v] v vals))).
        { apply chain_bins_lower; [discriminate | repeat constructor; lia | exact Hv]. }
        eapply Forall_impl; [|exact Hlow]. unfold apart. intros m Hm'. lia.
    + apply IH; [now destruct bin | | exact Hs].
      apply Forall_app. split; [|repeat constructor; lia].
      eapply Forall_impl; [|exact Hbin]. cbn. intros a Ha. lia.
Qed.

Lemma group_coords_apart (values : list Z) :
  StronglySorted (apart inaccuracy_threshold) (group_coords values).
Proof.
  rewrite group_coords_chain. unfold last_member_bins.
  pose proof (SortProofs.sorted_Z_ascending values) as Hs.
  destruct (sorted Z.ltb values) as [|v vals]; [constructor|].
  apply (chain_bins_apart inaccuracy_threshold vals [v] v);
    [discriminate | repeat constructor; lia | exact Hs].
Qed.

Lemma map_to_bin_fixes (bins : list Z) (b : Z) :
  StronglySorted (apart 5) bins -> In b bins -> map_to_bin b bins = b.
Proof.
  induction 1 as [|a bins Hs IH Ha]; intros Hin; [contradiction|].
  cbn [map_to_bin]. destruct Hin as [->|Hin].
  - replace (Z.abs (b - b) <=? 5) with true by (symmetry; apply Z.leb_le; lia).
    reflexivity.
  - rewrite Forall_forall in Ha. specialize (Ha b Hin). unfold apart in Ha.
    replace (Z.abs (b - a) <=? 5) with false by (symmetry; apply Z.leb_gt; lia).
    now apply IH.
Qed.

(** C5. Every bin center produced by [group_coords] is mapped to itself by
    [map_to_bin] against the same list of bins. *)
Theorem map_to_bin_idempotent_on_bins (values : list Z) (b : Z) :
  In b (group_coords values) -> map_to_bin b (group_coords values) = b.
Proof.
  apply map_to_bin_fixes. exact (group_coords_apart values).
Qed.

Lemma map_to_bin_idempotent_on_bins_witness :
  group_coords [0; 5; 11; 3; 30] = [2; 11; 30]
  /\ map_to_bin 11 (group_coords [0; 5; 11; 3; 30]) = 11.
Proof.
  split; [reflexivity|].
  apply (map_to_bin_idempotent_on_bins [0; 5; 11; 3; 30] 11).
  vm_compute. right. left. reflexivity.
Defined.

End BinnerProofs.

(* ================================================================== *)
(** * Rounding: [round] and the float subtraction *)
(* ================================================================== *)

Module FloatProofs.
Import Py.

Lemma Qltb_lt (a b : Q) : Qltb a b = true <-> (a < b)%Q.
Proof.
  unfold Qltb. rewrite negb_true_iff. split.
  - intros H. apply Qnot_le_lt. intros Hle.
    apply Qle_bool_iff in Hle. congruence.
  - intros H. destruct (Qle_bool b a) eqn:E; [|reflexivity].
    apply Qle_bool_iff in E. exfalso. now apply (Qlt_not_le a b).
Qed.

Lemma Qltb_ge (a b : Q) : Qltb a b = false <-> (b <= a)%Q.
Proof.
  unfold Qltb. rewrite negb_false_iff. apply Qle_bool_iff.
Qed.

Lemma round_monotone (q1 q2 : Q) : (q1 <= q2)%Q -> round q1 <= round q2.
Proof.
  intros Hq. pose proof (Qfloor_resp_le q1 q2 Hq) as Hf.
  unfold round. cbv zeta.
  destruct (Z.eq_dec (Qfloor q1) (Qfloor q2)) as [E|E].
  - rewrite <- E.
    destruct (Qltb (q1 - inject_Z (Qfloor q1)) (1 # 2)) eqn:A1;
      destruct (Qltb (1 # 2) (q1 - inject_Z (Qfloor q1))) eqn:B1;
      destruct (Qltb (q2 - inject_Z (Qfloor q1)) (1 # 2)) eqn:A2;
      destruct (Qltb (1 # 2) (q2 - inject_Z (Qfloor q1))) eqn:B2;
      destruct (Z.even (Qfloor q1)) eqn:Ev;
      try lia;
      repeat match goal with
             | H : Qltb _ _ = true |- _ => apply Qltb_lt in H
             | H : Qltb _ _ = false |- _ => apply Qltb_ge in H
             end;
      exfalso; lra.
  - destruct (Qltb (q1 - inject_Z (Qfloor q1)) (1 # 2));
      destruct (Qltb (1 # 2) (q1 - inject_Z (Qfloor q1)));
      destruct (Qltb (q2 - inject_Z (Qfloor q2)) (1 # 2));
      destruct (Qltb (1 # 2) (q2 - inject_Z (Qfloor q2)));
      destruct (Z.even (Qfloor q1)); destruct (Z.even (Qfloor q2)); lia.
Qed.

Lemma round_integer (m : Z) : round (inject_Z m) = m.
Proof.
  unfold round. cbv zeta. rewrite Qfloor_Z.
  replace (Qltb (inject_Z m - inject_Z m) (1 # 2)) with true; [reflexivity|].
  symmetry. apply Qltb_lt. lra.
Qed.

Lemma pow2_pos (k : Z) : (0 < pow2 k)%Q.
Proof. apply Qpower_0_lt. reflexivity. Qed.

Lemma pow2_add (a b : Z) : (pow2 (a + b) == pow2 a * pow2 b)%Q.
Proof. apply Qpower_plus. discriminate. Qed.

Lemma pow2_le (a b : Z) : a <= b -> (pow2 a <= pow2 b)%Q.
Proof. intros H. apply Qpower_le_compat_l; [exact H | discriminate]. Qed.

Lemma pow2_integer (k : Z) : 0 <= k -> (pow2 k == inject_Z (2 ^ k))%Q.
Proof. intros H. symmetry. apply (Zpower_Qpower 2 k H). Qed.

(** [binary_exponent] is the exponent of the binade of a positive value. *)
Lemma binary_exponent_spec (x : Q) :
  (0 < x)%Q ->
  (pow2 (binary_exponent x) <= x)%Q /\ (x < pow2 (binary_exponent x + 1))%Q.
Proof.
  intros Hx. destruct x as [n d].
  assert (Hn : 0 < n) by (unfold Qlt in Hx; cbn in Hx; lia).
  unfold binary_exponent. cbn [Qnum Qden].
  set (a := Z.log2 n). set (b := Z.log2 (Zpos d)).
  destruct (Z.log2_spec n Hn) as [Ha1 Ha2]. fold a in Ha1, Ha2.
  destruct (Z.log2_spec (Zpos d) eq_refl) as [Hb1 Hb2]. fold b in Hb1, Hb2.
  assert (Ha0 : 0 <= a) by apply Z.log2_nonneg.
  assert (Hb0 : 0 <= b) by apply Z.log2_nonneg.
  assert (Pa : 0 < 2 ^ a) by (apply Z.pow_pos_nonneg; lia).
  assert (Pb : 0 < 2 ^ b) by (apply Z.pow_pos_nonneg; lia).
  rewrite Z.pow_succ_r in Ha2, Hb2 by assumption.
  (* pow2 (a - b - 1) < n # d < pow2 (a - b + 1) *)
  assert (Lo : (pow2 (a - b - 1) < n # d)%Q).
  { apply (Qmult_lt_r _ _ (pow2 (b + 1))); [apply pow2_pos|].
    rewrite <- pow2_add. replace (a - b - 1 + (b + 1)) with a by lia.
    rewrite (pow2_integer a), (pow2_integer (b + 1)) by lia.
    rewrite Z.pow_add_r by lia. 
    unfold Qlt, Qmult, inject_Z. cbn [Qnum Qden]. 
    rewrite Z.pow_1_r. nia. }
  assert (Hi : (n # d < pow2 (a - b + 1))%Q).
  { apply (Qmult_lt_r _ _ (pow2 b)); [apply pow2_pos|].
    rewrite <- pow2_add. replace (a - b + 1 + b) with (a + 1) by lia.
    rewrite (pow2_integer (a + 1)), (pow2_integer b) by lia.
    rewrite Z.pow_add_r by lia.
    unfold Qlt, Qmult, inject_Z. cbn [Qnum Qden].
    rewrite Z.pow_1_r. nia. }
  destruct (Qle_bool (pow2 (a - b)) (n # d)) eqn:E.
  - apply Qle_bool_iff in E. split; [exact E | exact Hi].
  - split; [now apply Qlt_le_weak|].
    replace (a - b - 1 + 1) with (a - b) by lia.
    apply Qnot_le_lt. intros Hle. apply Qle_bool_iff in Hle. congruence.
Qed.

Lemma binary_exponent_monotone (x y : Q) :
  (0 < x)%Q -> (x <= y)%Q -> binary_exponent x <= binary_exponent y.
Proof.
  intros Hx Hxy.
  destruct (binary_exponent_spec x Hx) as [Hx1 _].
  destruct (binary_exponent_spec y) as [_ Hy2]; [lra|].
  destruct (Z_lt_le_dec (binary_exponent y) (binary_exponent x)) as [Hlt|]; [|assumption].
  exfalso. pose proof (pow2_le (binary_exponent y + 1) (binary_exponent x)) as Hp.
  specialize (Hp ltac:(lia)). lra.
Qed.

Lemma round_at_monotone (e : Z) (x y : Q) :
  (x <= y)%Q -> (round_at e x <= round_at e y)%Q.
Proof.
  intros Hxy. unfold round_at.
  apply Qmult_le_compat_r; [|apply Qlt_le_weak, pow2_pos].
  rewrite <- Zle_Qle. apply round_monotone.
  unfold Qdiv. apply Qmult_le_compat_r; [exact Hxy|].
  apply Qlt_le_weak, Qinv_lt_0_compat, pow2_pos.
Qed.

(** A power of two at or above the scale is kept by the rounding. *)
Lemma round_at_power (e j : Z) :
  0 <= j -> (round_at e (pow2 (e + j)) == pow2 (e + j))%Q.
Proof.
  intros Hj. unfold round_at.
  assert (E : round (pow2 (e + j) / pow2 e) = 2 ^ j).
  { rewrite <- (round_integer (2 ^ j)).
    assert (Q1 : (pow2 (e + j) / pow2 e == inject_Z (2 ^ j))%Q).
    { rewrite <- pow2_integer by exact Hj. rewrite pow2_add.
      field. pose proof (pow2_pos e). lra. }
    apply Z.le_antisymm; apply round_monotone; rewrite Q1; apply Qle_refl. }
  rewrite E, <- pow2_integer by exact Hj. rewrite pow2_add. ring.
Qed.

Lemma nearest_double_monotone (x y : Q) :
  (0 < x)%Q -> (x <= y)%Q -> (nearest_double x <= nearest_double y)%Q.
Proof.
  intros Hx Hxy. assert (Hy : (0 < y)%Q) by lra.
  pose proof (binary_exponent_monotone x y Hx Hxy) as HE.
  destruct (binary_exponent_spec x Hx) as [_ Hx2].
  destruct (binary_exponent_spec y Hy) as [Hy1 _].
  unfold nearest_double.
  set (Ex := binary_exponent x) in *. set (Ey := binary_exponent y) in *.
  set (ex := Z.max (Ex - 52) (-1074)). set (ey := Z.max (Ey - 52) (-1074)).
  destruct (Z.eq_dec ex ey) as [E|E].
  - rewrite E. now apply round_at_monotone.
  - assert (Hlt : ex < ey) by lia.
    assert (Hey : ey = Ey - 52) by lia.
    apply Qle_trans with (pow2 Ey).
    + replace Ey with (ex + (Ey - ex)) by lia.
      rewrite <- (round_at_power ex (Ey - ex)) by lia.
      apply round_at_monotone.
      replace (ex + (Ey - ex)) with Ey by lia.
      pose proof (pow2_le (Ex + 1) Ey ltac:(lia)). lra.
    + replace Ey with (ey + 52) at 1 by lia.
      rewrite <- (round_at_power ey 52) by lia.
      apply round_at_monotone.
      replace (ey + 52) with Ey by lia. exact Hy1.
Qed.

Lemma round_at_nonneg (e : Z) (x : Q) : (0 <= x)%Q -> (0 <= round_at e x)%Q.
Proof.
  intros Hx. apply Qle_trans with (round_at e 0); [|now apply round_at_monotone].
  unfold round_at. apply Qmult_le_0_compat; [|apply Qlt_le_weak, pow2_pos].
  replace 0%Q with (inject_Z 0) by reflexivity. rewrite <- Zle_Qle.
  rewrite <- (round_integer 0) at 1. apply round_monotone.
  unfold Qdiv. rewrite Qmult_0_l. apply Qle_refl.
Qed.

Lemma Qnum_sign (x : Q) :
  match Qnum x with
  | Z0 => (x == 0)%Q
  | Zpos _ => (0 < x)%Q
  | Zneg _ => (x < 0)%Q
  end.
Proof.
  destruct x as [[|n|n] d]; unfold Qeq, Qlt; cbn; [reflexivity | lia | lia].
Qed.

(** Rounding to the nearest double keeps the order. *)
Lemma to_double_monotone (x y : Q) :
  (x <= y)%Q -> (to_double x <= to_double y)%Q.
Proof.
  intros Hxy. unfold to_double. cbv zeta.
  pose proof (Qred_correct x) as Rx. pose proof (Qred_correct y) as Ry.
  pose proof (Qnum_sign (Qred x)) as Sx. pose proof (Qnum_sign (Qred y)) as Sy.
  destruct (Qnum (Qred x)) eqn:Ex; destruct (Qnum (Qred y)) eqn:Ey;
    try (exfalso; lra).
  - apply Qle_refl.
  - apply round_at_nonneg. lra.
  - now apply nearest_double_monotone; [|lra].
  - pose proof (round_at_nonneg
                  (Z.max (binary_exponent (- Qred x) - 52) (-1074)) (- Qred x)) as H.
    unfold nearest_double. lra.
  - pose proof (round_at_nonneg
                  (Z.max (binary_exponent (- Qred x) - 52) (-1074)) (- Qred x)) as H.
    pose proof (round_at_nonneg
                  (Z.max (binary_exponent (Qred y) - 52) (-1074)) (Qred y)) as H'.
    unfold nearest_double. lra.
  - pose proof (nearest_double_monotone (- Qred y) (- Qred x)) as H. lra.
Qed.

Lemma to_double_equal (x y : Q) : (x == y)%Q -> to_double x = to_double y.
Proof.
  intros E. unfold to_double. now rewrite (Qred_complete x y E).
Qed.

(** The float difference of equal coordinates is zero, the difference
    grows with the minuend, and equal operands give the same float. *)
Lemma fsub_equal (a b : Q) : (a == b)%Q -> fsub a b = 0%Q.
Proof.
  intros E. unfold fsub. rewrite (to_double_equal (a - b) 0); [reflexivity | lra].
Qed.

Lemma fsub_operands (a a' b b' : Q) :
  (a == a')%Q -> (b == b')%Q -> fsub a b = fsub a' b'.
Proof.
  intros Ea Eb. unfold fsub. apply to_double_equal. lra.
Qed.

Lemma fsub_monotone (a a' b : Q) : (a <= a')%Q -> (fsub a b <= fsub a' b)%Q.
Proof.
  intros H. unfold fsub. apply to_double_monotone. lra.
Qed.

Lemma fsub_nonneg (a b : Q) : (b <= a)%Q -> (0 <= fsub a b)%Q.
Proof.
  intros H. rewrite <- (fsub_equal b b) by reflexivity. now apply fsub_monotone.
Qed.

End FloatProofs.

(* ================================================================== *)
(** * The row and cell grouper *)
(* ================================================================== *)

Module GroupingProofs.
Import Py ParsingUtils Spec FloatProofs.

(** ** The grouping loop, run by run *)
Section Runs.
Variable key : Word -> Q.
Variable threshold : Q.

Let step := group_step key threshold.
Let near := within key threshold.

Lemma fold_groups_prefix (ws : list Word) (gs : list (list Word))
    (cur : list Word) (ref : Q) :
  group_finish (fold_left step ws (mkGroupState gs cur (Some ref)))
    = gs ++ group_finish (fold_left step ws (mkGroupState [] cur (Some ref))).
Proof.
  revert gs cur ref. induction ws as [|w ws IH]; intros gs cur ref.
  - unfold group_finish. cbn. destruct cur; [now rewrite app_nil_r | reflexivity].
  - cbn [fold_left]. unfold step at 2 4, group_step. cbn [current_ref groups current].
    destruct (within key threshold ref w).
    + apply IH.
    + rewrite IH. rewrite (IH ([] ++ [cur])). now rewrite <- app_assoc.
Qed.

Lemma group_sorted_cons (w : Word) (ws : list Word) :
  group_sorted key threshold (w :: ws)
    = group_finish (fold_left step ws (mkGroupState [] [w] (Some (key w)))).
Proof. reflexivity. Qed.

Lemma fold_groups_run (ws : list Word) (cur : list Word) (ref : Q) :
  cur <> [] ->
  group_finish (fold_left step ws (mkGroupState [] cur (Some ref)))
    = (cur ++ take_while (near ref) ws)
        :: group_sorted key threshold (drop_while (near ref) ws).
Proof.
  revert cur. induction ws as [|w ws IH]; intros cur Hne.
  - cbn. rewrite app_nil_r. unfold group_finish. cbn.
    destruct cur; [congruence | reflexivity].
  - cbn [fold_left take_while drop_while].
    unfold step at 2, group_step. cbn [current_ref groups current].
    unfold near. destruct (within key threshold ref w).
    + rewrite IH by (now destruct cur).
      now rewrite <- app_assoc.
    + rewrite fold_groups_prefix, app_nil_r, group_sorted_cons. reflexivity.
Qed.

(** A run is the first word and the words that follow it within the
    threshold of its key; the loop starts afresh on what is left. *)
Lemma group_sorted_run (w : Word) (ws : list Word) :
  group_sorted key threshold (w :: ws)
    = (w :: take_while (near (key w)) ws)
        :: group_sorted key threshold (drop_while (near (key w)) ws).
Proof.
  rewrite group_sorted_cons. now rewrite fold_groups_run by discriminate.
Qed.
End Runs.

(** ** Prefixes of sorted lists are filters *)
Section Filters.
Context {A : Type}.

Lemma filter_perm (p : A -> bool) (l1 l2 : list A) :
  Permutation l1 l2 -> Permutation (filter p l1) (filter p l2).
Proof.
  induction 1 as [|a l1 l2 _ IH|a b l|l1 l2 l3 _ IH1 _ IH2]; cbn [filter].
  - constructor.
  - destruct (p a); [now constructor | exact IH].
  - destruct (p a), (p b); try reflexivity. apply perm_swap.
  - now transitivity (filter p l2).
Qed.

Lemma filter_sorted (R : A -> A -> Prop) (p : A -> bool) (l : list A) :
  StronglySorted R l -> StronglySorted R (filter p l).
Proof.
  induction 1 as [|a l _ IH Ha]; cbn [filter]; [constructor|].
  destruct (p a); [|exact IH].
  constructor; [exact IH|].
  apply Forall_forall. intros b Hb. apply filter_In in Hb as [Hb _].
  rewrite Forall_forall in Ha. now apply Ha.
Qed.

Lemma filter_none (p : A -> bool) (l : list A) :
  (forall a, In a l -> p a = false) -> filter p l = [].
Proof.
  induction l as [|a l IH]; intros H; [reflexivity|].
  cbn [filter]. rewrite (H a) by now left.
  apply IH. intros b Hb. apply H. now right.
Qed.

Lemma filter_all (p : A -> bool) (l : list A) :
  (forall a, In a l -> p a = true) -> filter p l = l.
Proof.
  induction l as [|a l IH]; intros H; [reflexivity|].
  cbn [filter]. rewrite (H a) by now left.
  f_equal. apply IH. intros b Hb. apply H. now right.
Qed.

(** When [p] can only fail from some point of the list on, the prefix
    that satisfies [p] is the filter by [p]. *)
Lemma take_drop_filter (R : A -> A -> Prop) (p : A -> bool) (l : list A) :
  StronglySorted R l ->
  (forall a b, In a l -> In b l -> R a b -> p b = true -> p a = true) ->
  take_while p l = filter p l
  /\ drop_while p l = filter (fun a => negb (p a)) l.
Proof.
  induction 1 as [|a l Hs IH Ha]; intros Hp; [split; reflexivity|].
  cbn [take_while drop_while filter]. destruct (p a) eqn:E; cbn [negb].
  - destruct IH as [IH1 IH2].
    { intros x y Hx Hy. apply Hp; now right. }
    now rewrite IH1, IH2.
  - assert (Hall : forall b, In b l -> p b = false).
    { intros b Hb. destruct (p b) eqn:Eb; [|reflexivity].
      rewrite Forall_forall in Ha.
      rewrite (Hp a b (or_introl eq_refl) (or_intror Hb) (Ha b Hb) Eb) in E.
      discriminate. }
    split.
    + symmetry. now apply filter_none.
    + f_equal. symmetry. apply filter_all.
      intros b Hb. now rewrite Hall.
Qed.
End Filters.

(** ** Runs of a list sorted by the key *)
Section SortedRuns.
Variable key : Word -> Q.
Variable threshold : Q.
Hypothesis threshold_nonneg : (0 <= threshold)%Q.

Let near := within key threshold.

Lemma near_self (a b : Word) : (key a == key b)%Q -> near (key a) b = true.
Proof.
  intros E. unfold near, within. apply Qle_bool_iff.
  rewrite (fsub_equal (key b) (key a)) by now symmetry.
  apply Qabs_Qle_condition. split; lra.
Qed.

Lemma near_ref (r1 r2 : Q) (w : Word) : (r1 == r2)%Q -> near r1 w = near r2 w.
Proof.
  intros E. unfold near, within.
  now rewrite (fsub_operands (key w) (key w) r1 r2 (Qeq_refl _) E).
Qed.

Lemma near_downward (ref : Q) (a b : Word) :
  (ref <= key a)%Q -> (key a <= key b)%Q ->
  near ref b = true -> near ref a = true.
Proof.
  unfold near, within. rewrite !Qle_bool_iff, !Qabs_Qle_condition.
  intros H1 H2 [H3 H4].
  pose proof (fsub_nonneg (key a) ref H1).
  pose proof (fsub_monotone (key a) (key b) ref H2).
  split; lra.
Qed.

Lemma sorted_run_filter (w : Word) (ws : list Word) :
  StronglySorted (key_le key) (w :: ws) ->
  w :: take_while (near (key w)) ws = filter (near (key w)) (w :: ws)
  /\ drop_while (near (key w)) ws
       = filter (fun a => negb (near (key w) a)) (w :: ws).
Proof.
  intros Hs. apply StronglySorted_inv in Hs as [Hs Hw].
  rewrite Forall_forall in Hw.
  destruct (take_drop_filter (key_le key) (near (key w)) ws Hs) as [E1 E2].
  { intros a b Ha Hb Hab. apply near_downward; [now apply Hw | exact Hab]. }
  cbn [filter]. rewrite (near_self w w) by reflexivity. cbn [negb].
  now rewrite E1, E2.
Qed.

Lemma sorted_heads_tie (w1 w2 : Word) (ws1 ws2 : list Word) :
  StronglySorted (key_le key) (w1 :: ws1) ->
  StronglySorted (key_le key) (w2 :: ws2) ->
  Permutation (w1 :: ws1) (w2 :: ws2) ->
  (key w1 == key w2)%Q.
Proof.
  intros H1 H2 Hp.
  apply StronglySorted_inv in H1 as [_ H1], H2 as [_ H2].
  rewrite Forall_forall in H1, H2. unfold key_le in *.
  assert (Hw1 : In w1 (w2 :: ws2)) by (eapply Permutation_in; [exact Hp | now left]).
  assert (Hw2 : In w2 (w1 :: ws1)).
  { eapply Permutation_in; [symmetry; exact Hp | now left]. }
  apply Qle_antisym.
  - destruct Hw2 as [->|Hw2]; [apply Qle_refl | now apply H1].
  - destruct Hw1 as [->|Hw1]; [apply Qle_refl | now apply H2].
Qed.

(** Two sorted arrangements of the same words are cut at the same
    places: run by run they hold the same words. *)
Lemma group_sorted_perm (n : nat) (l1 l2 : list Word) :
  (List.length l1 <= n)%nat ->
  StronglySorted (key_le key) l1 ->
  StronglySorted (key_le key) l2 ->
  Permutation l1 l2 ->
  Forall2 (@Permutation Word)
          (group_sorted key threshold l1) (group_sorted key threshold l2).
Proof.
  revert l1 l2. induction n as [|n IH]; intros l1 l2 Hlen Hs1 Hs2 Hp.
  - destruct l1; [|cbn in Hlen; lia].
    apply Permutation_nil in Hp. subst. constructor.
  - destruct l1 as [|w1 ws1].
    { apply Permutation_nil in Hp. subst. constructor. }
    destruct l2 as [|w2 ws2].
    { symmetry in Hp. apply Permutation_nil in Hp. discriminate. }
    pose proof (sorted_heads_tie w1 w2 ws1 ws2 Hs1 Hs2 Hp) as Etie.
    rewrite !group_sorted_run.
    destruct (sorted_run_filter w1 ws1 Hs1) as [E1 D1].
    destruct (sorted_run_filter w2 ws2 Hs2) as [E2 D2].
    fold near. rewrite E1, E2, D1, D2.
    rewrite (filter_ext (near (key w2)) (near (key w1)))
      by (intros a; apply near_ref; now symmetry).
    rewrite (filter_ext (fun a => negb (near (key w2) a))
                        (fun a => negb (near (key w1) a)))
      by (intros a; f_equal; apply near_ref; now symmetry).
    constructor.
    + now apply filter_perm.
    + apply IH.
      * rewrite <- D1.
        assert (Hd : forall (p : Word -> bool) l,
                   (List.length (drop_while p l) <= List.length l)%nat).
        { intros p l. induction l as [|a l IHl]; [reflexivity|].
          cbn [drop_while]. destruct (p a); cbn [List.length] in *; lia. }
        specialize (Hd (near (key w1)) ws1). cbn [List.length] in Hlen. lia.
      * now apply filter_sorted.
      * now apply filter_sorted.
      * now apply filter_perm.
Qed.

(** Every run of a sorted list is sorted and made of words of the list. *)
Lemma group_sorted_runs (n : nat) (l : list Word) :
  (List.length l <= n)%nat ->
  StronglySorted (key_le key) l ->
  Forall (fun g => StronglySorted (key_le key) g /\ incl g l)
         (group_sorted key threshold l).
Proof.
  revert l. induction n as [|n IH]; intros l Hlen Hs.
  - destruct l; [constructor | cbn in Hlen; lia].
  - destruct l as [|w ws]; [constructor|].
    rewrite group_sorted_run.
    destruct (sorted_run_filter w ws Hs) as [E D].
    fold near. rewrite E, D. constructor.
    + split; [now apply filter_sorted | apply incl_filter].
    + eapply Forall_impl; [|apply IH].
      * cbn beta. intros g [Hg Hi]. split; [exact Hg|].
        eapply incl_tran; [exact Hi | apply incl_filter].
      * rewrite <- D.
        assert (Hd : forall (p : Word -> bool) l,
                   (List.length (drop_while p l) <= List.length l)%nat).
        { intros p l. induction l as [|a l IHl]; [reflexivity|].
          cbn [drop_while]. destruct (p a); cbn [List.length] in *; lia. }
        specialize (Hd (near (key w)) ws). cbn [List.length] in Hlen. lia.
      * now apply filter_sorted.
Qed.
End SortedRuns.

(** ** A stable sort refines the order it finds *)
Section Stability.
Variables key key2 : Word -> Q.

Lemma lex_key_le (a b : Word) : lex_le key key2 a b -> (key a <= key b)%Q.
Proof. intros [H|[H _]]; lra. Qed.

Lemma lex_from_le (a b : Word) :
  (key a <= key b)%Q -> (key2 a <= key2 b)%Q -> lex_le key key2 a b.
Proof.
  intros H1 H2. destruct (Qlt_le_dec (key a) (key b)) as [Hlt|Hge].
  - now left.
  - right. split; [now apply Qle_antisym | exact H2].
Qed.

Lemma insert_lex (x : Word) (s : list Word) :
  StronglySorted (lex_le key key2) s ->
  Forall (key_le key2 x) s ->
  StronglySorted (lex_le key key2) (insert (by_key key) x s).
Proof.
  induction 1 as [|y s Hs IH Hy]; intros Hx; cbn [insert].
  - repeat constructor.
  - apply Forall_cons_iff in Hx as [Hxy Hxs].
    unfold by_key at 1. destruct (Qltb (key y) (key x)) eqn:E.
    + apply Qltb_lt in E. constructor; [now apply IH|].
      eapply Permutation_Forall.
      * symmetry. apply (SortProofs.insert_perm (by_key key)).
      * constructor; [now left | exact Hy].
    + apply Qltb_ge in E. constructor; [now constructor|].
      constructor; [now apply lex_from_le|].
      rewrite Forall_forall in Hy, Hxs |- *. intros z Hz.
      apply lex_from_le; [|now apply Hxs].
      apply Qle_trans with (key y); [exact E|].
      apply lex_key_le. now apply Hy.
Qed.

(** Sorting by [key] a list sorted by [key2] sorts it by both. *)
Lemma sorted_lex (l : list Word) :
  StronglySorted (key_le key2) l ->
  StronglySorted (lex_le key key2) (sorted (by_key key) l).
Proof.
  induction 1 as [|x l _ IH Hx]; cbn [sorted]; [constructor|].
  apply insert_lex; [exact IH|].
  eapply Permutation_Forall; [|exact Hx].
  symmetry. apply SortProofs.sorted_perm.
Qed.
End Stability.

(** Two sorted arrangements of the same elements are the same list when
    the order cannot tie on two different elements. *)
Lemma sorted_unique {A : Type} (R : A -> A -> Prop) (l1 l2 : list A) :
  StronglySorted R l1 -> StronglySorted R l2 -> Permutation l1 l2 ->
  (forall a b, In a l1 -> In b l1 -> R a b -> R b a -> a = b) ->
  l1 = l2.
Proof.
  intros H1. revert l2. induction H1 as [|a t1 Hs1 IH Ha]; intros l2 H2 Hp Hanti.
  - apply Permutation_nil in Hp. now subst.
  - destruct l2 as [|b t2].
    { symmetry in Hp. apply Permutation_nil in Hp. discriminate. }
    apply StronglySorted_inv in H2 as [Hs2 Hb].
    rewrite Forall_forall in Ha, Hb.
    assert (Eab : a = b).
    { assert (Hina : In a (b :: t2)) by (eapply Permutation_in; [exact Hp | now left]).
      assert (Hinb : In b (a :: t1)).
      { eapply Permutation_in; [symmetry; exact Hp | now left]. }
      destruct Hina as [E|Hina]; [now symmetry|].
      destruct Hinb as [E|Hinb]; [now symmetry|].
      apply Hanti; [now left | now right | now apply Ha | now apply Hb]. }
    subst b. f_equal. apply IH; [exact Hs2 | now apply Permutation_cons_inv in Hp |].
    intros x y Hx Hy. apply Hanti; now right.
Qed.

Lemma sorted_by_top (l : list Word) :
  StronglySorted (key_le top) (sorted (by_key top) l).
Proof.
  apply SortProofs.sorted_sorted; unfold by_key, key_le.
  - intros a b H. apply Qltb_lt in H. now apply Qlt_le_weak.
  - intros a b H. now apply Qltb_ge in H.
  - intros a b c. apply Qle_trans.
Qed.

Lemma map_related {A B : Type} (P : A -> A -> Prop) (Q1 Q2 : A -> Prop)
    (f : A -> B) (l1 l2 : list A) :
  (forall a b, P a b -> Q1 a -> Q2 b -> f a = f b) ->
  Forall2 P l1 l2 -> Forall Q1 l1 -> Forall Q2 l2 -> map f l1 = map f l2.
Proof.
  intros Hf. induction 1 as [|a b l1 l2 Hab _ IH]; intros H1 H2; [reflexivity|].
  apply Forall_cons_iff in H1 as [Ha H1], H2 as [Hb H2].
  cbn [map]. f_equal; [now apply Hf | now apply IH].
Qed.

(** The words of a line, sorted by [x0], do not depend on the order the
    line holds them in, as long as it is sorted by [top]. *)
Lemma line_sorted_by_x0 (words g1 g2 : list Word) :
  ties_are_equal words -> incl g1 words ->
  StronglySorted (key_le top) g1 -> StronglySorted (key_le top) g2 ->
  Permutation g1 g2 ->
  sorted (by_key x0) g1 = sorted (by_key x0) g2.
Proof.
  intros Hties Hincl Hs1 Hs2 Hp.
  apply (sorted_unique (lex_le x0 top)).
  - now apply sorted_lex.
  - now apply sorted_lex.
  - rewrite !(SortProofs.sorted_perm (by_key x0)). exact Hp.
  - intros a b Ha Hb Hab Hba.
    assert (Hin : forall w, In w (sorted (by_key x0) g1) -> In w words).
    { intros w Hw. apply Hincl.
      eapply Permutation_in; [apply SortProofs.sorted_perm | exact Hw]. }
    apply Hties; [now apply Hin | now apply Hin | |].
    + destruct Hab as [Hab|[Eab Hab]], Hba as [Hba|[Eba Hba]]; lra.
    + destruct Hab as [Hab|[Eab Hab]], Hba as [Hba|[Eba Hba]]; lra.
Qed.

(** The claim as stated fails: two words that share [top] and [x0] are
    joined in the order the input lists them. *)
Lemma grouping_depends_on_input_order :
  let a := Examples.word "Total" 10 40 20 30 in
  let b := Examples.word "Sum" 10 30 20 30 in
  Permutation [a; b] [b; a]
  /\ option_map fst (extract_rows_from_page [a; b] 5 10)
       = Some [[mkCell (lit "Total Sum") 10 40 20 30]]
  /\ option_map fst (extract_rows_from_page [b; a] 5 10)
       = Some [[mkCell (lit "Sum Total") 10 40 20 30]]
  /\ extract_rows_from_page [a; b] 5 10 <> extract_rows_from_page [b; a] 5 10.
Proof.
  cbv zeta. split; [apply perm_swap|].
  split; [vm_compute; reflexivity|].
  split; [vm_compute; reflexivity|].
  vm_compute. discriminate.
Qed.

(** C9, amended. For a non-negative vertical threshold, two lists of
    words that are permutations of each other, and in which words that
    share both [top] and [x0] are the same word, give the same rows, the
    same cells and the same cell tuples. *)
Theorem grouping_independent_of_input_order
    (words1 words2 : list Word) (vertical_threshold horizontal_threshold : Q) :
  (0 <= vertical_threshold)%Q ->
  Permutation words1 words2 ->
  ties_are_equal words1 ->
  extract_rows_from_page words1 vertical_threshold horizontal_threshold
    = extract_rows_from_page words2 vertical_threshold horizontal_threshold.
Proof.
  intros Hv Hp Hties. unfold extract_rows_from_page.
  assert (E : map (fun line => group_line_words_into_cells line horizontal_threshold)
                  (group_words_into_lines words1 vertical_threshold)
              = map (fun line => group_line_words_into_cells line horizontal_threshold)
                    (group_words_into_lines words2 vertical_threshold)).
  { unfold group_words_into_lines.
    set (s1 := sorted (by_key top) words1). set (s2 := sorted (by_key top) words2).
    assert (Hs1 : StronglySorted (key_le top) s1) by apply sorted_by_top.
    assert (Hs2 : StronglySorted (key_le top) s2) by apply sorted_by_top.
    assert (Hp12 : Permutation s1 s2).
    { unfold s1, s2. rewrite !(SortProofs.sorted_perm (by_key top)). exact Hp. }
    apply (map_related (@Permutation Word)
             (fun g => StronglySorted (key_le top) g /\ incl g s1)
             (fun g => StronglySorted (key_le top) g /\ incl g s2)).
    - intros g1 g2 Hg [Hg1 Hi1] [Hg2 _]. unfold group_line_words_into_cells.
      rewrite (line_sorted_by_x0 words1 g1 g2); try assumption; [reflexivity|].
      intros w Hw. apply Hi1 in Hw.
      eapply Permutation_in; [apply (SortProofs.sorted_perm (by_key top)) | exact Hw].
    - now apply (group_sorted_perm top vertical_threshold Hv (List.length s1)).
    - now apply (group_sorted_runs top vertical_threshold Hv (List.length s1)).
    - now apply (group_sorted_runs top vertical_threshold Hv (List.length s2)). }
  cbv zeta. rewrite E. reflexivity.
Qed.

Lemma name_age_ties : ties_are_equal Examples.name_age_page.
Proof.
  intros a b Ha Hb Ht Hx. cbn in Ha, Hb.
  repeat match goal with
         | H : _ \/ _ |- _ => destruct H as [H|H]
         | H : False |- _ => destruct H
         end; subst; try reflexivity;
    vm_compute in Ht; vm_compute in Hx; discriminate.
Defined.

Lemma grouping_independent_of_input_order_witness :
  extract_rows_from_page Examples.name_age_page 5 10
    = extract_rows_from_page (rev Examples.name_age_page) 5 10.
Proof.
  apply (grouping_independent_of_input_order Examples.name_age_page
           (rev Examples.name_age_page) 5 10).
  - discriminate.
  - apply Permutation_rev.
  - exact name_age_ties.
Defined.

End GroupingProofs.

(* ================================================================== *)
(** * The page stitcher *)
(* ================================================================== *)

Module StitcherProofs.
Import Py Textual Spec.

(** ** The indices of one page start at zero *)

Lemma index_of_found (z : Z) (l : list Z) :
  In z l -> exists i, index_of z l = Some i /\ 0 <= i.
Proof.
  induction l as [|y l IH]; intros Hin; [contradiction|].
  cbn [index_of]. destruct (Z.eqb_spec z y) as [E|E].
  - exists 0. split; [reflexivity | lia].
  - destruct Hin as [Hin|Hin]; [congruence|].
    destruct (IH Hin) as (i & -> & Hi). exists (i + 1). split; [reflexivity | lia].
Qed.

Lemma unique_from_keeps (seen l : list Z) (z : Z) :
  In z l -> In z seen \/ In z (unique_from Z.eqb seen l).
Proof.
  revert seen. induction l as [|y l IH]; intros seen Hin; [contradiction|].
  cbn [unique_from]. destruct (existsb (Z.eqb y) seen) eqn:E.
  - destruct Hin as [->|Hin]; [|now apply IH].
    apply existsb_exists in E as (x & Hx & Exy).
    apply Z.eqb_eq in Exy. subst. now left.
  - destruct Hin as [->|Hin]; [right; now left|].
    destruct (IH (y :: seen) Hin) as [[->|H]|H].
    + right. now left.
    + now left.
    + right. now right.
Qed.

Lemma bin_index_found (col : list Z) (b : Z) :
  In b col ->
  exists i, bin_index (sorted Z.ltb (unique Z.eqb col)) b = Idx i /\ 0 <= i.
Proof.
  intros Hin. unfold bin_index.
  destruct (index_of_found b (sorted Z.ltb (unique Z.eqb col))) as (i & -> & Hi).
  - eapply Permutation_in; [symmetry; apply SortProofs.sorted_perm|].
    destruct (unique_from_keeps [] col b Hin) as [[]|H]. exact H.
  - now exists i.
Qed.

Lemma page_indices_from_zero (word_rows : list (list ParsingUtils.Cell)) :
  Forall (fun r => exists i, y_index r = Idx i /\ 0 <= i)
         (get_binned_coords_dataframe word_rows).
Proof.
  unfold get_binned_coords_dataframe. cbv zeta.
  apply Forall_forall. intros r Hr.
  apply in_map_iff in Hr as ([[cr yb] xb] & <- & Hb). cbn [y_index].
  apply bin_index_found.
  apply in_map_iff. now exists (cr, yb, xb).
Qed.

(** ** The maximum of a column of numbers *)

Lemma max_fold_numbers (lo : Z) (col : list index) (b : Z) :
  Forall (fun v => exists i, v = Idx i /\ lo <= i) col ->
  exists m, fold_left max_step col (Idx b) = Idx m /\ b <= m
            /\ Forall (fun v => exists i, v = Idx i /\ lo <= i <= m) col.
Proof.
  intros H. revert b. induction H as [|v col (i & -> & Hi) _ IH]; intros b.
  - exists b. repeat split; [lia | constructor].
  - cbn [fold_left max_step]. destruct (Z.ltb_spec b i) as [Hlt|Hge].
    + destruct (IH i) as (m & -> & Hm & Hall). exists m.
      repeat split; [lia|]. constructor; [exists i; split; [reflexivity | lia] | exact Hall].
    + destruct (IH b) as (m & -> & Hm & Hall). exists m.
      repeat split; [lia|]. constructor; [exists i; split; [reflexivity | lia] | exact Hall].
Qed.

Lemma series_max_numbers (lo : Z) (col : list index) :
  col <> [] ->
  Forall (fun v => exists i, v = Idx i /\ lo <= i) col ->
  exists m, series_max col = Idx m /\ lo <= m
            /\ Forall (fun v => exists i, v = Idx i /\ lo <= i <= m) col.
Proof.
  intros Hne H. destruct H as [|v col (i & -> & Hi) H]; [congruence|].
  unfold series_max. cbn [fold_left].
  destruct (max_fold_numbers lo col i H) as (m & E & Hm & Hall).
  exists m. split; [exact E|]. split; [lia|].
  constructor; [exists i; split; [reflexivity | lia] | exact Hall].
Qed.

(** ** The invariant of the page loop *)

Lemma sorted_snoc {A : Type} (R : A -> A -> Prop) (l : list A) (a : A) :
  StronglySorted R l -> Forall (fun b => R b a) l -> StronglySorted R (l ++ [a]).
Proof.
  induction 1 as [|b l _ IH Hb]; intros Ha; cbn [app].
  - repeat constructor.
  - apply Forall_cons_iff in Ha as [Hba Ha].
    constructor; [now apply IH|].
    apply Forall_app. split; [exact Hb | now constructor].
Qed.

Lemma parse_page_offsets (st : ParseState) (page : option (list ParsingUtils.Word)) :
  offsets_ok st ->
  Forall (fun df => df <> []) (all_dfs (parse_page st page)) ->
  offsets_ok (parse_page st page).
Proof.
  intros Hst. unfold parse_page. destruct page as [words|]; [|intros _; exact Hst].
  destruct (ParsingUtils.extract_rows_from_page words 5 10) as [[word_rows raw]|];
    [|intros _; exact Hst].
  cbv zeta. cbn [all_dfs]. intros Hne.
  apply Forall_app in Hne as [_ Hne]. apply Forall_inv in Hne.
  destruct Hst as (o & Eo & Ho & Hbelow & Hsorted). rewrite Eo in *.
  set (df := add_offset (Idx o) (get_binned_coords_dataframe word_rows)) in *.
  assert (Hdf : Forall (fun v => exists i, v = Idx i /\ o <= i) (map y_index df)).
  { unfold df, add_offset. rewrite map_map. cbn [y_index].
    apply Forall_map.
    eapply Forall_impl; [|apply (page_indices_from_zero word_rows)].
    cbn beta. intros r (i & -> & Hi). exists (i + o). split; [reflexivity | lia]. }
  destruct (series_max_numbers o (map y_index df)) as (m & Em & Hm & Hall);
    [now destruct df | exact Hdf |].
  exists (m + 1). cbn [y_offset all_dfs]. rewrite Em.
  split; [reflexivity|]. split; [lia|]. split.
  - apply Forall_app. split.
    + eapply Forall_impl; [|exact Hbelow]. intros d Hd.
      eapply Forall_impl; [|exact Hd]. intros r (i & E & Hi).
      exists i. split; [exact E | lia].
    + constructor; [|constructor].
      apply (proj1 (Forall_map y_index _ df)) in Hall.
      eapply Forall_impl; [|exact Hall]. cbn beta. intros r (i & E & Hi).
      exists i. split; [exact E | lia].
  - apply sorted_snoc; [exact Hsorted|].
    rewrite Forall_forall in Hbelow |- *. intros d Hd r1 r2 Hr1 Hr2.
    specialize (Hbelow d Hd). rewrite Forall_forall in Hbelow.
    destruct (Hbelow r1 Hr1) as (i1 & -> & Hi1).
    apply (proj1 (Forall_map y_index _ df)) in Hdf. rewrite Forall_forall in Hdf.
    destruct (Hdf r2 Hr2) as (i2 & -> & Hi2).
    cbn [index_ltb]. apply Z.ltb_lt. lia.
Qed.

Lemma parse_page_grows (st : ParseState) (page : option (list ParsingUtils.Word)) :
  exists more, all_dfs (parse_page st page) = all_dfs st ++ more.
Proof.
  unfold parse_page. destruct page as [words|]; [|exists []; now rewrite app_nil_r].
  destruct (ParsingUtils.extract_rows_from_page words 5 10) as [[word_rows raw]|];
    [|exists []; now rewrite app_nil_r].
  cbv zeta. cbn [all_dfs]. eexists. reflexivity.
Qed.

Lemma parse_fold_grows (pages : list (option (list ParsingUtils.Word)))
    (st : ParseState) :
  exists more, all_dfs (fold_left parse_page pages st) = all_dfs st ++ more.
Proof.
  revert st. induction pages as [|page pages IH]; intros st.
  - exists []. now rewrite app_nil_r.
  - cbn [fold_left]. destruct (IH (parse_page st page)) as (more2 & ->).
    destruct (parse_page_grows st page) as (more1 & ->).
    exists (more1 ++ more2). now rewrite app_assoc.
Qed.

Lemma parse_fold_offsets (pages : list (option (list ParsingUtils.Word)))
    (st : ParseState) :
  offsets_ok st ->
  Forall (fun df => df <> []) (all_dfs (fold_left parse_page pages st)) ->
  offsets_ok (fold_left parse_page pages st).
Proof.
  revert st. induction pages as [|page pages IH]; intros st Hst Hne; [exact Hst|].
  cbn [fold_left] in *. apply IH; [|exact Hne].
  apply parse_page_offsets; [exact Hst|].
  destruct (parse_fold_grows pages (parse_page st page)) as (more & E).
  rewrite E in Hne. now apply Forall_app in Hne.
Qed.

(** As long as every page that is processed holds at least one word, the
    offset is a number, one above the largest row index so far, and the
    row indices of a page are below those of every later page. *)
Lemma offsets_separate_pages (pages : list (option (list ParsingUtils.Word))) :
  Forall (fun df => df <> []) (all_dfs (parse_pages pages)) ->
  offsets_ok (parse_pages pages).
Proof.
  apply parse_fold_offsets.
  exists 0. cbn. repeat split; try lia; constructor.
Qed.

(** C3. A page without words is processed without an error and leaves the
    offset undefined: the rows of the page after it all get the index
    [NaN], which is not above the index [0] of the first page. *)
Theorem blank_page_breaks_row_offsets :
  let pages := [Some [Examples.word "Name" 0 10 0 10]; Some [];
                Some [Examples.word "Alice" 0 10 0 10]] in
  let st := parse_pages pages in
  map (map y_index) (all_dfs st) = [[Idx 0]; []; [NaN]]
  /\ List.length (pages_text st) = 3%nat
  /\ y_offset st = NaN
  /\ index_ltb (Idx 0) NaN = false.
Proof.
  cbv zeta. repeat split; vm_compute; reflexivity.
Qed.

End StitcherProofs.

(* ================================================================== *)
(** * Further properties of the row and cell grouper *)
(* ================================================================== *)

Module GrouperFacts.
Import Py ParsingUtils Spec Props.

Lemma take_drop_app {A : Type} (p : A -> bool) (l : list A) :
  take_while p l ++ drop_while p l = l.
Proof.
  induction l as [|a l IH]; [reflexivity|].
  cbn [take_while drop_while]. destruct (p a); [cbn; now rewrite IH | reflexivity].
Qed.

Lemma drop_while_length {A : Type} (p : A -> bool) (l : list A) :
  (List.length (drop_while p l) <= List.length l)%nat.
Proof.
  induction l as [|a l IH]; [reflexivity|].
  cbn [drop_while]. destruct (p a); cbn [List.length] in *; lia.
Qed.

Lemma take_while_all {A : Type} (p : A -> bool) (l : list A) :
  Forall (fun a => p a = true) (take_while p l).
Proof.
  induction l as [|a l IH]; [constructor|].
  cbn [take_while]. destruct (p a) eqn:E; [now constructor | constructor].
Qed.

Lemma drop_while_head {A : Type} (p : A -> bool) (l l' : list A) (a : A) :
  drop_while p l = a :: l' -> p a = false.
Proof.
  induction l as [|b l IH]; [discriminate|].
  cbn [drop_while]. destruct (p b) eqn:E; [exact IH|].
  intros H. injection H as -> _. exact E.
Qed.

Section Runs.
Variable key : Word -> Q.
Variable threshold : Q.

Lemma group_sorted_partition (n : nat) (ws : list Word) :
  (List.length ws <= n)%nat ->
  List.concat (group_sorted key threshold ws) = ws
  /\ Forall (fun g => g <> []) (group_sorted key threshold ws).
Proof.
  revert ws. induction n as [|n IH]; intros ws Hlen.
  - destruct ws; [split; [reflexivity | constructor] | cbn in Hlen; lia].
  - destruct ws as [|w ws]; [split; [reflexivity | constructor]|].
    rewrite GroupingProofs.group_sorted_run.
    destruct (IH (drop_while (within key threshold (key w)) ws)) as [Hc Hn].
    { pose proof (drop_while_length (within key threshold (key w)) ws).
      cbn [List.length] in Hlen. lia. }
    split.
    + cbn [List.concat]. rewrite Hc. cbn [app]. now rewrite take_drop_app.
    + constructor; [discriminate | exact Hn].
Qed.

Lemma group_sorted_anchored (n : nat) (ws : list Word) :
  (List.length ws <= n)%nat ->
  Forall (anchored key threshold) (group_sorted key threshold ws)
  /\ runs_break key threshold (group_sorted key threshold ws).
Proof.
  revert ws. induction n as [|n IH]; intros ws Hlen.
  - destruct ws; [split; [constructor | exact I] | cbn in Hlen; lia].
  - destruct ws as [|w ws]; [split; [constructor | exact I]|].
    rewrite GroupingProofs.group_sorted_run.
    pose proof (drop_while_length (within key threshold (key w)) ws) as Hd.
    destruct (IH (drop_while (within key threshold (key w)) ws)) as [Ha Hb].
    { cbn [List.length] in Hlen. lia. }
    split.
    + constructor; [|exact Ha]. cbn [anchored].
      eapply Forall_impl; [|apply take_while_all].
      cbn beta. unfold within. intros u Hu. now apply Qle_bool_iff.
    + destruct (drop_while (within key threshold (key w)) ws) as [|w2 d] eqn:E.
      * exact I.
      * pose proof (drop_while_head _ _ _ _ E) as Hw2.
        rewrite GroupingProofs.group_sorted_run in Hb |- *.
        split; [|exact Hb].
        unfold within in Hw2. intros Hle. apply Qle_bool_iff in Hle. congruence.
Qed.
End Runs.

Lemma lines_concat_sorted (words : list Word) (vertical_threshold : Q) :
  List.concat (group_words_into_lines words vertical_threshold)
    = sorted (by_key top) words
  /\ Forall (fun line => line <> [])
            (group_words_into_lines words vertical_threshold).
Proof.
  unfold group_words_into_lines.
  exact (group_sorted_partition top vertical_threshold _ _ (le_n _)).
Qed.

(** X1. Grouping into lines loses no word and repeats none: the lines, one
    after the other, are the words sorted by [top], and no line is empty. *)
Theorem lines_partition_words (words : list Word) (vertical_threshold : Q) :
  List.concat (group_words_into_lines words vertical_threshold)
    = sorted (by_key top) words
  /\ Permutation (List.concat (group_words_into_lines words vertical_threshold)) words
  /\ Forall (fun line => line <> [])
            (group_words_into_lines words vertical_threshold).
Proof.
  destruct (lines_concat_sorted words vertical_threshold) as [Hc Hn].
  split; [exact Hc|]. split; [|exact Hn].
  rewrite Hc. apply SortProofs.sorted_perm.
Qed.

(** X2. Every line starts with a reference word and holds words whose [top]
    less that of the reference, as floats subtract, is within the
    threshold; the word that opens the next line is not within the
    threshold of that reference in the same sense. *)
Theorem lines_are_anchored_runs (words : list Word) (vertical_threshold : Q) :
  Forall (anchored top vertical_threshold)
         (group_words_into_lines words vertical_threshold)
  /\ runs_break top vertical_threshold
                (group_words_into_lines words vertical_threshold).
Proof.
  unfold group_words_into_lines.
  exact (group_sorted_anchored top vertical_threshold _ _ (le_n _)).
Qed.

(** The difference is the rounded one: the doubles nearest to 0.7 and 5.7
    are more than 5 apart, their float difference is 5, and the two words
    are one line. *)
Lemma float_tops_share_a_line :
  let a := Examples.float_word "a" (7 # 10) in
  let b := Examples.float_word "b" (57 # 10) in
  (5 < top b - top a)%Q
  /\ (fsub (top b) (top a) == 5)%Q
  /\ group_words_into_lines [b; a] 5 = [[a; b]].
Proof.
  cbv zeta. split; [|split].
  - vm_compute. reflexivity.
  - vm_compute. reflexivity.
  - vm_compute. reflexivity.
Qed.

(** The same two facts for the cells of a line, by [x0]. *)
Lemma cells_partition_line (line_words : list Word) (horizontal_threshold : Q) :
  List.concat (group_line_words_into_cells line_words horizontal_threshold)
    = sorted (by_key x0) line_words
  /\ Forall (fun cell => cell <> [])
            (group_line_words_into_cells line_words horizontal_threshold).
Proof.
  unfold group_line_words_into_cells.
  exact (group_sorted_partition x0 horizontal_threshold _ _ (le_n _)).
Qed.

Lemma sorted_nonempty {A : Type} (ltb : A -> A -> bool) (l : list A) :
  l <> [] -> sorted ltb l <> [].
Proof.
  intros Hne E. pose proof (SortProofs.sorted_perm ltb l) as Hp.
  rewrite E in Hp. apply Permutation_nil in Hp. congruence.
Qed.

Lemma cell_to_tuple_some (cell : list Word) :
  cell <> [] -> exists c, cell_to_tuple cell = Some c.
Proof.
  intros Hne. unfold cell_to_tuple. cbv zeta.
  pose proof (sorted_nonempty (by_key x0) cell Hne) as Hs.
  destruct (sorted (by_key x0) cell) as [|w ws]; [congruence|].
  eexists. reflexivity.
Qed.

Lemma all_some_Forall2 {A B : Type} (f : A -> option B) (l : list A) :
  Forall (fun a => exists b, f a = Some b) l ->
  exists r, all_some (map f l) = Some r /\ Forall2 (fun b a => f a = Some b) r l.
Proof.
  induction 1 as [|a l (b & Hb) _ (r & Hr & HF)].
  - exists []. split; [reflexivity | constructor].
  - exists (b :: r). cbn [map all_some]. rewrite Hb, Hr.
    split; [reflexivity | now constructor].
Qed.

Lemma all_some_inv {A B : Type} (f : A -> option B) (l : list A) (r : list B) :
  all_some (map f l) = Some r -> Forall2 (fun b a => f a = Some b) r l.
Proof.
  revert r. induction l as [|a l IH]; intros r; cbn [map all_some].
  - intros H. injection H as <-. constructor.
  - destruct (f a) as [b|] eqn:E; [|discriminate].
    destruct (all_some (map f l)) as [r'|]; [|discriminate].
    intros H. injection H as <-. constructor; [exact E | now apply IH].
Qed.

Lemma concat_cells_perm (lines : list (list Word)) (horizontal_threshold : Q) :
  Permutation
    (List.concat (List.concat (map (fun line => group_line_words_into_cells line horizontal_threshold)
                         lines)))
    (List.concat lines).
Proof.
  induction lines as [|line lines IH]; [reflexivity|].
  cbn [map List.concat]. rewrite concat_app.
  apply Permutation_app; [|exact IH].
  rewrite (proj1 (cells_partition_line line horizontal_threshold)).
  apply SortProofs.sorted_perm.
Qed.

Lemma extract_rows_shape
    (words : list Word) (vertical_threshold horizontal_threshold : Q) :
  exists table raw_cells,
    extract_rows_from_page words vertical_threshold horizontal_threshold
      = Some (table, raw_cells)
    /\ Forall2 (Forall2 (fun c cell => cell_to_tuple cell = Some c)) table raw_cells
    /\ Forall (Forall (fun cell => cell <> [])) raw_cells
    /\ Permutation (List.concat (List.concat raw_cells)) words.
Proof.
  unfold extract_rows_from_page. cbv zeta.
  set (lines := group_words_into_lines words vertical_threshold).
  set (raw := map (fun line => group_line_words_into_cells line horizontal_threshold) lines).
  assert (Hraw : Forall (Forall (fun cell => cell <> [])) raw).
  { unfold raw. apply Forall_map. apply Forall_forall. intros line _.
    apply cells_partition_line. }
  destruct (all_some_Forall2 (fun cells => all_some (map cell_to_tuple cells)) raw)
    as (table & Ht & HF).
  { eapply Forall_impl; [|exact Hraw]. cbn beta. intros cells Hcells.
    destruct (all_some_Forall2 cell_to_tuple cells) as (row & Hrow & _).
    - eapply Forall_impl; [|exact Hcells]. apply cell_to_tuple_some.
    - now exists row. }
  exists table, raw. rewrite Ht. split; [reflexivity|]. split; [|split].
  - eapply Forall2_impl; [|exact HF]. cbn beta. intros row cells Hrow.
    now apply all_some_inv.
  - exact Hraw.
  - unfold raw, lines. rewrite concat_cells_perm.
    rewrite (proj1 (lines_concat_sorted words vertical_threshold)).
    apply SortProofs.sorted_perm.
Qed.

(** X3. [extract_rows_from_page] never fails: it returns one row per line
    and one tuple per cell, no cell is empty, and the cells hold the words of
    the page, each once. *)
Theorem extract_rows_never_fails
    (words : list Word) (vertical_threshold horizontal_threshold : Q) :
  exists table raw_cells,
    extract_rows_from_page words vertical_threshold horizontal_threshold
      = Some (table, raw_cells)
    /\ Forall2 (Forall2 (fun c cell => cell_to_tuple cell = Some c)) table raw_cells
    /\ Forall (Forall (fun cell => cell <> [])) raw_cells
    /\ Permutation (List.concat (List.concat raw_cells)) words.
Proof.
  apply extract_rows_shape.
Qed.

End GrouperFacts.

(* ================================================================== *)
(** * Further properties of the cell tuples and of the token count *)
(* ================================================================== *)

Module CellFacts.
Import Py ParsingUtils Spec Props.

Lemma min_of_le (l : list Q) (x : Q) :
  (min_of x l <= x)%Q /\ Forall (fun v => (min_of x l <= v)%Q) l.
Proof.
  unfold min_of. revert x. induction l as [|v l IH]; intros x.
  - split; [apply Qle_refl | constructor].
  - cbn [fold_left]. destruct (Qltb v x) eqn:E.
    + apply FloatProofs.Qltb_lt in E. destruct (IH v) as [H1 H2].
      split; [lra|]. constructor; [exact H1 | exact H2].
    + apply FloatProofs.Qltb_ge in E. destruct (IH x) as [H1 H2].
      split; [exact H1|]. constructor; [lra | exact H2].
Qed.

Lemma max_of_ge (l : list Q) (x : Q) :
  (x <= max_of x l)%Q /\ Forall (fun v => (v <= max_of x l)%Q) l.
Proof.
  unfold max_of. revert x. induction l as [|v l IH]; intros x.
  - split; [apply Qle_refl | constructor].
  - cbn [fold_left]. destruct (Qltb x v) eqn:E.
    + apply FloatProofs.Qltb_lt in E. destruct (IH v) as [H1 H2].
      split; [lra|]. constructor; [exact H1 | exact H2].
    + apply FloatProofs.Qltb_ge in E. destruct (IH x) as [H1 H2].
      split; [exact H1|]. constructor; [lra | exact H2].
Qed.

Lemma forall_map_in {A : Type} (f : A -> Q) (P : Q -> Prop) (l : list A) (a : A) :
  Forall P (map f l) -> In a l -> P (f a).
Proof.
  intros H Hin. rewrite Forall_forall in H. apply H. now apply in_map.
Qed.

(** X4. The box of a cell tuple holds every word of the cell: its [x0] and
    [top] are at most, and its [x1] and [bottom] at least, the rounded
    coordinates of each word. *)
Theorem cell_box_holds_words (cell_words : list Word) (c : Cell) :
  cell_to_tuple cell_words = Some c -> Forall (box_holds c) cell_words.
Proof.
  unfold cell_to_tuple. cbv zeta.
  pose proof (SortProofs.sorted_perm (by_key x0) cell_words) as Hp.
  destruct (sorted (by_key x0) cell_words) as [|w ws]; [discriminate|].
  intros H. injection H as <-.
  eapply Permutation_Forall; [exact Hp|].
  destruct (min_of_le (map x0 ws) (x0 w)) as [Hx0 Hx0s].
  destruct (max_of_ge (map x1 ws) (x1 w)) as [Hx1 Hx1s].
  destruct (min_of_le (map top ws) (top w)) as [Ht Hts].
  destruct (max_of_ge (map bottom ws) (bottom w)) as [Hb Hbs].
  constructor.
  - unfold box_holds. cbn [c_x0 c_x1 c_top c_bottom].
    repeat split; now apply FloatProofs.round_monotone.
  - apply Forall_forall. intros u Hu. unfold box_holds.
    cbn [c_x0 c_x1 c_top c_bottom]. repeat split; apply FloatProofs.round_monotone.
    + exact (forall_map_in x0 _ ws u Hx0s Hu).
    + exact (forall_map_in x1 _ ws u Hx1s Hu).
    + exact (forall_map_in top _ ws u Hts Hu).
    + exact (forall_map_in bottom _ ws u Hbs Hu).
Qed.

Lemma cell_box_holds_words_witness :
  Forall (box_holds (mkCell (lit "Total Sum") 10 40 20 30))
         [Examples.word "Total" 10 40 20 30; Examples.word "Sum" 10 30 20 30].
Proof.
  apply (cell_box_holds_words
           [Examples.word "Total" 10 40 20 30; Examples.word "Sum" 10 30 20 30]).
  vm_compute. reflexivity.
Defined.

Lemma count_fold_shift (encode : str -> list N) (pages : list (option str)) (a : Z) :
  fold_left
    (fun total_tokens page =>
       let text := match page with Some t => t | None => [] end in
       total_tokens + Z.of_nat (List.length (encode text)))
    pages a
  = a + count_tokens_in_pdf encode pages.
Proof.
  unfold count_tokens_in_pdf. revert a.
  induction pages as [|page pages IH]; intros a; cbn [fold_left]; [lia|].
  rewrite IH. rewrite (IH (0 + _)). lia.
Qed.

(** X5. The token count is never negative and adds up over the pages; a
    page without a text layer counts as a page with the empty text. *)
Theorem count_tokens_adds_up (encode : str -> list N)
    (pages1 pages2 : list (option str)) :
  0 <= count_tokens_in_pdf encode pages1
  /\ count_tokens_in_pdf encode (pages1 ++ pages2)
       = count_tokens_in_pdf encode pages1 + count_tokens_in_pdf encode pages2
  /\ count_tokens_in_pdf encode (None :: pages1)
       = count_tokens_in_pdf encode (Some [] :: pages1).
Proof.
  split; [|split].
  - induction pages1 as [|page pages IH]; [reflexivity|].
    unfold count_tokens_in_pdf in *. cbn [fold_left].
    rewrite count_fold_shift. unfold count_tokens_in_pdf. lia.
  - unfold count_tokens_in_pdf at 1. rewrite fold_left_app.
    fold (count_tokens_in_pdf encode pages1). apply count_fold_shift.
  - reflexivity.
Qed.

End CellFacts.

(* ================================================================== *)
(** * Further properties of the word merge and of the binner *)
(* ================================================================== *)

Module BinnerFacts.
Import Py ParsingUtils Textual Spec Props.

(** ** [combine_close_words] *)

Lemma join_app (sep : str) (a r : list str) :
  a <> [] -> r <> [] -> join sep (a ++ r) = join sep a ++ sep ++ join sep r.
Proof.
  induction a as [|x a IH]; [congruence|]. intros _ Hr.
  destruct a as [|y a].
  - cbn [app]. destruct r; [congruence | reflexivity].
  - change ((x :: y :: a) ++ r) with (x :: (y :: a) ++ r).
    rewrite (VisualProofs.join_cons sep x ((y :: a) ++ r)) by discriminate.
    rewrite IH by (discriminate || assumption).
    rewrite (VisualProofs.join_cons sep x (y :: a)) by discriminate.
    now rewrite <- !app_assoc.
Qed.

Lemma join_merge_last (sep x y : str) (a : list str) :
  join sep (a ++ [x ++ sep ++ y]) = join sep (a ++ [x; y]).
Proof.
  destruct a as [|z a]; [reflexivity|].
  rewrite !join_app by discriminate. reflexivity.
Qed.

Lemma join_prefix_cong (sep : str) (a b r : list str) :
  a <> [] -> b <> [] -> join sep a = join sep b -> join sep (a ++ r) = join sep (b ++ r).
Proof.
  intros Ha Hb E. destruct r as [|x r]; [now rewrite !app_nil_r|].
  rewrite !join_app by (assumption || discriminate). now rewrite E.
Qed.

Lemma combine_step_texts (merged_words : list Cell) (current_word : Cell) :
  merged_words <> [] ->
  combine_step merged_words current_word <> []
  /\ join [SPACE] (map c_text (combine_step merged_words current_word))
       = join [SPACE] (map c_text (merged_words ++ [current_word])).
Proof.
  intros Hne. unfold combine_step. cbv zeta.
  pose proof (app_removelast_last current_word Hne) as E.
  set (rl := removelast merged_words) in *.
  set (lw := last merged_words current_word) in *.
  destruct (Z.abs (c_x1 lw - c_x0 current_word) <=? word_spacing).
  - split; [now destruct rl|].
    rewrite E. rewrite !map_app, <- app_assoc. cbn [map app c_text].
    apply (join_merge_last [SPACE]).
  - split; [now destruct merged_words | reflexivity].
Qed.

Lemma combine_fold_texts (rest merged_words : list Cell) :
  merged_words <> [] ->
  fold_left combine_step rest merged_words <> []
  /\ join [SPACE] (map c_text (fold_left combine_step rest merged_words))
       = join [SPACE] (map c_text (merged_words ++ rest)).
Proof.
  revert merged_words. induction rest as [|w rest IH]; intros merged_words Hne.
  - cbn [fold_left]. now rewrite app_nil_r.
  - cbn [fold_left].
    destruct (combine_step_texts merged_words w Hne) as [Hne' E].
    destruct (IH _ Hne') as [Hne'' E'].
    split; [exact Hne''|]. rewrite E'.
    replace (merged_words ++ w :: rest) with ((merged_words ++ [w]) ++ rest)
      by (now rewrite <- app_assoc).
    rewrite (map_app c_text (combine_step merged_words w) rest).
    rewrite (map_app c_text (merged_words ++ [w]) rest).
    apply join_prefix_cong; [| |exact E].
    + intros H. apply map_eq_nil in H. contradiction.
    + rewrite map_app. now destruct (map c_text merged_words).
Qed.

Lemma combine_fold_length (rest merged_words : list Cell) :
  merged_words <> [] ->
  (List.length (fold_left combine_step rest merged_words)
     <= List.length merged_words + List.length rest)%nat.
Proof.
  revert merged_words. induction rest as [|w rest IH]; intros merged_words Hne.
  - cbn. lia.
  - cbn [fold_left List.length].
    destruct (combine_step_texts merged_words w Hne) as [Hne' _].
    etransitivity; [apply IH; exact Hne'|].
    assert (List.length (combine_step merged_words w) <= S (List.length merged_words))%nat.
    { unfold combine_step. cbv zeta.
      destruct (Z.abs _ <=? word_spacing).
      - rewrite length_app. cbn [List.length].
        rewrite (app_removelast_last w Hne) at 2. rewrite length_app. cbn. lia.
      - rewrite length_app. cbn. lia. }
    lia.
Qed.

(** X6. Merging close words keeps the text of every row: the merged words,
    joined by single spaces, read as the words of the row joined by single
    spaces; a row gets no longer, and it is emptied only if it was empty. *)
Theorem combine_close_words_keeps_text (rows : list (list Cell)) :
  Forall2
    (fun merged row =>
       join [SPACE] (map c_text merged) = join [SPACE] (map c_text row)
       /\ (List.length merged <= List.length row)%nat
       /\ (merged = [] <-> row = []))
    (combine_close_words rows) rows.
Proof.
  unfold combine_close_words. induction rows as [|row rows IH]; [constructor|].
  cbn [map]. constructor; [|exact IH].
  destruct row as [|first rest]; [cbn; intuition lia|].
  cbn [combine_row].
  destruct (combine_fold_texts rest [first]) as [Hne E]; [discriminate|].
  split; [exact E|]. split.
  - pose proof (combine_fold_length rest [first]) as H. cbn [List.length] in *.
    apply H. discriminate.
  - split; [intros H; contradiction | discriminate].
Qed.

Lemma sorted_snoc_last {A : Type} (R : A -> A -> Prop) (l : list A) (a d : A) :
  Sorted R l -> (l <> [] -> R (last l d) a) -> Sorted R (l ++ [a]).
Proof.
  induction 1 as [|b l Hs IH Hb]; intros Ha.
  - repeat constructor.
  - cbn [app]. constructor.
    + apply IH. intros Hne. destruct l as [|c l]; [congruence|].
      apply Ha. discriminate.
    + destruct l as [|c l]; cbn [app].
      * constructor. apply Ha. discriminate.
      * constructor. now inversion Hb.
Qed.

Lemma sorted_snoc_inv {A : Type} (R : A -> A -> Prop) (l : list A) (a d : A) :
  Sorted R (l ++ [a]) -> Sorted R l /\ (l <> [] -> R (last l d) a).
Proof.
  induction l as [|b l IH]; intros H.
  - split; [constructor | congruence].
  - cbn [app] in H. apply Sorted_inv in H as [Hs Hb].
    destruct (IH Hs) as [Hl Hlast]. split.
    + constructor; [exact Hl|].
      destruct l as [|c l]; [constructor|].
      cbn [app] in Hb. constructor. now inversion Hb.
    + intros _. destruct l as [|c l].
      * cbn [app last] in *. now inversion Hb.
      * apply Hlast. discriminate.
Qed.

Lemma combine_step_gaps (merged_words : list Cell) (current_word : Cell) :
  merged_words <> [] ->
  Sorted gap_exceeds merged_words ->
  Sorted gap_exceeds (combine_step merged_words current_word).
Proof.
  intros Hne Hs. unfold combine_step. cbv zeta.
  destruct (Z.leb_spec (Z.abs (c_x1 (last merged_words current_word) - c_x0 current_word))
                       word_spacing) as [Hle|Hgt].
  - rewrite (app_removelast_last current_word Hne) in Hs.
    apply (sorted_snoc_inv _ _ _ current_word) in Hs as [Hs Hlast].
    apply (sorted_snoc_last _ _ _ current_word); [exact Hs|].
    intros Hne'. specialize (Hlast Hne'). unfold gap_exceeds in *.
    cbn [c_x0]. exact Hlast.
  - apply (sorted_snoc_last _ _ _ current_word); [exact Hs|].
    intros _. unfold gap_exceeds. exact Hgt.
Qed.

(** X7. After the merge, any two neighbours of a row are more than
    [word_spacing = 4] apart: the right edge of the one and the left edge
    of the other differ by more than 4. *)
Theorem combine_close_words_leaves_gaps (rows : list (list Cell)) :
  word_spacing = 4
  /\ Forall (Sorted gap_exceeds) (combine_close_words rows).
Proof.
  split; [reflexivity|]. unfold combine_close_words.
  apply Forall_map. apply Forall_forall. intros row _.
  destruct row as [|first rest]; [constructor|].
  cbn [combine_row].
  assert (H : forall rest merged, merged <> [] -> Sorted gap_exceeds merged ->
                Sorted gap_exceeds (fold_left combine_step rest merged)).
  { clear. intros rest. induction rest as [|w rest IH]; intros merged Hne Hs; [exact Hs|].
    cbn [fold_left]. apply IH; [|now apply combine_step_gaps].
    now apply combine_step_texts. }
  apply H; [discriminate | repeat constructor].
Qed.

(** ** [group_coords] and [map_to_bin] *)

(** X8. The bins of [group_coords] come in ascending order, each more than
    the tolerance of 5 above the one before. *)
Theorem bins_ascend_apart (values : list Z) :
  inaccuracy_threshold = 5
  /\ StronglySorted (apart inaccuracy_threshold) (group_coords values).
Proof.
  split; [reflexivity | apply BinnerProofs.group_coords_apart].
Qed.

Lemma sorted_Z_perm (l1 l2 : list Z) :
  Permutation l1 l2 -> sorted Z.ltb l1 = sorted Z.ltb l2.
Proof.
  intros Hp. apply (GroupingProofs.sorted_unique Z.le).
  - apply SortProofs.sorted_Z_ascending.
  - apply SortProofs.sorted_Z_ascending.
  - rewrite !(SortProofs.sorted_perm Z.ltb). exact Hp.
  - intros a b _ _. lia.
Qed.

(** X9. The bins do not depend on the order of the values. *)
Theorem group_coords_ignores_order (values1 values2 : list Z) :
  Permutation values1 values2 -> group_coords values1 = group_coords values2.
Proof.
  intros Hp. unfold group_coords, coords_groups.
  now rewrite (sorted_Z_perm values1 values2 Hp).
Qed.

Lemma group_coords_ignores_order_witness :
  group_coords [0; 5; 11; 3; 30] = group_coords [30; 3; 11; 5; 0].
Proof.
  apply (group_coords_ignores_order [0; 5; 11; 3; 30] [30; 3; 11; 5; 0]).
  change [30; 3; 11; 5; 0] with (rev [0; 5; 11; 3; 30]). apply Permutation_rev.
Defined.

Lemma chain_bins_members (P : Z -> Prop) (t : Z) (vals bin : list Z) (prev : Z) :
  bin <> [] -> Forall P bin -> Forall P vals ->
  Forall (fun g => g <> [] /\ Forall P g) (chain_bins t bin prev vals)
  /\ (List.length (chain_bins t bin prev vals) <= S (List.length vals))%nat.
Proof.
  revert bin prev. induction vals as [|v vals IH]; intros bin prev Hne Hbin Hvals.
  - cbn. split; [repeat constructor; assumption | lia].
  - apply Forall_cons_iff in Hvals as [Hv Hvals]. cbn [chain_bins List.length].
    destruct (Z.abs (v - prev) >? t).
    + destruct (IH [v] v) as [H1 H2]; [discriminate | now constructor | exact Hvals |].
      split; [constructor; [split; assumption | exact H1] | cbn [List.length]; lia].
    + destruct (IH (bin ++ [v]) v) as [H1 H2];
        [now destruct bin | | exact Hvals |].
      * apply Forall_app. split; [exact Hbin | now constructor].
      * split; [exact H1 | lia].
Qed.

(** X10. Every bin center lies between the least and the greatest value,
    there are no more bins than values, and there is a bin as soon as there
    is a value. *)
Theorem bins_within_values (values : list Z) (lo hi : Z) :
  Forall (fun v => lo <= v <= hi) values ->
  Forall (fun b => lo <= b <= hi) (group_coords values)
  /\ (List.length (group_coords values) <= List.length values)%nat
  /\ (values <> [] -> group_coords values <> []).
Proof.
  intros Hv. rewrite BinnerProofs.group_coords_chain. unfold last_member_bins.
  pose proof (SortProofs.sorted_perm Z.ltb values) as Hp.
  assert (Hs : Forall (fun v => lo <= v <= hi) (sorted Z.ltb values)).
  { eapply Permutation_Forall; [symmetry; exact Hp | exact Hv]. }
  pose proof (Permutation_length Hp) as Hlen.
  destruct (sorted Z.ltb values) as [|v vals].
  - split; [constructor|]. split; [cbn; lia|].
    intros Hne. apply Permutation_nil in Hp. congruence.
  - apply Forall_cons_iff in Hs as [Hv0 Hvals].
    destruct (chain_bins_members (fun v => lo <= v <= hi) inaccuracy_threshold vals [v] v)
      as [Hm Hl]; [discriminate | now constructor | exact Hvals |].
    split; [|split].
    + apply Forall_map. eapply Forall_impl; [|exact Hm].
      cbn beta. intros g [Hne Hg]. split.
      * apply (BinnerProofs.int_mean_lower lo g Hne).
        eapply Forall_impl; [|exact Hg]. cbn. lia.
      * apply (BinnerProofs.int_mean_upper hi g Hne).
        eapply Forall_impl; [|exact Hg]. cbn. lia.
    + rewrite length_map. cbn [List.length] in Hlen. lia.
    + intros _. destruct (chain_bins inaccuracy_threshold [v] v vals) eqn:E.
      * exfalso. clear -E. revert E. generalize [v] at 1. generalize v at 1.
        induction vals as [|x vals IH]; intros p b; cbn [chain_bins]; [discriminate|].
        destruct (Z.abs (x - p) >? inaccuracy_threshold); [discriminate | apply IH].
      * discriminate.
Qed.

Lemma bins_within_values_witness :
  Forall (fun b => 0 <= b <= 30) (group_coords [0; 5; 11; 3; 30])
  /\ (List.length (group_coords [0; 5; 11; 3; 30]%Z) <= 5)%nat
  /\ ([0; 5; 11; 3; 30] <> [] -> group_coords [0; 5; 11; 3; 30] <> []).
Proof.
  apply (bins_within_values [0; 5; 11; 3; 30] 0 30).
  repeat constructor; lia.
Defined.

(** X11. [map_to_bin] returns the first bin of the list that is within 5
    of the coordinate, and the coordinate itself when every bin is more
    than 5 away; so it moves a coordinate by at most 5. *)
Theorem map_to_bin_stays_close (val : Z) (y_bins : list Z) :
  Z.abs (map_to_bin val y_bins - val) <= 5
  /\ ((Forall (fun bin_y => 5 < Z.abs (val - bin_y)) y_bins
       /\ map_to_bin val y_bins = val)
      \/ (exists before after : list Z,
            y_bins = before ++ map_to_bin val y_bins :: after
            /\ Forall (fun bin_y => 5 < Z.abs (val - bin_y)) before
            /\ Z.abs (val - map_to_bin val y_bins) <= 5)).
Proof.
  induction y_bins as [|bin_y rest [IH1 IH2]]; cbn [map_to_bin].
  - split; [lia | left; split; [constructor | reflexivity]].
  - destruct (Z.leb_spec (Z.abs (val - bin_y)) 5) as [Hle|Hgt].
    + split; [lia|]. right. exists [], rest. repeat split; [constructor | exact Hle].
    + split; [exact IH1|]. destruct IH2 as [[Hfar E]|(before & after & E & Hfar & Hle)].
      * left. split; [now constructor | exact E].
      * right. exists (bin_y :: before), after. split; [|split].
        -- cbn [app]. now rewrite <- E.
        -- now constructor.
        -- exact Hle.
Qed.

End BinnerFacts.

(* ================================================================== *)
(** * Further properties of the binned frame *)
(* ================================================================== *)

Module FrameFacts.
Import Py ParsingUtils Textual Spec Props.

Lemma unique_from_nodup (l seen : list Z) :
  NoDup (unique_from Z.eqb seen l)
  /\ (forall z, In z (unique_from Z.eqb seen l) -> ~ In z seen /\ In z l).
Proof.
  revert seen. induction l as [|x l IH]; intros seen.
  - split; [constructor | intros z []].
  - cbn [unique_from]. destruct (existsb (Z.eqb x) seen) eqn:E.
    + destruct (IH seen) as [Hn Hin]. split; [exact Hn|].
      intros z Hz. destruct (Hin z Hz). split; [assumption | now right].
    + destruct (IH (x :: seen)) as [Hn Hin]. split.
      * constructor; [|exact Hn]. intros Hx. destruct (Hin x Hx) as [Hns _].
        apply Hns. now left.
      * intros z [<-|Hz].
        -- split; [|now left]. intros Hx.
           assert (existsb (Z.eqb x) seen = true); [|congruence].
           apply existsb_exists. exists x. split; [exact Hx | apply Z.eqb_refl].
        -- destruct (Hin z Hz) as [Hns Hl]. split; [|now right].
           intros Hs. apply Hns. now right.
Qed.

Lemma strictly_sorted (l : list Z) :
  StronglySorted Z.le l -> NoDup l -> StronglySorted Z.lt l.
Proof.
  induction 1 as [|a l Hs IH Ha]; intros Hn; [constructor|].
  apply NoDup_cons_iff in Hn as [Hna Hn].
  constructor; [now apply IH|].
  rewrite Forall_forall in Ha |- *. intros b Hb.
  specialize (Ha b Hb). assert (a <> b) by (intros ->; contradiction). lia.
Qed.

(** The sorted distinct values of a column ascend strictly. *)
Lemma sorted_unique_strict (col : list Z) :
  StronglySorted Z.lt (sorted Z.ltb (unique Z.eqb col)).
Proof.
  apply strictly_sorted; [apply SortProofs.sorted_Z_ascending|].
  eapply Permutation_NoDup; [symmetry; apply SortProofs.sorted_perm|].
  apply unique_from_nodup.
Qed.

Lemma index_of_nonneg (z : Z) (l : list Z) (i : Z) :
  index_of z l = Some i -> 0 <= i.
Proof.
  revert i. induction l as [|y l IH]; intros i; cbn [index_of]; [discriminate|].
  destruct (Z.eqb z y).
  - intros H. injection H as <-. lia.
  - destruct (index_of z l) as [j|]; [|discriminate].
    intros H. injection H as <-. specialize (IH j eq_refl). lia.
Qed.

Lemma index_of_bound (z : Z) (l : list Z) (i : Z) :
  index_of z l = Some i -> i < Z.of_nat (List.length l).
Proof.
  revert i. induction l as [|y l IH]; intros i; cbn [index_of]; [discriminate|].
  destruct (Z.eqb z y).
  - intros H. injection H as <-. cbn [List.length]. lia.
  - destruct (index_of z l) as [j|]; [|discriminate].
    intros H. injection H as <-. specialize (IH j eq_refl). cbn [List.length]. lia.
Qed.

Lemma index_of_monotone (l : list Z) (a b i j : Z) :
  StronglySorted Z.lt l -> In a l -> a < b ->
  index_of a l = Some i -> index_of b l = Some j -> i < j.
Proof.
  intros Hs. revert i j. induction Hs as [|y l Hs IH Hy]; intros i j Ha Hab; [contradiction|].
  cbn [index_of]. rewrite Forall_forall in Hy.
  destruct (Z.eqb_spec b y) as [Eb|Eb].
  - exfalso. subst b. destruct Ha as [Ha|Ha]; [lia|]. specialize (Hy a Ha). lia.
  - destruct (Z.eqb_spec a y) as [Ea|Ea].
    + intros Hi. injection Hi as <-.
      destruct (index_of b l) as [j'|] eqn:Ej; [|discriminate].
      intros Hj. injection Hj as <-. apply index_of_nonneg in Ej. lia.
    + destruct Ha as [Ha|Ha]; [congruence|].
      destruct (index_of a l) as [i'|]; [|discriminate].
      destruct (index_of b l) as [j'|]; [|discriminate].
      intros Hi Hj. injection Hi as <-. injection Hj as <-.
      specialize (IH i' j' Ha Hab eq_refl eq_refl). lia.
Qed.

Lemma bin_index_monotone (col : list Z) (a b : Z) :
  In a col -> In b col -> a < b ->
  index_ltb (bin_index (sorted Z.ltb (unique Z.eqb col)) a)
            (bin_index (sorted Z.ltb (unique Z.eqb col)) b) = true.
Proof.
  intros Ha Hb Hab.
  assert (Hin : forall z, In z col -> In z (sorted Z.ltb (unique Z.eqb col))).
  { intros z Hz. eapply Permutation_in; [symmetry; apply SortProofs.sorted_perm|].
    destruct (StitcherProofs.unique_from_keeps [] col z Hz) as [[]|H]. exact H. }
  unfold bin_index.
  destruct (StitcherProofs.index_of_found a _ (Hin a Ha)) as (i & Ei & _).
  destruct (StitcherProofs.index_of_found b _ (Hin b Hb)) as (j & Ej & _).
  rewrite Ei, Ej. cbn [index_ltb]. apply Z.ltb_lt.
  apply (index_of_monotone _ a b i j (sorted_unique_strict col) (Hin a Ha) Hab Ei Ej).
Qed.

Lemma frame_rows (word_rows : list (list Cell)) (r : BinnedRow) :
  In r (get_binned_coords_dataframe word_rows) ->
  let df := create_coords_dataframe word_rows in
  let y_bins := group_coords (map y df) in
  let x_bins := group_coords (map x df) in
  let ycol := map (fun c => map_to_bin (y c) y_bins) df in
  let xcol := map (fun c => map_to_bin (x c) x_bins) df in
  In (y_bin r) ycol /\ In (x_bin r) xcol
  /\ y_index r = bin_index (sorted Z.ltb (unique Z.eqb ycol)) (y_bin r)
  /\ x_index r = bin_index (sorted Z.ltb (unique Z.eqb xcol)) (x_bin r).
Proof.
  unfold get_binned_coords_dataframe. cbv zeta.
  intros Hr. apply in_map_iff in Hr as ([[cr yb] xb] & <- & Hb).
  apply in_map_iff in Hb as (c & Hc & Hin). injection Hc as -> <- <-.
  cbn [y_bin x_bin y_index x_index]. rewrite !map_map. cbn [fst snd].
  split; [|split; [|split; reflexivity]].
  - apply in_map_iff. now exists cr.
  - apply in_map_iff. now exists cr.
Qed.

(** X12. Within a page the indices follow the bins: of two rows of the
    frame, the one with the smaller [y_bin] has the smaller [y_index], rows
    with the same [y_bin] have the same [y_index], and likewise for [x]. *)
Theorem indices_follow_bins (word_rows : list (list Cell)) (r1 r2 : BinnedRow) :
  In r1 (get_binned_coords_dataframe word_rows) ->
  In r2 (get_binned_coords_dataframe word_rows) ->
  (y_bin r1 < y_bin r2 -> index_ltb (y_index r1) (y_index r2) = true)
  /\ (y_bin r1 = y_bin r2 -> y_index r1 = y_index r2)
  /\ (x_bin r1 < x_bin r2 -> index_ltb (x_index r1) (x_index r2) = true)
  /\ (x_bin r1 = x_bin r2 -> x_index r1 = x_index r2).
Proof.
  intros H1 H2.
  destruct (frame_rows word_rows r1 H1) as (Hy1 & Hx1 & Ey1 & Ex1).
  destruct (frame_rows word_rows r2 H2) as (Hy2 & Hx2 & Ey2 & Ex2).
  rewrite Ey1, Ey2, Ex1, Ex2. repeat split.
  - now apply bin_index_monotone.
  - now intros ->.
  - now apply bin_index_monotone.
  - now intros ->.
Qed.

Lemma indices_follow_bins_witness :
  let r1 := mkBinnedRow (mkCoordRow 50 0 (lit "Age")) 0 50 (Idx 0) (Idx 1) in
  let r2 := mkBinnedRow (mkCoordRow 0 15 (lit "Alice")) 15 0 (Idx 1) (Idx 0) in
  index_ltb (y_index r1) (y_index r2) = true
  /\ index_ltb (x_index r2) (x_index r1) = true.
Proof.
  cbv zeta.
  pose (rows := [[mkCell (lit "Name") 0 10 0 10; mkCell (lit "Age") 50 60 0 10];
                 [mkCell (lit "Alice") 0 10 15 25; mkCell (lit "30") 50 55 15 25]]).
  pose (r1 := mkBinnedRow (mkCoordRow 50 0 (lit "Age")) 0 50 (Idx 0) (Idx 1)).
  pose (r2 := mkBinnedRow (mkCoordRow 0 15 (lit "Alice")) 15 0 (Idx 1) (Idx 0)).
  assert (H1 : In r1 (get_binned_coords_dataframe rows)).
  { vm_compute. right. left. reflexivity. }
  assert (H2 : In r2 (get_binned_coords_dataframe rows)).
  { vm_compute. right. right. left. reflexivity. }
  split.
  - apply (proj1 (indices_follow_bins rows r1 r2 H1 H2)). reflexivity.
  - apply (proj1 (proj2 (proj2 (indices_follow_bins rows r2 r1 H2 H1)))). reflexivity.
Defined.

Lemma map_to_bin_close (val : Z) (bins : list Z) :
  Z.abs (map_to_bin val bins - val) <= 5.
Proof.
  induction bins as [|b bins IH]; cbn [map_to_bin]; [lia|].
  destruct (Z.leb_spec (Z.abs (val - b)) 5); [lia | exact IH].
Qed.

(** X13. The binned frame has one row per merged word, in order, with the
    text and the coordinates of the word unchanged, and the bin of a
    coordinate is at most 5 away from it. *)
Theorem frame_keeps_words (word_rows : list (list Cell)) :
  map coords (get_binned_coords_dataframe word_rows)
    = create_coords_dataframe word_rows
  /\ Forall (fun r => Z.abs (y_bin r - y (coords r)) <= 5
                      /\ Z.abs (x_bin r - x (coords r)) <= 5)
            (get_binned_coords_dataframe word_rows).
Proof.
  unfold get_binned_coords_dataframe. cbv zeta. split.
  - rewrite !map_map. cbn [coords]. apply map_id.
  - rewrite map_map. apply Forall_map. apply Forall_forall. intros c _.
    cbn [y_bin x_bin coords fst snd]. split; apply map_to_bin_close.
Qed.

End FrameFacts.

(* ================================================================== *)
(** * Further properties of the grid renderer *)
(* ================================================================== *)

Module RenderFacts.
Import Py Textual Spec Props.

Lemma firstn_assign {A : Type} (l : list A) (k j : nat) (c : A) :
  (k <= j)%nat -> firstn k (assign l j c) = firstn k l.
Proof.
  revert k j. induction l as [|a l IH]; intros k j Hk.
  - now destruct j.
  - destruct j as [|j]; cbn [assign].
    + now replace k with 0%nat by lia.
    + destruct k as [|k]; [reflexivity|]. cbn [firstn]. f_equal. apply IH. lia.
Qed.

Lemma skipn_assign {A : Type} (l : list A) (m j : nat) (c : A) :
  (j < m)%nat -> skipn m (assign l j c) = skipn m l.
Proof.
  revert m j. induction l as [|a l IH]; intros m j Hm.
  - now destruct j.
  - destruct m as [|m]; [lia|]. destruct j as [|j]; cbn [assign skipn]; [reflexivity|].
    apply IH. lia.
Qed.

Lemma firstn_succ_assign {A : Type} (l : list A) (j : nat) (c : A) :
  (j < List.length l)%nat -> firstn (S j) (assign l j c) = firstn j l ++ [c].
Proof.
  revert j. induction l as [|a l IH]; intros j Hj; [cbn in Hj; lia|].
  destruct j as [|j]; cbn [assign firstn app]; [reflexivity|].
  f_equal. apply IH. cbn [List.length] in Hj. lia.
Qed.

Lemma chars_fold_prefix (k actual_pos i : nat) (text : str) (line : list char) :
  (k <= actual_pos)%nat ->
  firstn k (fold_left (char_step actual_pos) (enumerate_from i text) line)
    = firstn k line.
Proof.
  intros Hk. revert i line. induction text as [|ch text IH]; intros i line; [reflexivity|].
  cbn [enumerate_from fold_left]. rewrite IH. unfold char_step.
  destruct (actual_pos + i <? format__line_length)%nat; [|reflexivity].
  apply firstn_assign. lia.
Qed.

Lemma chars_fold_closed (actual_pos i : nat) (text : str) (line : list char) :
  List.length line = format__line_length ->
  (actual_pos + i + List.length text <= format__line_length)%nat ->
  fold_left (char_step actual_pos) (enumerate_from i text) line
    = firstn (actual_pos + i) line ++ text
        ++ skipn (actual_pos + i + List.length text) line.
Proof.
  revert i line. induction text as [|ch text IH]; intros i line Hlen Hfit.
  - cbn [enumerate_from fold_left List.length app].
    rewrite Nat.add_0_r. now rewrite firstn_skipn.
  - cbn [enumerate_from fold_left List.length] in *. unfold char_step at 2.
    replace (actual_pos + i <? format__line_length)%nat with true
      by (symmetry; apply Nat.ltb_lt; lia).
    rewrite IH; [|now rewrite RendererProofs.assign_length | lia].
    replace (actual_pos + S i)%nat with (S (actual_pos + i)) by lia.
    rewrite firstn_succ_assign by lia.
    rewrite skipn_assign by lia.
    rewrite <- app_assoc. cbn [app].
    now replace (S (actual_pos + i) + List.length text)%nat
      with (actual_pos + i + S (List.length text))%nat by lia.
Qed.

(** A word that fits is written into the line as it is. *)
Lemma place_text_fits (line : list char) (actual_pos : nat) (text : str) :
  List.length line = format__line_length ->
  (actual_pos + List.length text <= format__line_length)%nat ->
  place_text line actual_pos text
    = firstn actual_pos line ++ text ++ skipn (actual_pos + List.length text) line.
Proof.
  intros Hlen Hfit. unfold place_text.
  rewrite chars_fold_closed by (assumption || lia).
  now rewrite Nat.add_0_r.
Qed.

Lemma write_words_prefix (k : nat) (placed : list (nat * str)) (line : list char) :
  Forall (fun q => (k <= fst q)%nat) placed ->
  firstn k (write_words placed line) = firstn k line.
Proof.
  unfold write_words. intros H. revert line.
  induction H as [|q placed Hq _ IH]; intros line; [reflexivity|].
  cbn [fold_left]. rewrite IH. unfold place_text. now apply chars_fold_prefix.
Qed.

Lemma sorted_suffix {A : Type} (R : A -> A -> Prop) (a l : list A) :
  StronglySorted R (a ++ l) -> StronglySorted R l.
Proof.
  induction a as [|x a IH]; [auto|].
  cbn [app]. intros H. apply StronglySorted_inv in H as [H _]. now apply IH.
Qed.

Lemma write_words_holds (line : list char) (a b : list (nat * str)) (p : nat) (t : str) :
  List.length line = format__line_length ->
  StronglySorted ends_before (a ++ (p, t) :: b) ->
  (p + List.length t <= format__line_length)%nat ->
  exists pre post,
    write_words (a ++ (p, t) :: b) line = pre ++ t ++ post /\ List.length pre = p.
Proof.
  intros Hlen Hs Hfit.
  apply sorted_suffix in Hs. apply StronglySorted_inv in Hs as [_ Hb].
  unfold write_words. rewrite fold_left_app. cbn [fold_left fst snd].
  fold (write_words a line).
  set (l1 := write_words a line).
  assert (Hl1 : List.length l1 = format__line_length).
  { unfold l1. now rewrite RendererProofs.write_words_length. }
  fold (write_words b (place_text l1 p t)).
  set (final := write_words b (place_text l1 p t)).
  assert (Hpre : firstn (p + List.length t) final = firstn p l1 ++ t).
  { unfold final. rewrite write_words_prefix.
    - rewrite place_text_fits by assumption.
      rewrite app_assoc.
      assert (Hn : List.length (firstn p l1 ++ t) = (p + List.length t)%nat).
      { rewrite length_app, firstn_length_le; lia. }
      rewrite firstn_app, Hn, Nat.sub_diag, firstn_O, app_nil_r.
      apply firstn_all2. lia.
    - eapply Forall_impl; [|exact Hb]. unfold ends_before. cbn [fst snd].
      intros q Hq. lia. }
  exists (firstn p l1), (skipn (p + List.length t) final). split.
  - rewrite app_assoc, <- Hpre. now rewrite firstn_skipn.
  - apply firstn_length_le. lia.
Qed.

(** X14. A word whose end offset is at most 200 stands in the line as it
    is, at the offset the renderer gave it: later words do not write over
    it. *)
Theorem rendered_word_is_intact
    (cols : list (index * nat)) (items : list (index * str))
    (a b : list (nat * str)) (p : nat) (t : str) :
  word_positions cols (sorted by_x_index items) 0 = a ++ (p, t) :: b ->
  (p + List.length t <= format__line_length)%nat ->
  exists pre post,
    build_line cols items = pre ++ t ++ post /\ List.length pre = p.
Proof.
  intros Hpos Hfit. unfold build_line.
  rewrite RendererProofs.line_fold_positions, Hpos.
  apply write_words_holds; [apply repeat_length | | exact Hfit].
  rewrite <- Hpos. apply RendererProofs.word_positions_separated.
Qed.

Lemma rendered_word_is_intact_witness :
  exists pre post,
    build_line [(Idx 0, 0%nat); (Idx 1, 6%nat)] [(Idx 1, lit "Age"); (Idx 0, lit "Name")]
      = pre ++ lit "Age" ++ post
    /\ List.length pre = 8%nat.
Proof.
  apply (rendered_word_is_intact
           [(Idx 0, 0%nat); (Idx 1, 6%nat)] [(Idx 1, lit "Age"); (Idx 0, lit "Name")]
           [(2%nat, lit "Name")] [] 8 (lit "Age")).
  - vm_compute. reflexivity.
  - vm_compute. lia.
Defined.

(** X15. No word starts before column 2: the first two columns of every
    line are blank, whatever the column of its first word. *)
Theorem lines_start_with_two_blanks
    (cols : list (index * nat)) (items : list (index * str)) :
  Forall (fun q => (2 <= fst q)%nat)
         (word_positions cols (sorted by_x_index items) 0)
  /\ firstn 2 (build_line cols items) = [SPACE; SPACE].
Proof.
  pose proof (proj2 (RendererProofs.word_positions_separated
                       cols (sorted by_x_index items) 0)) as H.
  split; [exact H|].
  unfold build_line. rewrite RendererProofs.line_fold_positions.
  rewrite write_words_prefix by exact H. reflexivity.
Qed.

End RenderFacts.

(* ================================================================== *)
(** * Further properties of the page stitcher *)
(* ================================================================== *)

Module StitcherFacts.
Import Py ParsingUtils Textual Spec Props.

(** A page whose words are extracted is always processed to the end. *)
Lemma parse_page_extracted (st : ParseState) (words : list Word) :
  exists table raw_cells,
    extract_rows_from_page words 5 10 = Some (table, raw_cells)
    /\ Permutation (List.concat (List.concat raw_cells)) words
    /\ Forall2 (Forall2 (fun c cell => cell_to_tuple cell = Some c)) table raw_cells
    /\ parse_page st (Some words)
         = let df := add_offset (y_offset st) (get_binned_coords_dataframe table) in
           mkParseState (all_dfs st ++ [df])
                        (index_add (series_max (map y_index df)) (Idx 1))
                        (pages_text st ++ [format_text_by_grid_position df]).
Proof.
  destruct (GrouperFacts.extract_rows_shape words 5 10)
    as (table & raw & E & HF & _ & Hp).
  exists table, raw. repeat split; try assumption.
  unfold parse_page. rewrite E. reflexivity.
Qed.

Lemma parse_page_lengths (st : ParseState) (page : option (list Word)) :
  let n := if extracted page then 1%nat else 0%nat in
  List.length (pages_text (parse_page st page)) = (List.length (pages_text st) + n)%nat
  /\ List.length (all_dfs (parse_page st page)) = (List.length (all_dfs st) + n)%nat.
Proof.
  destruct page as [words|]; cbn [extracted]; cbv zeta.
  - destruct (parse_page_extracted st words) as (table & raw & _ & _ & _ & ->).
    cbv zeta. cbn [pages_text all_dfs]. rewrite !length_app. cbn. lia.
  - cbn [parse_page]. lia.
Qed.

Lemma parse_fold_lengths (pages : list (option (list Word))) (st : ParseState) :
  List.length (pages_text (fold_left parse_page pages st))
    = (List.length (pages_text st) + List.length (filter extracted pages))%nat
  /\ List.length (all_dfs (fold_left parse_page pages st))
       = (List.length (all_dfs st) + List.length (filter extracted pages))%nat.
Proof.
  revert st. induction pages as [|page pages IH]; intros st.
  - cbn. lia.
  - cbn [fold_left filter]. destruct (IH (parse_page st page)) as [H1 H2].
    destruct (parse_page_lengths st page) as [L1 L2]. cbv zeta in L1, L2.
    rewrite H1, H2, L1, L2.
    destruct (extracted page); cbn [List.length]; lia.
Qed.

Lemma parse_fold_skips (pages : list (option (list Word))) (st : ParseState) :
  fold_left parse_page pages st = fold_left parse_page (filter extracted pages) st.
Proof.
  revert st. induction pages as [|page pages IH]; intros st; [reflexivity|].
  cbn [fold_left filter]. destruct page as [words|]; cbn [extracted fold_left].
  - apply IH.
  - cbn [parse_page]. apply IH.
Qed.

(** X16. The native path reads the first ten pages only: later pages change
    nothing, at most ten page texts come out, and there is one frame per page
    text. *)
Theorem native_path_reads_ten_pages (pages : list (option (list Word))) :
  max_pages_ingestion = 10%nat
  /\ parse_pages pages = parse_pages (firstn max_pages_ingestion pages)
  /\ (List.length (pages_text (parse_pages pages)) <= max_pages_ingestion)%nat
  /\ List.length (all_dfs (parse_pages pages))
       = List.length (pages_text (parse_pages pages)).
Proof.
  split; [reflexivity|]. unfold parse_pages.
  destruct (parse_fold_lengths (firstn max_pages_ingestion pages)
              (mkParseState [] (Idx 0) [])) as [H1 H2].
  split; [|split].
  - now rewrite firstn_firstn, Nat.min_id.
  - rewrite H1. cbn [pages_text List.length].
    etransitivity; [apply filter_length_le|]. apply firstn_le_length.
  - rewrite H1, H2. reflexivity.
Qed.

(** X17. A page whose word extraction raises is skipped and the pages
    after it are still read: the result is that of the first ten pages
    without the failed ones, with one page text for every page extracted. *)
Theorem native_path_skips_failed_pages (pages : list (option (list Word))) :
  parse_pages pages
    = fold_left parse_page (filter extracted (firstn max_pages_ingestion pages))
                (mkParseState [] (Idx 0) [])
  /\ List.length (pages_text (parse_pages pages))
       = List.length (filter extracted (firstn max_pages_ingestion pages)).
Proof.
  unfold parse_pages. split; [apply parse_fold_skips|].
  now rewrite (proj1 (parse_fold_lengths _ _)).
Qed.

Lemma concat_nonempty {A : Type} (l : list (list A)) :
  List.concat l <> [] -> exists a, In a l /\ a <> [].
Proof.
  induction l as [|a l IH]; [intros H; now contradiction H|].
  cbn [List.concat]. destruct a as [|x a].
  - intros H. destruct (IH H) as (b & Hb & Hne). exists b. split; [now right | exact Hne].
  - intros _. exists (x :: a). split; [now left | discriminate].
Qed.

Lemma flat_map_nonempty {A B : Type} (f : A -> list B) (l : list A) (a : A) :
  In a l -> f a <> [] -> flat_map f l <> [].
Proof.
  intros Hin Hne E. rewrite flat_map_concat_map in E.
  assert (Hf : In (f a) (map f l)) by now apply in_map.
  clear Hin. induction (map f l) as [|x xs IH]; [contradiction|].
  cbn [List.concat] in E. apply app_eq_nil in E as [Ex Exs].
  destruct Hf as [->|Hf]; [contradiction | now apply IH].
Qed.

(** The frame of a page that holds a word holds a row. *)
Lemma frame_of_words_nonempty (words : list Word) (table : list (list Cell))
    (raw_cells : list (list (list Word))) :
  words <> [] ->
  Permutation (List.concat (List.concat raw_cells)) words ->
  Forall2 (Forall2 (fun c cell => cell_to_tuple cell = Some c)) table raw_cells ->
  get_binned_coords_dataframe table <> [].
Proof.
  intros Hne Hp HF.
  assert (Hrow : exists row, In row table /\ row <> []).
  { assert (Hc : List.concat (List.concat raw_cells) <> []).
    { intros E. rewrite E in Hp. apply Permutation_nil in Hp. congruence. }
    apply concat_nonempty in Hc as (cell & Hcell & _).
    apply in_concat in Hcell as (cells & Hcells & Hin).
    clear Hp. induction HF as [|row cs table raw Hrc _ IH]; [contradiction|].
    destruct Hcells as [->|Hcells].
    - exists row. split; [now left|]. intros ->. inversion Hrc; subst. contradiction.
    - destruct (IH Hcells) as (r & Hr & Hrne). exists r. split; [now right | exact Hrne]. }
  destruct Hrow as (row & Hrow & Hrne).
  unfold get_binned_coords_dataframe. cbv zeta. intros E.
  apply map_eq_nil in E. apply map_eq_nil in E.
  revert E. unfold create_coords_dataframe. cbv zeta.
  apply (flat_map_nonempty _ _ (combine_row row)).
  - unfold combine_close_words. now apply in_map.
  - intros E. apply map_eq_nil in E.
    destruct row as [|first rest]; [congruence|]. cbn [combine_row] in E.
    destruct (BinnerFacts.combine_fold_texts rest [first]) as [H _]; [discriminate|].
    contradiction.
Qed.

Lemma parse_fold_frames (pages : list (option (list Word))) (st : ParseState) :
  Forall (fun page => page <> Some []) pages ->
  Forall (fun df => df <> []) (all_dfs st) ->
  Forall (fun df => df <> []) (all_dfs (fold_left parse_page pages st)).
Proof.
  intros Hp. revert st. induction Hp as [|page pages Hpage _ IH]; intros st Hst; [exact Hst|].
  cbn [fold_left]. apply IH. destruct page as [words|]; [|exact Hst].
  destruct (parse_page_extracted st words) as (table & raw & _ & Hperm & HF & ->).
  cbv zeta. cbn [all_dfs]. apply Forall_app. split; [exact Hst|].
  constructor; [|constructor]. unfold add_offset. intros E. apply map_eq_nil in E.
  revert E. apply (frame_of_words_nonempty words table raw); try assumption.
  intros ->. now apply Hpage.
Qed.

(** [Series.max()] returns an entry of the column. *)
Lemma max_fold_attained (col : list index) (best : index) :
  fold_left max_step col best = best \/ In (fold_left max_step col best) col.
Proof.
  revert best. induction col as [|v col IH]; intros best; [now left|].
  cbn [fold_left]. destruct (IH (max_step best v)) as [E|Hin].
  - rewrite E. destruct best as [b|], v as [i|]; cbn [max_step];
      try (now left); try (right; now left).
    destruct (Z.ltb b i); [right; now left | now left].
  - right. now right.
Qed.

Lemma parse_page_next (st : ParseState) (page : option (list Word)) :
  offsets_ok st -> page <> Some [] ->
  offset_is_next st -> offset_is_next (parse_page st page).
Proof.
  intros Hst Hpage Hnext. destruct page as [words|]; [|exact Hnext].
  destruct (parse_page_extracted st words) as (table & raw & _ & Hperm & HF & ->).
  cbv zeta. unfold offset_is_next. cbn [all_dfs y_offset].
  rewrite rev_app_distr. cbn [rev app].
  destruct Hst as (o & Eo & Ho & _). rewrite Eo.
  set (df := add_offset (Idx o) (get_binned_coords_dataframe table)).
  assert (Hne : df <> []).
  { unfold df, add_offset. intros E. apply map_eq_nil in E. revert E.
    apply (frame_of_words_nonempty words table raw); try assumption.
    intros ->. now apply Hpage. }
  assert (Hdf : Forall (fun v => exists i, v = Idx i /\ o <= i) (map y_index df)).
  { unfold df, add_offset. rewrite map_map. cbn [y_index].
    apply Forall_map.
    eapply Forall_impl; [|apply (StitcherProofs.page_indices_from_zero table)].
    cbn beta. intros r (i & -> & Hi). exists (i + o). split; [reflexivity | lia]. }
  destruct (StitcherProofs.series_max_numbers o (map y_index df))
    as (m & Em & Hm & Hall); [now destruct df | exact Hdf |].
  exists m. rewrite Em. cbn [index_add]. split; [reflexivity|]. split.
  - destruct (max_fold_attained (map y_index df) NaN) as [E|Hin].
    + unfold series_max in Em. congruence.
    + fold (series_max (map y_index df)) in Hin. rewrite Em in Hin.
      apply in_map_iff in Hin as (r & Hr & Hin).
      apply Exists_exists. now exists r.
  - apply (proj1 (Forall_map y_index _ df)) in Hall.
    eapply Forall_impl; [|exact Hall]. cbn beta. intros r (i & E & Hi).
    exists i. split; [exact E | lia].
Qed.

Lemma parse_fold_next (pages : list (option (list Word))) (st : ParseState) :
  Forall (fun page => page <> Some []) pages ->
  Forall (fun df => df <> []) (all_dfs st) ->
  offsets_ok st -> offset_is_next st ->
  offset_is_next (fold_left parse_page pages st).
Proof.
  intros Hp. revert st.
  induction Hp as [|page pages Hpage Hp IH]; intros st Hne Hst Hnext; [exact Hnext|].
  cbn [fold_left].
  assert (Hne' : Forall (fun df => df <> []) (all_dfs (parse_page st page))).
  { apply (parse_fold_frames [page] st); [now constructor | exact Hne]. }
  apply IH.
  - exact Hne'.
  - now apply StitcherProofs.parse_page_offsets.
  - now apply parse_page_next.
Qed.

(** X18. When none of the first ten pages is without words, the running
    offset is a number, the row indices of a page are below those of every
    later page, and the offset is exactly one above the largest row index
    handed out: the frame of the last page holds a row with the index just
    before the offset, and every row so far has an index below the
    offset. *)
Theorem offsets_hold_without_blank_pages (pages : list (option (list Word))) :
  Forall (fun page => page <> Some []) (firstn max_pages_ingestion pages) ->
  offsets_ok (parse_pages pages) /\ offset_is_next (parse_pages pages).
Proof.
  intros Hp. split.
  - apply StitcherProofs.offsets_separate_pages.
    unfold parse_pages. apply parse_fold_frames; [exact Hp | constructor].
  - unfold parse_pages. apply parse_fold_next; [exact Hp | constructor | |].
    + exists 0. cbn [y_offset all_dfs].
      repeat split; [lia | constructor | constructor].
    + reflexivity.
Qed.

Lemma offsets_hold_without_blank_pages_witness :
  offsets_ok (parse_pages [Some Examples.name_age_page; None; Some Examples.name_age_page])
  /\ offset_is_next
       (parse_pages [Some Examples.name_age_page; None; Some Examples.name_age_page]).
Proof.
  apply (offsets_hold_without_blank_pages
           [Some Examples.name_age_page; None; Some Examples.name_age_page]).
  repeat constructor; discriminate.
Defined.

End StitcherFacts.

(* ================================================================== *)
(** * Further properties of the OCR path *)
(* ================================================================== *)

Module VisualFacts.
Import Py Visual Spec Props.

Lemma read_loop_texts (lower : str -> str) (images : list OcrPage) (st : ReadState) :
  (pages_added st < max_pages_ingestion)%nat ->
  page_texts (read_loop lower images st)
    = page_texts st
        ++ firstn (max_pages_ingestion - pages_added st) (ocr_texts lower images).
Proof.
  revert st. induction images as [|image rest IH]; intros st Hlt.
  - cbn. now rewrite firstn_nil, app_nil_r.
  - cbn [read_loop]. unfold ocr_texts. cbn [flat_map]. fold (ocr_texts lower rest).
    destruct (image_text lower image) as [img_text|].
    + cbn [pages_added app].
      replace (max_pages_ingestion - pages_added st)%nat
        with (S (max_pages_ingestion - S (pages_added st))) by lia.
      cbn [firstn].
      destruct (Nat.eqb_spec (S (pages_added st)) max_pages_ingestion) as [E|E].
      * cbn [page_texts]. rewrite E, Nat.sub_diag. reflexivity.
      * rewrite IH by (cbn [pages_added]; lia).
        cbn [page_texts pages_added]. now rewrite <- app_assoc.
    + cbn [app]. now apply IH.
Qed.

(** X19. The OCR path keeps the texts of the first ten pages that are
    processed without an exception, in page order: a page on which the
    engine raises, or which keeps ten rows or more in a text column that
    is not one of strings, is skipped without using up one of the ten
    places, and the text is every page text kept followed by the
    delimiter. *)
Theorem ocr_path_keeps_first_ten (lower : str -> str) (images : list OcrPage) :
  max_pages_ingestion = 10%nat
  /\ snd (read_text_from_images lower images)
       = firstn max_pages_ingestion (ocr_texts lower images)
  /\ fst (read_text_from_images lower images)
       = flat_map (fun p => p ++ page_delimiter)
                  (firstn max_pages_ingestion (ocr_texts lower images)).
Proof.
  split; [reflexivity|].
  assert (E : snd (read_text_from_images lower images)
              = firstn max_pages_ingestion (ocr_texts lower images)).
  { unfold read_text_from_images. cbn [snd].
    rewrite read_loop_texts by (cbn; unfold max_pages_ingestion; lia).
    cbn [page_texts pages_added app]. now rewrite Nat.sub_0_r. }
  split; [exact E|]. rewrite <- E.
  unfold read_text_from_images. cbn [fst snd].
  now apply (VisualProofs.read_loop_text lower images (mkReadState [] 0 [])).
Qed.

(** ** The dictionary of lines *)

Lemma pairs_snoc {A : Type} (R : A -> A -> Prop) (l : list A) (a : A) :
  ForallOrdPairs R l -> Forall (fun b => R b a) l -> ForallOrdPairs R (l ++ [a]).
Proof.
  induction 1 as [|b l Hb _ IH]; intros Ha; cbn [app].
  - repeat constructor.
  - apply Forall_cons_iff in Ha as [Hba Ha]. constructor.
    + apply Forall_app. split; [exact Hb | now constructor].
    + now apply IH.
Qed.

Lemma line_append_keys (y : Z) (v : Z * str) (lines : list (Z * list (Z * str))) :
  map fst (line_append y v lines) = map fst lines
  \/ (map fst (line_append y v lines) = map fst lines ++ [y]
      /\ Forall (fun k => keys_apart k y) (map fst lines)).
Proof.
  induction lines as [|[line_y vs] rest IH]; cbn [line_append map fst].
  - right. split; [reflexivity | constructor].
  - destruct (Z.leb_spec (Z.abs (line_y - y)) format__line_tol) as [Hle|Hgt].
    + left. reflexivity.
    + cbn [map fst]. destruct IH as [E|[E HF]].
      * left. now rewrite E.
      * right. rewrite E. split; [reflexivity|]. constructor; [exact Hgt | exact HF].
Qed.

Lemma line_append_words (y : Z) (v : Z * str) (lines : list (Z * list (Z * str))) :
  Permutation (flat_map snd (line_append y v lines)) (flat_map snd lines ++ [v])
  /\ (Forall (fun entry => snd entry <> []) lines ->
      Forall (fun entry => snd entry <> []) (line_append y v lines)).
Proof.
  induction lines as [|[line_y vs] rest [IH1 IH2]]; cbn [line_append].
  - split; [reflexivity|]. intros _. repeat constructor. discriminate.
  - destruct (Z.abs (line_y - y) <=? format__line_tol).
    + split.
      * cbn [flat_map snd]. rewrite <- !app_assoc.
        apply Permutation_app_head. apply Permutation_app_comm.
      * intros H. apply Forall_cons_iff in H as [_ H].
        constructor; [cbn; now destruct vs | exact H].
    + split.
      * cbn [flat_map snd]. rewrite <- app_assoc. now apply Permutation_app_head.
      * intros H. apply Forall_cons_iff in H as [Hv H].
        constructor; [exact Hv | now apply IH2].
Qed.

Lemma ocr_fold_lines (rows : list (str * Z * Z)) (lines : list (Z * list (Z * str))) :
  ForallOrdPairs keys_apart (map fst lines) ->
  Forall (fun entry => snd entry <> []) lines ->
  let lines' :=
    fold_left (fun lines r => let '(t, l, tp) := r in line_append tp (l, t) lines)
              rows lines in
  ForallOrdPairs keys_apart (map fst lines')
  /\ Forall (fun entry => snd entry <> []) lines'
  /\ Permutation (flat_map snd lines')
                 (flat_map snd lines ++ map (fun r => let '(t, l, _) := r in (l, t)) rows).
Proof.
  revert lines. induction rows as [|[[t l] tp] rows IH]; intros lines Hk Hn; cbv zeta.
  - cbn. rewrite app_nil_r. repeat split; (assumption || reflexivity).
  - cbn [fold_left map].
    destruct (line_append_words tp (l, t) lines) as [Hw Hne].
    destruct (IH (line_append tp (l, t) lines)) as (H1 & H2 & H3).
    + destruct (line_append_keys tp (l, t) lines) as [E|[E HF]]; rewrite E.
      * exact Hk.
      * now apply pairs_snoc.
    + now apply Hne.
    + cbv zeta in H1, H2, H3. split; [exact H1|]. split; [exact H2|].
      rewrite H3, Hw, <- app_assoc. reflexivity.
Qed.

(** X20. The line reconstruction files every row it keeps under exactly
    one line key, no line is empty, any two line keys are more than the
    tolerance of 10 apart, and the text is made of the lines in ascending key
    order, each with its words in ascending [left] order. *)
Theorem ocr_lines_are_apart (data : list (str * Z * Z)) :
  format__line_tol = 10
  /\ reconstruct_text_from_df data
       = join [LF]
           (map (fun entry => join [SPACE] (map snd (sorted by_fst (snd entry))))
                (sorted by_fst (ocr_lines data)))
  /\ ForallOrdPairs keys_apart (map fst (ocr_lines data))
  /\ Forall (fun entry => snd entry <> []) (ocr_lines data)
  /\ Permutation (flat_map snd (ocr_lines data))
                 (map (fun r => let '(t, l, _) := r in (l, t)) (ocr_kept data)).
Proof.
  split; [reflexivity|]. split; [reflexivity|].
  destruct (ocr_fold_lines (ocr_kept data) []) as (H1 & H2 & H3);
    [constructor | constructor |].
  cbv zeta in H1, H2, H3. repeat split; assumption.
Qed.

Lemma lstrip_suffix (s : str) :
  exists ws, s = ws ++ lstrip s /\ Forall (fun c => isspace c = true) ws
             /\ (lstrip s = [] \/ exists c rest, lstrip s = c :: rest /\ isspace c = false).
Proof.
  induction s as [|c s (ws & E & Hws & Hhd)].
  - exists []. repeat split; [constructor | now left].
  - cbn [lstrip]. destruct (isspace c) eqn:Ec.
    + exists (c :: ws). split; [cbn; now rewrite <- E|]. split; [now constructor | exact Hhd].
    + exists []. split; [reflexivity|]. split; [constructor|].
      right. now exists c, s.
Qed.

(** Trimming removes whitespace at the end and nothing else. *)
Lemma rstrip_prefix (s : str) :
  exists ws, s = rstrip s ++ ws /\ Forall (fun c => isspace c = true) ws
             /\ (rstrip s = [] \/ exists body c, rstrip s = body ++ [c] /\ isspace c = false).
Proof.
  unfold rstrip. destruct (lstrip_suffix (rev s)) as (ws & E & Hws & Hhd).
  exists (rev ws). split; [|split].
  - rewrite <- rev_app_distr, <- E. now rewrite rev_involutive.
  - apply Forall_forall. intros c Hc. apply in_rev in Hc.
    rewrite Forall_forall in Hws. now apply Hws.
  - destruct Hhd as [->|(c & rest & -> & Hc)]; [now left|].
    right. exists (rev rest), c. split; [reflexivity | exact Hc].
Qed.

End VisualFacts.

(* ================================================================== *)
(** * Further properties of the rendered lines and of the selector *)
(* ================================================================== *)

Module SelectorFacts.
Import Py Textual Unified Spec Props.

(** X21. Every rendered line is the 200-character line of its row index
    without the whitespace at its end: what is cut is whitespace only, and a
    line that is not empty ends with a character that is not whitespace. *)
Theorem rendered_lines_are_trimmed (df : list BinnedRow) :
  Forall2
    (fun line entry =>
       exists ws,
         build_line (x_index_to_col df) (snd entry) = line ++ ws
         /\ Forall (fun c => isspace c = true) ws
         /\ (line = [] \/ exists body c, line = body ++ [c] /\ isspace c = false))
    (formatted_lines df) (sorted by_line_key (lines_by_y df)).
Proof.
  unfold formatted_lines. cbv zeta.
  induction (sorted by_line_key (lines_by_y df)) as [|entry entries IH]; [constructor|].
  cbn [map]. constructor; [|exact IH].
  apply VisualFacts.rstrip_prefix.
Qed.

Lemma visual_method (lower : str -> str) (file : PdfFile) :
  method (VisualParser lower file) = IMAGE_PDF.
Proof.
  unfold VisualParser. cbv zeta.
  now destruct (Visual.read_text_from_images lower _).
Qed.

Lemma textual_parser_shape (file : PdfFile) (text_parser : Parser) :
  TextualParser file = Some text_parser ->
  method text_parser = TEXT_PDF
  /\ raw_text text_parser = join page_delimiter (pages_text text_parser).
Proof.
  unfold TextualParser. destruct (word_pages file) as [pages|]; [|discriminate].
  unfold parse_pdf_and_format. cbv zeta. intros H. injection H as <-.
  split; reflexivity.
Qed.

(** What the selector returns, case by case. *)
Lemma select_parser_cases (lower : str -> str) (file : PdfFile) (n : Z) :
  (exists text_parser,
      n > token_threshold /\ TextualParser file = Some text_parser
      /\ fst (_has_binary_encoding (raw_text text_parser)) = false
      /\ fst (_select_parser lower file n) = text_parser
      /\ ~ In ConstructVisualParser (snd (_select_parser lower file n)))
  \/ (fst (_select_parser lower file n) = VisualParser lower file
      /\ In ConstructVisualParser (snd (_select_parser lower file n))).
Proof.
  unfold _select_parser. cbv zeta.
  destruct (Z.gtb_spec n token_threshold) as [Hn|Hn]; [|right; cbn; auto].
  destruct (TextualParser file) as [text_parser|] eqn:Etp; [|right; cbn; auto].
  unfold _has_binary_encoding. cbv zeta.
  destruct (hex_search (raw_text text_parser)) eqn:Ehex; [right; cbn; auto|].
  destruct (ctrl_search _) eqn:Ectrl; [right; cbn; auto|].
  left. exists text_parser.
  split; [lia|]. split; [reflexivity|].
  split; [unfold _has_binary_encoding; cbv zeta; now rewrite Ehex, Ectrl|].
  split; [reflexivity|]. cbn. intros [H|[]]. discriminate.
Qed.

(** X22. When the native reconstruction raises, the selector logs the
    failure and returns the OCR parser. *)
Theorem native_exception_falls_back (lower : str -> str) (file : PdfFile) (n : Z) :
  n > token_threshold ->
  TextualParser file = None ->
  _select_parser lower file n
    = (VisualParser lower file,
       [ConstructTextualParser; WarnTextualParserFailed; ConstructVisualParser]).
Proof.
  intros Hn Htp. unfold _select_parser. cbv zeta.
  replace (n >? token_threshold) with true by (symmetry; apply Z.gtb_lt; lia).
  rewrite Htp. reflexivity.
Qed.

Lemma native_exception_falls_back_witness :
  let file := mkPdfFile [Some (lit "a page of embedded text")] None (Some []) in
  _select_parser Examples.ascii_lower file 23
    = (VisualParser Examples.ascii_lower file,
       [ConstructTextualParser; WarnTextualParserFailed; ConstructVisualParser]).
Proof.
  cbv zeta.
  apply (native_exception_falls_back Examples.ascii_lower
           (mkPdfFile [Some (lit "a page of embedded text")] None (Some [])) 23);
    reflexivity.
Defined.

(** X23. The method tag tells the path taken.  A result tagged TEXT-PDF is
    the native parser, reached with more than ten tokens, and its text holds
    no hexadecimal escape and no control character outside the allow-list; a
    result tagged IMAGE-PDF is the OCR parser. *)
Theorem method_tells_the_path (lower : str -> str) (file : PdfFile) (n : Z) :
  (method (fst (_select_parser lower file n)) = TEXT_PDF ->
   n > token_threshold
   /\ TextualParser file = Some (fst (_select_parser lower file n))
   /\ ~ contains_hex_escape (raw_text (fst (_select_parser lower file n)))
   /\ ~ contains_disallowed_control (raw_text (fst (_select_parser lower file n))))
  /\ (method (fst (_select_parser lower file n)) = IMAGE_PDF ->
      fst (_select_parser lower file n) = VisualParser lower file
      /\ In ConstructVisualParser (snd (_select_parser lower file n))).
Proof.
  destruct (select_parser_cases lower file n)
    as [(tp & Hn & Htp & Hb & -> & Hlog)|[-> Hlog]].
  - destruct (textual_parser_shape file tp Htp) as [Hm _]. split.
    + intros _. split; [exact Hn|]. split; [exact Htp|].
      split; intros H;
        assert (Hc : fst (_has_binary_encoding (raw_text tp)) = true)
          by (apply SelectorProofs.has_binary_encoding_iff; auto);
        congruence.
    + rewrite Hm. discriminate.
  - rewrite visual_method. split; [discriminate|]. intros _. split; [reflexivity | exact Hlog].
Qed.

End SelectorFacts.

(* ================================================================== *)
(** * Splitting the text into pages again *)
(* ================================================================== *)

Module PipelineFacts.
Import Py Unified Pipeline Spec Props.

Lemma starts_with_app (sep t : str) : starts_with sep (sep ++ t) = true.
Proof.
  induction sep as [|c sep IH]; [reflexivity|].
  cbn [app starts_with]. unfold char_eqb. now rewrite N.eqb_refl, IH.
Qed.

Lemma starts_with_inv (sep s : str) :
  starts_with sep s = true -> exists t, s = sep ++ t.
Proof.
  revert s. induction sep as [|c sep IH]; intros s; [now exists s|].
  destruct s as [|d s]; cbn [starts_with]; [discriminate|].
  rewrite andb_true_iff. unfold char_eqb. rewrite N.eqb_eq. intros [-> H].
  destruct (IH s H) as (t & ->). now exists t.
Qed.

Lemma starts_with_short (sep x y : str) :
  (List.length sep <= List.length x)%nat ->
  starts_with sep (x ++ y) = true -> starts_with sep x = true.
Proof.
  revert x. induction sep as [|c sep IH]; intros x Hlen; [reflexivity|].
  destruct x as [|d x]; [cbn in Hlen; lia|].
  cbn [app starts_with]. rewrite !andb_true_iff. intros [Hc H].
  split; [exact Hc|]. apply IH; [cbn [List.length] in Hlen; lia | exact H].
Qed.

Lemma occurs_b_complete (sep s : str) : occurs sep s -> occurs_b sep s = true.
Proof.
  intros (a & b & ->). induction a as [|x a IH].
  - cbn [app]. destruct (sep ++ b) as [|c r] eqn:E.
    + apply app_eq_nil in E as [-> _]. reflexivity.
    + cbn [occurs_b]. rewrite <- E, starts_with_app. reflexivity.
  - cbn [app occurs_b]. rewrite IH. apply orb_true_r.
Qed.

Lemma not_occurs (sep s : str) : occurs_b sep s = false -> ~ occurs sep s.
Proof.
  intros H Ho. apply occurs_b_complete in Ho. congruence.
Qed.

Lemma split_skip (sep : str) (u s cur : str) :
  split_from sep (List.length u) cur (u ++ s) = split_from sep 0 cur s.
Proof.
  induction u as [|c u IH]; [reflexivity|]. cbn [app List.length split_from]. exact IH.
Qed.

Lemma split_at_sep (sep tail cur : str) :
  sep <> [] ->
  split_from sep 0 cur (sep ++ tail) = cur :: split_from sep 0 [] tail.
Proof.
  intros Hne. destruct sep as [|c sep']; [congruence|].
  change ((c :: sep') ++ tail) with (c :: (sep' ++ tail)).
  cbn [split_from].
  change (c :: sep' ++ tail) with ((c :: sep') ++ tail). rewrite starts_with_app.
  replace (List.length (c :: sep') - 1)%nat with (List.length sep')
    by (cbn [List.length]; lia).
  now rewrite split_skip.
Qed.

Lemma split_scan (sep : str) (piece tail cur : str) :
  (forall a b, piece = a ++ b -> b <> [] -> starts_with sep (b ++ tail) = false) ->
  split_from sep 0 cur (piece ++ tail) = split_from sep 0 (cur ++ piece) tail.
Proof.
  revert cur. induction piece as [|c piece IH]; intros cur H.
  - now rewrite app_nil_r.
  - cbn [app split_from].
    change (c :: piece ++ tail) with ((c :: piece) ++ tail).
    rewrite (H [] (c :: piece) eq_refl) by discriminate.
    rewrite IH.
    + now rewrite <- app_assoc.
    + intros a b -> Hb. apply (H (c :: a) b); [reflexivity | exact Hb].
Qed.

Lemma clean_before_sep (sep piece rest a b : str) :
  sep <> [] -> splits_cleanly sep piece -> piece = a ++ b -> b <> [] ->
  starts_with sep (b ++ sep ++ rest) = false.
Proof.
  intros Hne Hclean -> Hb.
  destruct (starts_with sep (b ++ sep ++ rest)) eqn:E; [|reflexivity].
  exfalso. apply Hclean.
  assert (Es : b ++ sep ++ rest
               = (b ++ removelast sep) ++ ([last sep 0%N] ++ rest)).
  { rewrite (app_removelast_last 0%N Hne) at 1. now rewrite <- !app_assoc. }
  rewrite Es in E. apply starts_with_short in E.
  - apply starts_with_inv in E as (t & Et).
    exists a, t. now rewrite <- app_assoc, Et.
  - rewrite length_app.
    pose proof (f_equal (@List.length char) (app_removelast_last 0%N Hne)) as Hl.
    rewrite length_app in Hl. cbn [List.length] in Hl.
    destruct b; [congruence|]. cbn [List.length]. unfold str, char in *. lia.
Qed.

Lemma clean_at_end (sep piece a b : str) :
  splits_cleanly sep piece -> piece = a ++ b -> b <> [] ->
  starts_with sep (b ++ []) = false.
Proof.
  intros Hclean -> _. rewrite app_nil_r.
  destruct (starts_with sep b) eqn:E; [|reflexivity].
  exfalso. apply Hclean. apply starts_with_inv in E as (t & ->).
  exists a, (t ++ removelast sep). now rewrite <- !app_assoc.
Qed.

Lemma split_join_from (sep : str) (pieces : list str) (piece cur : str) :
  sep <> [] -> Forall (splits_cleanly sep) (piece :: pieces) ->
  split_from sep 0 cur (join sep (piece :: pieces)) = (cur ++ piece) :: pieces.
Proof.
  intros Hne. revert piece cur.
  induction pieces as [|q pieces IH]; intros piece cur Hc;
    apply Forall_cons_iff in Hc as [Hp Hc].
  - cbn [join]. rewrite <- (app_nil_r piece) at 1.
    rewrite split_scan; [reflexivity|].
    intros a b. now apply clean_at_end.
  - rewrite VisualProofs.join_cons by discriminate.
    rewrite split_scan by (intros a b; now apply clean_before_sep).
    rewrite split_at_sep by exact Hne.
    now rewrite IH.
Qed.

(** X24. Joining pieces with a separator and splitting at it gives the
    pieces back, provided no occurrence of the separator starts inside a
    piece (one that runs on into the separator after it included). *)
Theorem split_join_round_trip (sep : str) (pieces : list str) :
  sep <> [] -> pieces <> [] -> Forall (splits_cleanly sep) pieces ->
  split sep (join sep pieces) = Some pieces.
Proof.
  intros Hne Hp Hc. unfold split. destruct sep as [|c sep']; [congruence|].
  destruct pieces as [|piece pieces]; [congruence|].
  now rewrite split_join_from.
Qed.

Lemma split_join_round_trip_witness :
  split Textual.page_delimiter
        (join Textual.page_delimiter [lit "  Name  Age"; []; lit "  Alice  30"])
    = Some [lit "  Name  Age"; []; lit "  Alice  30"].
Proof.
  apply (split_join_round_trip Textual.page_delimiter
           [lit "  Name  Age"; []; lit "  Alice  30"]).
  - discriminate.
  - discriminate.
  - repeat constructor; apply not_occurs; vm_compute; reflexivity.
Defined.

(** Without the condition the round trip fails: a piece that ends like the
    start of the separator moves the cut. *)
Lemma split_join_needs_clean_pieces :
  join (lit "aa") [lit "a"; lit "b"] = lit "aaab"
  /\ split (lit "aa") (lit "aaab") = Some [[]; lit "ab"].
Proof. split; reflexivity. Qed.

Lemma map_join (f : char -> char) (sep : str) (pieces : list str) :
  map f (join sep pieces) = join (map f sep) (map (map f) pieces).
Proof.
  induction pieces as [|p pieces IH]; [reflexivity|].
  destruct pieces as [|q pieces]; [reflexivity|].
  rewrite (VisualProofs.join_cons sep p (q :: pieces)) by discriminate.
  rewrite !map_app, IH.
  change (map (map f) (p :: q :: pieces))
    with (map f p :: map (map f) (q :: pieces)).
  now rewrite (VisualProofs.join_cons (map f sep) (map f p)) by discriminate.
Qed.

Lemma header_join (header sep : str) (pieces : list str) :
  header ++ join sep pieces = join sep (prefix_first header pieces).
Proof.
  destruct pieces as [|p pieces]; [cbn; now rewrite app_nil_r|].
  destruct pieces as [|q pieces]; [reflexivity|].
  cbn [prefix_first].
  rewrite (VisualProofs.join_cons sep p (q :: pieces)) by discriminate.
  symmetry. etransitivity; [apply VisualProofs.join_cons; discriminate|].
  now rewrite <- app_assoc.
Qed.

Lemma cleaned_join (pieces : list str) :
  replace_char NBSP SPACE (join Textual.page_delimiter pieces)
    = join Textual.page_delimiter (map (replace_char NBSP SPACE) pieces).
Proof.
  unfold replace_char. now rewrite map_join.
Qed.

(** X25. On the native path the callers get the pages back by splitting
    the text at the delimiter: the page texts with every no-break space
    turned into a space, the first one after the file-name line, provided no
    occurrence of the delimiter starts inside one of them. *)
Theorem native_pages_recovered (encode : str -> list N) (lower : str -> str)
    (path : str) (file : PdfFile) :
  let pdf := init encode lower path file in
  let pieces :=
    prefix_first (file_header path)
                 (map (replace_char NBSP SPACE) (pages_text pdf)) in
  parse_method pdf = TEXT_PDF ->
  Forall (splits_cleanly Textual.page_delimiter) pieces ->
  raw_page_texts pdf = Some pieces.
Proof.
  cbv zeta. unfold raw_page_texts, init. cbv zeta.
  cbn [parse_method pages_text raw_text].
  destruct (SelectorFacts.select_parser_cases lower file (Unified.n_tokens encode file))
    as [(tp & _ & Htp & _ & -> & _)|[-> _]].
  - intros _ Hc.
    destruct (SelectorFacts.textual_parser_shape file tp Htp) as [_ Hraw].
    rewrite Hraw, cleaned_join, header_join.
    apply split_join_round_trip; [discriminate | | exact Hc].
    now destruct (map (replace_char NBSP SPACE) (Unified.pages_text tp)).
  - rewrite SelectorFacts.visual_method. discriminate.
Qed.

Lemma native_pages_recovered_witness :
  raw_page_texts (init Examples.char_tokens Examples.ascii_lower (lit "prices.pdf")
                       Examples.name_age_file)
    = Some [lit "*File name*: prices.pdf" ++ [LF] ++ lit "  Name  Age" ++ [LF]
              ++ lit "  Alice  30"].
Proof.
  apply (native_pages_recovered Examples.char_tokens Examples.ascii_lower
           (lit "prices.pdf") Examples.name_age_file).
  - vm_compute. reflexivity.
  - repeat constructor. apply not_occurs. vm_compute. reflexivity.
Defined.

Lemma delimited_join (pieces : list str) :
  pieces <> [] ->
  flat_map (fun p => p ++ Visual.page_delimiter) pieces
    = join Textual.page_delimiter (pieces ++ [[]]).
Proof.
  intros Hne. rewrite VisualProofs.flat_map_delimited by exact Hne.
  rewrite BinnerFacts.join_app by (assumption || discriminate).
  cbn [join]. now rewrite app_nil_r.
Qed.

Lemma visual_parser_text (lower : str -> str) (file : PdfFile) :
  Unified.raw_text (VisualParser lower file)
    = flat_map (fun p => p ++ Visual.page_delimiter)
               (Unified.pages_text (VisualParser lower file)).
Proof.
  unfold VisualParser. cbv zeta.
  pose proof (VisualProofs.read_loop_text lower
                (Visual.read_images_from_file (page_images file))
                (Visual.mkReadState [] 0 []) eq_refl) as H.
  cbv zeta in H. unfold Visual.read_text_from_images. cbn. exact H.
Qed.

(** X26. On the OCR path splitting the text at the delimiter gives the
    page texts and one empty page more, because the text ends with the
    delimiter. *)
Theorem ocr_pages_recovered_with_empty_page (encode : str -> list N)
    (lower : str -> str) (path : str) (file : PdfFile) :
  let pdf := init encode lower path file in
  let pieces :=
    prefix_first (file_header path)
                 (map (replace_char NBSP SPACE) (pages_text pdf ++ [[]])) in
  parse_method pdf = IMAGE_PDF ->
  pages_text pdf <> [] ->
  Forall (splits_cleanly Textual.page_delimiter) pieces ->
  raw_page_texts pdf = Some pieces.
Proof.
  cbv zeta. unfold raw_page_texts, init. cbv zeta.
  cbn [parse_method pages_text raw_text].
  destruct (SelectorFacts.select_parser_cases lower file (Unified.n_tokens encode file))
    as [(tp & _ & Htp & _ & -> & _)|[-> _]].
  - destruct (SelectorFacts.textual_parser_shape file tp Htp) as [-> _]. discriminate.
  - intros _ Hne Hc.
    rewrite visual_parser_text, delimited_join by exact Hne.
    rewrite cleaned_join, header_join.
    apply split_join_round_trip; [discriminate | | exact Hc].
    unfold prefix_first.
    destruct (map (replace_char NBSP SPACE) _); discriminate.
Qed.

Lemma ocr_pages_recovered_with_empty_page_witness :
  raw_page_texts (init Examples.char_tokens Examples.ascii_lower (lit "scan.pdf")
                       Examples.scan_file)
    = Some [lit "*File name*: scan.pdf" ++ [LF] ++ lit "total 30"; []].
Proof.
  apply (ocr_pages_recovered_with_empty_page Examples.char_tokens Examples.ascii_lower
           (lit "scan.pdf") Examples.scan_file).
  - vm_compute. reflexivity.
  - vm_compute. discriminate.
  - repeat constructor; apply not_occurs; vm_compute; reflexivity.
Defined.

End PipelineFacts.

(* ================================================================== *)
(** * Properties of the table extraction over the pages *)
(* ================================================================== *)

Module TableFacts.
Import Py TableExtractor Props.

Section Pages.
Variable extract_from_page : str -> list str -> list Table.
Variable row_threshold : nat.

Let step := page_step extract_from_page row_threshold.

Lemma pages_fold_invariant (pages_text : list str) (st : PagesState) :
  Forall (fun table => (row_threshold <= n_rows table)%nat) (all_tables st) ->
  previous_column_names st = last_columns (all_tables st) ->
  Forall (fun table => (row_threshold <= n_rows table)%nat)
         (all_tables (fold_left step pages_text st))
  /\ previous_column_names (fold_left step pages_text st)
       = last_columns (all_tables (fold_left step pages_text st)).
Proof.
  revert st. induction pages_text as [|page pages IH]; intros st Hrows Hprev.
  - split; assumption.
  - cbn [fold_left]. apply IH.
    + unfold step, page_step. cbv zeta. cbn [all_tables].
      apply Forall_app. split; [exact Hrows|].
      apply Forall_forall. intros table Ht. apply filter_In in Ht as [_ Ht].
      now apply Nat.leb_le.
    + unfold step, page_step. cbv zeta. cbn [all_tables previous_column_names].
      unfold last_columns. rewrite rev_app_distr.
      destruct (rev (filter _ _)) as [|table kept]; [exact Hprev | reflexivity].
Qed.

Lemma run_pages_invariant (pages_text : list str) :
  Forall (fun table => (row_threshold <= n_rows table)%nat)
         (all_tables (run_pages extract_from_page row_threshold pages_text))
  /\ previous_column_names (run_pages extract_from_page row_threshold pages_text)
       = last_columns (all_tables (run_pages extract_from_page row_threshold pages_text)).
Proof.
  unfold run_pages. apply pages_fold_invariant; [constructor | reflexivity].
Qed.
End Pages.

(** X27. Every table [extract_from_pages] returns has at least
    [row_threshold] rows, whatever the language model answers. *)
Theorem kept_tables_reach_row_threshold
    (extract_from_page : str -> list str -> list Table) (row_threshold : nat)
    (pages_text : list str) :
  Forall (fun table => (row_threshold <= n_rows table)%nat)
         (extract_from_pages extract_from_page row_threshold pages_text).
Proof.
  unfold extract_from_pages. apply run_pages_invariant.
Qed.

(** X28. The column names handed to the language model with a page are
    those of the last table kept on the pages before it, or none when no
    table has been kept yet; the tables of the page with enough rows are
    appended to those kept before. *)
Theorem page_hint_is_last_kept_table
    (extract_from_page : str -> list str -> list Table) (row_threshold : nat)
    (pages_text : list str) (page_text : str) :
  extract_from_pages extract_from_page row_threshold (pages_text ++ [page_text])
    = extract_from_pages extract_from_page row_threshold pages_text
        ++ filter (fun table => (row_threshold <=? n_rows table)%nat)
             (extract_from_page page_text
                (last_columns
                   (extract_from_pages extract_from_page row_threshold pages_text))).
Proof.
  unfold extract_from_pages, run_pages. rewrite fold_left_app. cbn [fold_left].
  fold (run_pages extract_from_page row_threshold pages_text).
  unfold page_step at 1. cbv zeta. cbn [all_tables].
  now rewrite (proj2 (run_pages_invariant extract_from_page row_threshold pages_text)).
Qed.

End TableFacts.
